(** * Research-agent backend: graph construction and retrieval orchestration

    A shallow embedding of the core of the backend:
    - [knowledge_graph.py]: [_chunk_text], [_merge_graphs],
      [process_text_in_chunks], [_build_adjacency], [path_discovery];
    - [utils.py]: [_escape_cypher_string], [text_to_cypher_simple];
    - [chat_agent.py]: [text_to_cypher_and_run], [search_web_only];
    - [database.py]: [run_query_if_neo4j];
    - [hybrid_agent.py]: [get_combined_response].

    Python [str] values are modelled as [string] (one [ascii] per character,
    so the development speaks about ASCII text), Python [int] as [Z], lists
    as [list], the [dict] used as adjacency map as [gmap], the [set]s as
    [gset], and a raised exception as the [Raise] case of [py_result]. *)

From Stdlib Require Import ZArith List String Ascii Lia DecimalString.
From stdpp Require Import gmap strings list sorting.

Set Warnings "-clear-no-such-hyp".

(** ** Exceptions and results *)

Inductive PyExc : Type :=
| ValueError (msg : string)
| RuntimeError (msg : string)
| Exception (msg : string).

Inductive py_result (A : Type) : Type :=
| Ok (a : A)
| Raise (e : PyExc).
Arguments Ok {A} a.
Arguments Raise {A} e.

Definition exc_str (e : PyExc) : string :=
  match e with
  | ValueError m | RuntimeError m | Exception m => m
  end.

(** ** Chunker: [_chunk_text] *)

Module Chunker.
Section Chunker.
Local Open Scope Z_scope.

(** The chunker never inspects a character, so the text is a list over an
    arbitrary character type. *)
Context {char : Type}.

Definition len (t : list char) : Z := Z.of_nat (length t).

(** A slice bound as Python normalises it: a negative bound counts from the
    end, and the result is clamped to [0, n]. *)
Definition py_index (n i : Z) : Z :=
  if i <? 0 then Z.max 0 (n + i) else Z.min i n.

(** [t[lo:hi]] *)
Definition py_slice (t : list char) (lo hi : Z) : list char :=
  let lo' := py_index (len t) lo in
  let hi' := py_index (len t) hi in
  take (Z.to_nat (hi' - lo')) (drop (Z.to_nat lo') t).

Fixpoint range_from (count : nat) (start step : Z) : list Z :=
  match count with
  | O => []
  | S c => start :: range_from c (start + step) step
  end.

(** [len(range(start, stop, step))] as CPython computes it. *)
Definition range_len (start stop step : Z) : Z :=
  if 0 <? step then
    (if start <? stop then (stop - start - 1) / step + 1 else 0)
  else
    (if stop <? start then (start - stop - 1) / (- step) + 1 else 0).

(** [list(range(start, stop, step))]; a zero step raises. *)
Definition py_range (start stop step : Z) : py_result (list Z) :=
  if step =? 0 then Raise (ValueError "range() arg 3 must not be zero")
  else Ok (range_from (Z.to_nat (range_len start stop step)) start step).

Definition _chunk_text (text : list char) (chunk_size overlap : Z)
  : py_result (list (list char)) :=
  if len text <=? chunk_size then Ok [text]
  else
    match py_range 0 (len text) (chunk_size - overlap) with
    | Raise e => Raise e
    | Ok starts => Ok (map (fun i => py_slice text i (i + chunk_size)) starts)
    end.

(** The defaults of the source: [chunk_size = 6000], [overlap = 300]. *)
Definition _chunk_text_default (text : list char) : py_result (list (list char)) :=
  _chunk_text text 6000 300.

(** Concatenation with the overlap removed: every chunk after the first
    loses its leading [overlap] characters. *)
Definition reconstruct (overlap : Z) (chunks : list (list char)) : list char :=
  match chunks with
  | [] => []
  | c :: cs => c ++ concat (map (drop (Z.to_nat overlap)) cs)
  end.

(** Ceiling of [a / b] for integers. *)
Definition ceil_div (a b : Z) : Z := - ((- a) / b).

(** *** Slices with non-negative bounds *)

Lemma py_slice_window (t : list char) (i s : Z) :
  0 <= i -> 0 <= s ->
  py_slice t i (i + s) = take (Z.to_nat s) (drop (Z.to_nat i) t).
Proof.
  intros Hi Hs. unfold py_slice, py_index, len.
  destruct (Z.ltb_spec i 0) as [?|_]; [lia|].
  destruct (Z.ltb_spec (i + s) 0) as [?|_]; [lia|].
  destruct (Z_le_gt_dec i (Z.of_nat (length t))) as [Hle|Hgt].
  - rewrite (Z.min_l i) by lia.
    destruct (Z_le_gt_dec (i + s) (Z.of_nat (length t))) as [Hle'|Hgt'].
    + rewrite Z.min_l by lia. f_equal. lia.
    + rewrite Z.min_r by lia.
      rewrite (take_ge _ (Z.to_nat s)); [|rewrite length_drop; lia].
      apply take_ge. rewrite length_drop. lia.
  - rewrite !Z.min_r by lia. rewrite Z.sub_diag. simpl.
    rewrite !drop_ge by lia. by rewrite !take_nil.
Qed.

Lemma range_from_length (k : nat) (a st : Z) : length (range_from k a st) = k.
Proof. revert a. induction k as [|k IH]; intros a; simpl; [done|]. by rewrite IH. Qed.

(** The chunks after the first, each without its overlap, tile the text
    from [a + overlap] on in windows of [step] characters. *)
Lemma stripped_windows (t : list char) (o step : nat) (k : nat) (a : nat) :
  concat (map (fun i => drop o (py_slice t i (i + Z.of_nat (step + o))))
              (range_from k (Z.of_nat a) (Z.of_nat step)))
  = take (k * step) (drop (a + o) t).
Proof.
  revert a. induction k as [|k IH]; intros a; simpl.
  - by rewrite take_0.
  - rewrite py_slice_window by lia.
    replace (Z.of_nat a + Z.of_nat step) with (Z.of_nat (a + step)) by lia.
    rewrite IH. rewrite !Nat2Z.id.
    rewrite skipn_firstn_comm. rewrite drop_drop.
    replace (step + o - o)%nat with step by lia.
    replace (a + step + o)%nat with ((a + o) + step)%nat by lia.
    rewrite <- (drop_drop t step (a + o)).
    by rewrite take_take_drop.
Qed.

Lemma range_len_pos (n step : Z) :
  0 < step -> 0 <= n -> range_len 0 n step = ceil_div n step.
Proof.
  intros Hs Hn. unfold range_len, ceil_div.
  destruct (Z.ltb_spec 0 step) as [_|?]; [|lia].
  destruct (Z.ltb_spec 0 n) as [?|?].
  2:{ assert (n = 0) as -> by lia. reflexivity. }
  rewrite Z.sub_0_r.
  pose proof (Z.div_mod (n - 1) step ltac:(lia)) as E1.
  pose proof (Z.mod_pos_bound (n - 1) step Hs) as B1.
  pose proof (Z.div_mod (- n) step ltac:(lia)) as E2.
  pose proof (Z.mod_pos_bound (- n) step Hs) as B2.
  nia.
Qed.

Lemma ceil_div_bounds (n step : Z) :
  0 < step -> n <= ceil_div n step * step < n + step.
Proof.
  intros Hs. unfold ceil_div.
  pose proof (Z.div_mod (- n) step ltac:(lia)) as E2.
  pose proof (Z.mod_pos_bound (- n) step Hs) as B2.
  nia.
Qed.

(** What the chunker returns on a text longer than one chunk, for a
    positive step. *)
Lemma chunk_text_long (text : list char) (chunk_size overlap : Z) :
  overlap < chunk_size -> chunk_size < len text ->
  _chunk_text text chunk_size overlap
  = Ok (map (fun i => py_slice text i (i + chunk_size))
            (range_from (Z.to_nat (ceil_div (len text) (chunk_size - overlap)))
                        0 (chunk_size - overlap))).
Proof.
  intros Ho Hl. unfold _chunk_text, py_range.
  destruct (Z.leb_spec (len text) chunk_size) as [?|_]; [lia|].
  destruct (Z.eqb_spec (chunk_size - overlap) 0) as [?|_]; [lia|].
  rewrite range_len_pos; [done|lia|unfold len in *; lia].
Qed.

End Chunker.

(** C3, first part: a text that fits in one chunk is returned whole. *)
Lemma chunk_text_short {char : Type} (text : list char) (chunk_size overlap : Z) :
  (len text <= chunk_size)%Z ->
  _chunk_text text chunk_size overlap = Ok [text].
Proof.
  intros H. unfold _chunk_text.
  by destruct (Z.leb_spec (len text) chunk_size) as [_|?]; [|lia].
Qed.

(** C3 as the claim states the chunk count fails: a text of 10 characters
    with [chunk_size = 4] and [overlap = 1] is cut at 0, 3, 6 and 9, which is
    four chunks, while [ceil((10 - 1) / (4 - 1))] is three. *)
Lemma chunk_count_counterexample :
  let text := [0; 1; 2; 3; 4; 5; 6; 7; 8; 9]%nat in
  (0 < 1 < 4)%Z /\ (len text > 4)%Z /\
  _chunk_text text 4 1 = Ok [[0; 1; 2; 3]; [3; 4; 5; 6]; [6; 7; 8; 9]; [9]]%nat /\
  reconstruct 1 [[0; 1; 2; 3]; [3; 4; 5; 6]; [6; 7; 8; 9]; [9]]%nat = text /\
  ceil_div (len text - 1) (4 - 1) = 3%Z /\
  ~ (exists chunks, _chunk_text text 4 1 = Ok chunks /\
       Z.of_nat (length chunks) = ceil_div (len text - 1) (4 - 1)).
Proof.
  cbv zeta. repeat split; try reflexivity; try lia.
  intros (chunks & Hc & Hn). vm_compute in Hc. inversion Hc; subst chunks.
  vm_compute in Hn. discriminate.
Qed.

(** C3 (amended): for [0 < overlap < chunk_size], a text that fits in one
    chunk is returned as the single chunk; a longer text is cut into chunks
    whose concatenation, every chunk after the first stripped of its leading
    [overlap] characters, is the text again, and the number of chunks is
    [ceil(len(T) / (chunk_size - overlap))]. *)
Theorem chunk_text_spec {char : Type} (text : list char) (chunk_size overlap : Z) :
  (0 < overlap < chunk_size)%Z ->
  ((len text <= chunk_size)%Z -> _chunk_text text chunk_size overlap = Ok [text]) /\
  ((chunk_size < len text)%Z ->
   exists chunks,
     _chunk_text text chunk_size overlap = Ok chunks /\
     reconstruct overlap chunks = text /\
     Z.of_nat (length chunks) = ceil_div (len text) (chunk_size - overlap)).
Proof.
  intros [Ho Hs]. split; [apply chunk_text_short|].
  intros Hl. eexists. split; [apply chunk_text_long; lia|].
  set (step := (chunk_size - overlap)%Z).
  pose proof (ceil_div_bounds (len text) step ltac:(unfold step; lia)) as [Hlo Hhi].
  assert (Hk : (1 <= ceil_div (len text) step)%Z) by (unfold len in *; nia).
  split.
  - destruct (Z.to_nat (ceil_div (len text) step)) as [|k] eqn:Ek; [lia|].
    cbn [range_from map reconstruct].
    assert (Hcs : chunk_size = Z.of_nat (Z.to_nat step + Z.to_nat overlap))
      by (unfold step; lia).
    assert (Hst : step = Z.of_nat (Z.to_nat step)) by (unfold step; lia).
    pose proof (stripped_windows text (Z.to_nat overlap) (Z.to_nat step) k
                  (Z.to_nat step)) as W.
    rewrite <- Hst, <- Hcs in W.
    rewrite (py_slice_window text 0 chunk_size) by lia.
    rewrite map_map, Z.add_0_l, W. change (Z.to_nat 0) with 0%nat.
    rewrite drop_0.
    replace (Z.to_nat chunk_size) with (Z.to_nat step + Z.to_nat overlap)%nat by lia.
    rewrite take_take_drop. apply take_ge. unfold len in *. nia.
  - rewrite length_map, range_from_length. lia.
Qed.

(** A text of four characters fits in one chunk of six; a text of ten
    characters is cut into [ceil(10 / 3)] chunks of four with overlap one. *)
Lemma chunk_text_spec_witness :
  (0 < 1 < 4)%Z /\
  (exists chunks,
     _chunk_text [0; 1; 2; 3; 4; 5; 6; 7; 8; 9]%nat 4 1 = Ok chunks /\
     reconstruct 1 chunks = [0; 1; 2; 3; 4; 5; 6; 7; 8; 9]%nat /\
     Z.of_nat (length chunks) = ceil_div 10 3).
Proof.
  split; [lia|].
  apply (chunk_text_spec [0; 1; 2; 3; 4; 5; 6; 7; 8; 9]%nat 4 1); reflexivity || lia.
Defined.

(** C4 as the claim states it fails: with [overlap = chunk_size] the step of
    the range is zero and the chunker raises; with [overlap > chunk_size] the
    step is negative, the range is empty and no chunk is produced. *)
Lemma chunk_overlap_counterexample :
  let text := [0; 1; 2; 3; 4]%nat in
  (len text > 2)%Z /\
  _chunk_text text 2 2 = Raise (ValueError "range() arg 3 must not be zero") /\
  _chunk_text text 2 3 = Ok [].
Proof. cbv zeta. repeat split; reflexivity || lia. Qed.

(** C4 (amended): for a text longer than [chunk_size] and
    [overlap >= chunk_size] the chunker terminates, and no clamping of the
    overlap takes place: it raises [ValueError] when [overlap = chunk_size]
    and returns the empty list of chunks when [overlap > chunk_size]. *)
Theorem chunk_text_overlap_ge {char : Type} (text : list char) (chunk_size overlap : Z) :
  (chunk_size < len text)%Z -> (chunk_size <= overlap)%Z ->
  (overlap = chunk_size ->
   _chunk_text text chunk_size overlap
   = Raise (ValueError "range() arg 3 must not be zero")) /\
  ((chunk_size < overlap)%Z -> _chunk_text text chunk_size overlap = Ok []).
Proof.
  intros Hl Ho. unfold _chunk_text, py_range, range_len.
  destruct (Z.leb_spec (len text) chunk_size) as [?|_]; [lia|].
  split; intros H.
  - subst. by rewrite Z.sub_diag.
  - destruct (Z.eqb_spec (chunk_size - overlap) 0) as [?|_]; [lia|].
    destruct (Z.ltb_spec 0 (chunk_size - overlap)) as [?|_]; [lia|].
    destruct (Z.ltb_spec (len text) 0) as [?|_]; [unfold len in *; lia|].
    reflexivity.
Qed.

Lemma chunk_text_overlap_ge_witness :
  _chunk_text [0; 1; 2; 3; 4]%nat 2 3 = Ok [].
Proof.
  apply (chunk_text_overlap_ge [0; 1; 2; 3; 4]%nat 2 3); reflexivity || lia.
Defined.

End Chunker.

(** ** Data model: [models.py] *)

Module Node.
Record t : Type := mk { id : string; type : string }.
#[global] Instance eq_dec : EqDecision t.
Proof. solve_decision. Defined.
End Node.

Module Relationship.
Record t : Type := mk { source : string; target : string; type : string }.
#[global] Instance eq_dec : EqDecision t.
Proof. solve_decision. Defined.
End Relationship.

Record KnowledgeGraphResponse : Type := mkGraph {
  nodes : list Node.t;
  relationships : list Relationship.t
}.

(** ** GraphMerger: [_merge_graphs] and [process_text_in_chunks] *)

Module Merger.

(** The three locals of [_merge_graphs].  [merged_nodes] is a [dict], whose
    [values()] come in insertion order: an association list, extended at
    its end. *)
Record state : Type := mkState {
  merged_nodes : list (string * Node.t);
  edge_set : gset (string * string * string);
  merged_rels : list Relationship.t
}.

Definition init : state := mkState [] ∅ [].

Definition dict_has {V : Type} (k : string) (d : list (string * V)) : bool :=
  bool_decide (k ∈ d.*1).

(** [if node.id not in merged_nodes: merged_nodes[node.id] = node] *)
Definition add_node (st : state) (node : Node.t) : state :=
  if dict_has (Node.id node) (merged_nodes st) then st
  else mkState (merged_nodes st ++ [(Node.id node, node)]) (edge_set st) (merged_rels st).

Definition edge_tuple (rel : Relationship.t) : string * string * string :=
  (Relationship.source rel, Relationship.target rel, Relationship.type rel).

Definition add_rel (st : state) (rel : Relationship.t) : state :=
  if bool_decide (edge_tuple rel ∈ edge_set st) then st
  else mkState (merged_nodes st) ({[edge_tuple rel]} ∪ edge_set st) (merged_rels st ++ [rel]).

(** One iteration of [for graph in graphs]. *)
Definition add_graph (st : state) (graph : KnowledgeGraphResponse) : state :=
  fold_left add_rel (relationships graph) (fold_left add_node (nodes graph) st).

Definition merge_from (st : state) (graphs : list KnowledgeGraphResponse) : state :=
  fold_left add_graph graphs st.

Definition finish (st : state) : KnowledgeGraphResponse :=
  mkGraph (merged_nodes st).*2 (merged_rels st).

Definition _merge_graphs (graphs : list KnowledgeGraphResponse) : KnowledgeGraphResponse :=
  finish (merge_from init graphs).

(** *** A state that has seen a graph is not changed by it *)

Definition knows_node (st : state) (n : Node.t) : Prop :=
  Node.id n ∈ (merged_nodes st).*1.
Definition knows_rel (st : state) (r : Relationship.t) : Prop :=
  edge_tuple r ∈ edge_set st.
Definition knows (st : state) (g : KnowledgeGraphResponse) : Prop :=
  Forall (knows_node st) (nodes g) /\ Forall (knows_rel st) (relationships g).

(** [st'] has seen at least what [st] has. *)
Definition extends (st st' : state) : Prop :=
  (forall k, k ∈ (merged_nodes st).*1 -> k ∈ (merged_nodes st').*1) /\
  edge_set st ⊆ edge_set st'.

#[local] Instance extends_refl : Reflexive extends.
Proof. by intros st; split. Qed.
#[local] Instance extends_trans : Transitive extends.
Proof. intros a b c [H1 H2] [H3 H4]. split; [auto|set_solver]. Qed.

Lemma add_node_extends st n : extends st (add_node st n).
Proof.
  unfold add_node. destruct (dict_has _ _); [reflexivity|].
  split; simpl; [|done]. intros k Hk. rewrite fmap_app, elem_of_app. by left.
Qed.

Lemma add_rel_extends st r : extends st (add_rel st r).
Proof.
  unfold add_rel. case_bool_decide; [reflexivity|].
  split; simpl; [done|set_solver].
Qed.

Lemma add_nodes_extends ns st : extends st (fold_left add_node ns st).
Proof.
  revert st. induction ns as [|n ns IH]; intros st; simpl; [reflexivity|].
  etransitivity; [apply add_node_extends|apply IH].
Qed.

Lemma add_rels_extends rs st : extends st (fold_left add_rel rs st).
Proof.
  revert st. induction rs as [|r rs IH]; intros st; simpl; [reflexivity|].
  etransitivity; [apply add_rel_extends|apply IH].
Qed.

Lemma add_graph_extends st g : extends st (add_graph st g).
Proof.
  unfold add_graph.
  etransitivity; [apply add_nodes_extends|apply add_rels_extends].
Qed.

Lemma merge_from_extends gs st : extends st (merge_from st gs).
Proof.
  revert st. induction gs as [|g gs IH]; intros st; simpl; [reflexivity|].
  etransitivity; [apply add_graph_extends|apply IH].
Qed.

Lemma knows_node_mono st st' n : extends st st' -> knows_node st n -> knows_node st' n.
Proof. intros [H _]. apply H. Qed.

Lemma knows_rel_mono st st' r : extends st st' -> knows_rel st r -> knows_rel st' r.
Proof. intros [_ H] Hr. unfold knows_rel in *. set_solver. Qed.

Lemma knows_mono st st' g : extends st st' -> knows st g -> knows st' g.
Proof.
  intros He [Hn Hr]. split.
  - eapply Forall_impl; [exact Hn|]. intros n. by apply knows_node_mono.
  - eapply Forall_impl; [exact Hr|]. intros r. by apply knows_rel_mono.
Qed.

Lemma add_node_knows st n : knows_node (add_node st n) n.
Proof.
  unfold knows_node, add_node, dict_has. case_bool_decide as H; [done|].
  simpl. rewrite fmap_app. set_solver.
Qed.

Lemma add_rel_knows st r : knows_rel (add_rel st r) r.
Proof.
  unfold knows_rel, add_rel. case_bool_decide as H; [done|].
  simpl. set_solver.
Qed.

Lemma add_nodes_knows ns st : Forall (knows_node (fold_left add_node ns st)) ns.
Proof.
  revert st. induction ns as [|n ns IH]; intros st; simpl; constructor.
  - eapply knows_node_mono; [apply add_nodes_extends|apply add_node_knows].
  - apply IH.
Qed.

Lemma add_rels_knows rs st : Forall (knows_rel (fold_left add_rel rs st)) rs.
Proof.
  revert st. induction rs as [|r rs IH]; intros st; simpl; constructor.
  - eapply knows_rel_mono; [apply add_rels_extends|apply add_rel_knows].
  - apply IH.
Qed.

Lemma add_graph_knows st g : knows (add_graph st g) g.
Proof.
  unfold add_graph. split.
  - eapply Forall_impl; [apply add_nodes_knows|].
    intros n. apply knows_node_mono, add_rels_extends.
  - apply add_rels_knows.
Qed.

Lemma merge_from_knows gs st : Forall (knows (merge_from st gs)) gs.
Proof.
  revert st. induction gs as [|g gs IH]; intros st; simpl; constructor.
  - eapply knows_mono; [apply merge_from_extends|apply add_graph_knows].
  - apply IH.
Qed.

Lemma add_nodes_known ns st : Forall (knows_node st) ns -> fold_left add_node ns st = st.
Proof.
  induction 1 as [|n ns Hn _ IH]; simpl; [done|].
  unfold add_node at 2, dict_has. by rewrite bool_decide_eq_true_2.
Qed.

Lemma add_rels_known rs st : Forall (knows_rel st) rs -> fold_left add_rel rs st = st.
Proof.
  induction 1 as [|r rs Hr _ IH]; simpl; [done|].
  unfold add_rel at 2. by rewrite bool_decide_eq_true_2.
Qed.

Lemma add_graph_known st g : knows st g -> add_graph st g = st.
Proof.
  intros [Hn Hr]. unfold add_graph. rewrite add_nodes_known by done.
  by apply add_rels_known.
Qed.

Lemma merge_from_known gs st : Forall (knows st) gs -> merge_from st gs = st.
Proof.
  induction 1 as [|g gs Hg _ IH]; simpl; [done|].
  by rewrite add_graph_known.
Qed.

(** C8: merging a list of chunk graphs followed by the same list again gives
    the same graph as merging the list once. *)
Theorem merge_graphs_twice (graphs : list KnowledgeGraphResponse) :
  _merge_graphs (graphs ++ graphs) = _merge_graphs graphs.
Proof.
  unfold _merge_graphs, merge_from. rewrite fold_left_app.
  fold (merge_from init graphs). fold (merge_from (merge_from init graphs) graphs).
  by rewrite merge_from_known by apply merge_from_knows.
Qed.

(** First writer wins on a node id, and a repeated triple is dropped. *)
Example merge_first_writer_wins :
  _merge_graphs
    [mkGraph [Node.mk "Cu" "Material"; Node.mk "Yield" "Metric"]
             [Relationship.mk "Cu" "Yield" "IMPACTS"];
     mkGraph [Node.mk "Cu" "Chemical"; Node.mk "Etch" "Process"]
             [Relationship.mk "Cu" "Yield" "IMPACTS";
              Relationship.mk "Etch" "Ghost" "USES"]]
  = mkGraph [Node.mk "Cu" "Material"; Node.mk "Yield" "Metric"; Node.mk "Etch" "Process"]
            [Relationship.mk "Cu" "Yield" "IMPACTS";
             Relationship.mk "Etch" "Ghost" "USES"].
Proof. vm_compute. reflexivity. Qed.

(** *** [process_text_in_chunks] *)

(** What the function prints. *)
Inductive stdout_line : Type :=
| AllChunksFailed (errors : list string).

Definition is_graph (res : py_result KnowledgeGraphResponse) : bool :=
  match res with Ok _ => true | Raise _ => false end.

(** [[res for res in results if isinstance(res, KnowledgeGraphResponse)]] *)
Definition successful_graphs (results : list (py_result KnowledgeGraphResponse))
  : list KnowledgeGraphResponse :=
  omap (fun res => match res with Ok g => Some g | Raise _ => None end) results.

(** [[str(res) for res in results if isinstance(res, Exception)]] *)
Definition errors_of (results : list (py_result KnowledgeGraphResponse)) : list string :=
  omap (fun res => match res with Ok _ => None | Raise e => Some (exc_str e) end) results.

Definition no_graph_message : string :=
  "Failed to generate a knowledge graph from any part of the document.".

(** The body of [process_text_in_chunks] after the [gather] with
    [return_exceptions=True]: [results] holds, per chunk and in chunk order,
    the extracted graph or the exception of that chunk. *)
Definition process_results (results : list (py_result KnowledgeGraphResponse))
  : list stdout_line * py_result KnowledgeGraphResponse :=
  match successful_graphs results with
  | [] => ([AllChunksFailed (errors_of results)], Raise (RuntimeError no_graph_message))
  | graphs => ([], Ok (_merge_graphs graphs))
  end.

(** The extractor [generate_graph_from_text_custom] calls the language
    model; its outcome on the [i]-th chunk is given by [extract]. *)
Definition process_text_in_chunks {char : Type}
    (extract : nat -> list char -> py_result KnowledgeGraphResponse)
    (text : list char)
  : list stdout_line * py_result KnowledgeGraphResponse :=
  match Chunker._chunk_text_default text with
  | Raise e => ([], Raise e)
  | Ok chunks => process_results (imap extract chunks)
  end.

Definition failed (res : py_result KnowledgeGraphResponse) : Prop := is_graph res = false.
Definition succeeded (res : py_result KnowledgeGraphResponse) : Prop := is_graph res = true.

Lemma successful_graphs_nil results :
  successful_graphs results = [] <-> Forall failed results.
Proof.
  induction results as [|[g|e] results IH]; simpl.
  - split; [constructor|done].
  - split; [done|]. intros H. by inversion H.
  - rewrite IH. split; [by constructor|]. intros H. by inversion H.
Qed.

(** C6 as the claim states it fails: the fatal error does not carry the
    underlying errors.  Two runs whose chunks fail with different errors
    raise the very same exception, so no function of the raised exception
    gives the underlying errors back. *)
Lemma no_graph_error_counterexample :
  let r1 := [Raise (Exception "LLM API call failed. Error: timeout")] in
  let r2 := [Raise (Exception "LLM returned malformed JSON.")] in
  Forall failed r1 /\ Forall failed r2 /\
  errors_of r1 <> errors_of r2 /\
  (process_results r1).2 = Raise (RuntimeError no_graph_message) /\
  (process_results r2).2 = Raise (RuntimeError no_graph_message) /\
  ~ (exists carried : PyExc -> list string,
       forall results, Forall failed results ->
         exists e, (process_results results).2 = Raise e /\ carried e = errors_of results).
Proof.
  cbv zeta. repeat split.
  - by repeat constructor.
  - by repeat constructor.
  - discriminate.
  - intros (carried & H).
    destruct (H [Raise (Exception "a")]) as (e1 & He1 & Hc1); [by repeat constructor|].
    destruct (H [Raise (Exception "b")]) as (e2 & He2 & Hc2); [by repeat constructor|].
    simpl in *. inversion He1; inversion He2; subst.
    rewrite Hc1 in Hc2. discriminate.
Qed.

(** C6 (amended): the pipeline raises a fatal error exactly when every
    chunk's extraction failed; the error is a [RuntimeError] with a fixed
    message, and the underlying errors are only printed.  When at least one
    chunk succeeded, the result is the merge of the successful chunks'
    graphs, in chunk order, and nothing is raised. *)
Theorem process_results_spec (results : list (py_result KnowledgeGraphResponse)) :
  (Forall failed results ->
     process_results results
     = ([AllChunksFailed (errors_of results)], Raise (RuntimeError no_graph_message))) /\
  (Exists succeeded results ->
     process_results results = ([], Ok (_merge_graphs (successful_graphs results)))) /\
  ((exists e, (process_results results).2 = Raise e) <-> Forall failed results).
Proof.
  unfold process_results.
  destruct (successful_graphs results) as [|g gs] eqn:E.
  - apply successful_graphs_nil in E. repeat split; eauto.
    intros Hex. apply Exists_exists in Hex as (r & Hr & Hs).
    rewrite Forall_forall in E. specialize (E r Hr).
    unfold failed, succeeded in *. congruence.
  - assert (Hn : ~ Forall failed results).
    { intros H. apply successful_graphs_nil in H. congruence. }
    repeat split; try done.
    intros (e & He). simpl in He. discriminate.
Qed.

Lemma process_results_spec_witness :
  process_results [Raise (Exception "boom"); Ok (mkGraph [Node.mk "Cu" "Material"] [])]
  = ([], Ok (mkGraph [Node.mk "Cu" "Material"] [])).
Proof.
  etransitivity.
  - apply (process_results_spec
             [Raise (Exception "boom"); Ok (mkGraph [Node.mk "Cu" "Material"] [])]).
    apply Exists_cons_tl, Exists_cons_hd. reflexivity.
  - vm_compute. reflexivity.
Defined.

End Merger.

(** ** Python string operations used by the source *)

Module PyStr.

Definition is_upper (c : ascii) : bool :=
  (65 <=? nat_of_ascii c)%nat && (nat_of_ascii c <=? 90)%nat.
Definition is_lower (c : ascii) : bool :=
  (97 <=? nat_of_ascii c)%nat && (nat_of_ascii c <=? 122)%nat.
Definition is_digit (c : ascii) : bool :=
  (48 <=? nat_of_ascii c)%nat && (nat_of_ascii c <=? 57)%nat.

(** [str.isspace] on one ASCII character: tab, line feed, vertical tab,
    form feed, carriage return, the four separators 28 to 31, and space. *)
Definition is_space (c : ascii) : bool :=
  let n := nat_of_ascii c in
  ((9 <=? n)%nat && (n <=? 13)%nat) || ((28 <=? n)%nat && (n <=? 32)%nat).

Definition lower_char (c : ascii) : ascii :=
  if is_upper c then ascii_of_nat (nat_of_ascii c + 32) else c.

(** [s.lower()] *)
Fixpoint lower (s : string) : string :=
  match s with
  | EmptyString => EmptyString
  | String c s' => String (lower_char c) (lower s')
  end.

(** [s.startswith(p)] *)
Fixpoint startswith (p s : string) : bool :=
  match p, s with
  | EmptyString, _ => true
  | String a p', String b s' => if Ascii.eqb a b then startswith p' s' else false
  | String _ _, EmptyString => false
  end.

(** [needle in hay] *)
Fixpoint contains (needle hay : string) : bool :=
  startswith needle hay ||
  match hay with
  | EmptyString => false
  | String _ hay' => contains needle hay'
  end.

End PyStr.

(** ** PathFinder: [_build_adjacency] and [path_discovery] *)

Module PathFinder.

(** [adj[k].append(v)] guarded by [if k in adj]. *)
Definition append_to (k v : string) (adj : gmap string (list string))
  : gmap string (list string) :=
  match adj !! k with
  | Some l => <[k := l ++ [v]]> adj
  | None => adj
  end.

Definition add_edge (adj : gmap string (list string)) (r : Relationship.t)
  : gmap string (list string) :=
  append_to (Relationship.target r) (Relationship.source r)
    (append_to (Relationship.source r) (Relationship.target r) adj).

Definition empty_adjacency (ns : list Node.t) : gmap string (list string) :=
  fold_left (fun adj node => <[Node.id node := []]> adj) ns ∅.

Definition _build_adjacency (graph : KnowledgeGraphResponse) : gmap string (list string) :=
  fold_left add_edge (relationships graph) (empty_adjacency (nodes graph)).

(** [d[k] = v] on a [dict], which keeps insertion order: a key already
    present keeps its place. *)
Fixpoint dict_set {V : Type} (k : string) (v : V) (d : list (string * V))
  : list (string * V) :=
  match d with
  | [] => [(k, v)]
  | (k', v') :: d' =>
      if String.eqb k k' then (k, v) :: d' else (k', v') :: dict_set k v d'
  end.

(** [{n.id: n.id.lower() for n in graph.nodes}] *)
Definition node_lower (graph : KnowledgeGraphResponse) : list (string * string) :=
  fold_left (fun d n => dict_set (Node.id n) (PyStr.lower (Node.id n)) d) (nodes graph) [].

Definition source_keywords : list string :=
  ["contamin"; "particle"; "metal"; "ion"; "precursor"; "surface"; "membrane";
   "material"; "impurity"].
Definition outcome_keywords : list string :=
  ["yield"; "loss"; "failure"; "degrad"; "resist"; "performance"; "defect";
   "wafer"; "corrosion"].

(** [[nid for nid, low in node_lower.items() if any(k in low for k in kws)]] *)
Definition candidates (kws : list string) (d : list (string * string)) : list string :=
  (filter (fun e => existsb (fun k => PyStr.contains k e.2) kws = true) d).*1.

(** The inner [for nb in adj.get(curr, [])] loop, on the pair of the
    visited set and the queue. *)
Definition visit (path : list string)
    (st : gset string * list (string * list string)) (nb : string)
  : gset string * list (string * list string) :=
  if bool_decide (nb ∈ st.1) then st
  else ({[nb]} ∪ st.1, st.2 ++ [(nb, path ++ [nb])]).

(** The [while q] loop.  [fuel] bounds the number of iterations; [None]
    means the bound was hit with the queue not yet empty. *)
Fixpoint bfs_loop (fuel : nat) (adj : gmap string (list string)) (max_hops : Z)
    (t : string) (q : list (string * list string)) (visited : gset string)
    (found : list (list string)) : option (list (list string)) :=
  match q with
  | [] => Some found
  | (curr, path) :: q' =>
      match fuel with
      | O => None
      | S fuel' =>
          if (Z.of_nat (length path) >? max_hops)%Z then
            bfs_loop fuel' adj max_hops t q' visited found
          else if String.eqb curr t then
            bfs_loop fuel' adj max_hops t q' visited (found ++ [path])
          else
            let st := fold_left (visit path) (default [] (adj !! curr)) (visited, q') in
            bfs_loop fuel' adj max_hops t st.2 st.1 found
      end
  end.

(** The search for one pair, started as the source does: the queue holds
    the origin with the one-node path, the visited set holds the origin. *)
Definition search_pair (fuel : nat) (adj : gmap string (list string)) (max_hops : Z)
    (s t : string) : option (list (list string)) :=
  bfs_loop fuel adj max_hops t [(s, [s])] {[s]} [].

(** All ids that occur in an adjacency list. *)
Definition endpoints (graph : KnowledgeGraphResponse) : gset string :=
  list_to_set (map Relationship.source (relationships graph)
               ++ map Relationship.target (relationships graph)).

(** Every search visits each id at most once, so the loop runs at most
    once per endpoint and once for the origin ([search_pair_terminates]). *)
Definition iterations (graph : KnowledgeGraphResponse) : nat :=
  S (size (endpoints graph)).

(** The paths one pair adds to [all_paths]. *)
Definition pair_paths (graph : KnowledgeGraphResponse) (max_hops : Z) (s t : string)
  : list (list string) :=
  if String.eqb s t then []
  else default [] (search_pair (iterations graph) (_build_adjacency graph) max_hops s t).

(** [all_paths] after the two nested [for] loops. *)
Definition pool (graph : KnowledgeGraphResponse) (max_hops : Z)
    (sources targets : list string) : list (list string) :=
  concat (map (fun s => concat (map (fun t => pair_paths graph max_hops s t) targets))
              sources).

(** [list.sort(key=len)]: a stable sort, here by insertion. *)
Fixpoint insert_by_len (p : list string) (l : list (list string)) : list (list string) :=
  match l with
  | [] => [p]
  | p' :: l' =>
      if (length p <=? length p')%nat then p :: p' :: l'
      else p' :: insert_by_len p l'
  end.

Definition sort_by_len (l : list (list string)) : list (list string) :=
  foldr insert_by_len [] l.

Definition path_discovery (graph : KnowledgeGraphResponse) (max_hops top_k : Z)
  : list (list string) :=
  let adj := _build_adjacency graph in
  if bool_decide (adj = ∅) then []
  else
    let sources := candidates source_keywords (node_lower graph) in
    let targets := candidates outcome_keywords (node_lower graph) in
    match sources, targets with
    | [], _ | _, [] => []
    | _, _ =>
        let all_paths := pool graph max_hops sources targets in
        match all_paths with
        | [] => []
        | _ => Chunker.py_slice (sort_by_len all_paths) 0 top_k
        end
    end.

(** The defaults of the source: [max_hops = 4], [top_k = 5]. *)
Definition path_discovery_default (graph : KnowledgeGraphResponse) : list (list string) :=
  path_discovery graph 4 5.

Definition line_graph : KnowledgeGraphResponse :=
  mkGraph [Node.mk "Metal ion" "Material"; Node.mk "Etch" "Process";
           Node.mk "Yield" "Metric"]
          [Relationship.mk "Metal ion" "Etch" "USED_IN";
           Relationship.mk "Yield" "Etch" "MEASURES"].

Example path_discovery_line :
  path_discovery_default line_graph = [["Metal ion"; "Etch"; "Yield"]].
Proof. vm_compute. reflexivity. Qed.

(** *** The adjacency view *)

(** [b] is in the adjacency list of [a]. *)
Definition edge (adj : gmap string (list string)) (a b : string) : Prop :=
  exists l, adj !! a = Some l /\ b ∈ l.

(** Every consecutive pair of [p] is an edge. *)
Fixpoint walk (adj : gmap string (list string)) (p : list string) : Prop :=
  match p with
  | a :: (b :: _) as p' => edge adj a b /\ walk adj p'
  | _ => True
  end.

(** A simple path from [s] to [t]: a walk without a repeated node. *)
Definition simple_path (adj : gmap string (list string)) (s t : string)
    (p : list string) : Prop :=
  head p = Some s /\ last p = Some t /\ NoDup p /\ walk adj p.

Definition node_ids (graph : KnowledgeGraphResponse) : list string :=
  map Node.id (nodes graph).

Lemma dom_append_to k v (adj : gmap string (list string)) :
  dom (append_to k v adj) = dom adj.
Proof.
  unfold append_to. destruct (adj !! k) as [l|] eqn:E; [|done].
  rewrite dom_insert_L. apply elem_of_dom_2 in E.
  apply set_eq. intros x. rewrite elem_of_union, elem_of_singleton.
  split; [intros [->|?]; done|by right].
Qed.

Lemma dom_add_edge (adj : gmap string (list string)) r :
  dom (add_edge adj r) = dom adj.
Proof. unfold add_edge. by rewrite !dom_append_to. Qed.

Lemma dom_fold_add_edge rs (adj : gmap string (list string)) :
  dom (fold_left add_edge rs adj) = dom adj.
Proof.
  revert adj. induction rs as [|r rs IH]; intros adj; simpl; [done|].
  by rewrite IH, dom_add_edge.
Qed.

Lemma dom_empty_adjacency_from ns (adj : gmap string (list string)) :
  dom (fold_left (fun adj node => <[Node.id node := []]> adj) ns adj)
  = list_to_set (map Node.id ns) ∪ dom adj.
Proof.
  revert adj. induction ns as [|n ns IH]; intros adj; simpl.
  - set_solver.
  - rewrite IH, dom_insert_L. set_solver.
Qed.

(** The keys of the adjacency map are the declared node ids. *)
Lemma dom_build_adjacency graph :
  dom (_build_adjacency graph) = list_to_set (node_ids graph).
Proof.
  unfold _build_adjacency, empty_adjacency.
  rewrite dom_fold_add_edge, dom_empty_adjacency_from, dom_empty_L.
  unfold node_ids. set_solver.
Qed.

(** All entries of all adjacency lists lie in [E]. *)
Definition lists_within (E : gset string) (adj : gmap string (list string)) : Prop :=
  forall k l x, adj !! k = Some l -> x ∈ l -> x ∈ E.

Lemma append_to_within E k v adj :
  v ∈ E -> lists_within E adj -> lists_within E (append_to k v adj).
Proof.
  intros Hv H k' l' x. unfold append_to.
  destruct (adj !! k) as [l|] eqn:El; [|apply H].
  destruct (decide (k = k')) as [->|Hne].
  - rewrite lookup_insert_eq. intros [= <-] Hx.
    apply elem_of_app in Hx as [Hx|Hx]; [by eapply H|].
    apply list_elem_of_singleton in Hx. by subst.
  - rewrite lookup_insert_ne by done. apply H.
Qed.

Lemma fold_add_edge_within E rs adj :
  (forall r, r ∈ rs -> Relationship.source r ∈ E /\ Relationship.target r ∈ E) ->
  lists_within E adj -> lists_within E (fold_left add_edge rs adj).
Proof.
  revert adj. induction rs as [|r rs IH]; intros adj Hrs H; simpl; [done|].
  apply IH.
  - intros r' Hr'. apply Hrs. by right.
  - destruct (Hrs r) as [Hs Ht]; [by left|].
    unfold add_edge. by repeat apply append_to_within.
Qed.

Lemma empty_adjacency_within E ns (adj : gmap string (list string)) :
  lists_within E adj ->
  lists_within E (fold_left (fun adj node => <[Node.id node := []]> adj) ns adj).
Proof.
  revert adj. induction ns as [|n ns IH]; intros adj H; simpl; [done|].
  apply IH. intros k l x. destruct (decide (Node.id n = k)) as [->|Hne].
  - rewrite lookup_insert_eq. intros [= <-] Hx. by apply elem_of_nil in Hx.
  - rewrite lookup_insert_ne by done. apply H.
Qed.

(** Every id in an adjacency list is an endpoint of a relationship. *)
Lemma build_adjacency_within graph :
  lists_within (endpoints graph) (_build_adjacency graph).
Proof.
  unfold _build_adjacency. apply fold_add_edge_within.
  - intros r Hr. unfold endpoints. rewrite !elem_of_list_to_set, !elem_of_app.
    split; [left|right]; apply list_elem_of_fmap; eauto.
  - apply empty_adjacency_within. intros k l x Hk. by rewrite lookup_empty in Hk.
Qed.

(** *** Invariants of the breadth-first search *)

Lemma walk_snoc adj p c nb :
  walk adj p -> last p = Some c -> edge adj c nb -> walk adj (p ++ [nb]).
Proof.
  induction p as [|a [|b p] IH]; simpl; intros Hw Hl He.
  - done.
  - injection Hl as ->. by split.
  - destruct Hw as [Hab Hw]. split; [done|]. by apply IH.
Qed.

Lemma walk_inner_in_dom adj p x :
  walk adj p -> x ∈ p -> last p <> Some x -> x ∈ dom adj.
Proof.
  induction p as [|a [|b p] IH]; simpl; intros Hw Hx Hl.
  - by apply elem_of_nil in Hx.
  - apply list_elem_of_singleton in Hx. by subst.
  - destruct Hw as [(l & Hl' & _) Hw].
    apply elem_of_cons in Hx as [->|Hx]; [by eapply elem_of_dom_2|].
    by apply IH.
Qed.

Section Search.
Variable adj : gmap string (list string).
Variable max_hops : Z.
Variable s t : string.

(** A queue entry [(curr, path)]: [path] is a simple path from the origin
    to [curr] all of whose nodes are marked visited. *)
Definition entry_ok (visited : gset string) (e : string * list string) : Prop :=
  simple_path adj s e.1 e.2 /\ forall x, x ∈ e.2 -> x ∈ visited.

(** A path appended to [all_paths]. *)
Definition found_ok (p : list string) : Prop :=
  simple_path adj s t p /\ (Z.of_nat (length p) <= max_hops)%Z.

Record inv (q : list (string * list string)) (visited : gset string)
    (found : list (list string)) : Prop := mkInv {
  inv_entries : Forall (entry_ok visited) q;
  inv_nodup : NoDup q.*1;
  inv_found : Forall found_ok found;
  inv_once : found = [] \/ (length found = 1%nat /\ t ∈ visited /\ t ∉ q.*1)
}.

Lemma entry_ok_mono v v' e : v ⊆ v' -> entry_ok v e -> entry_ok v' e.
Proof. intros Hsub [Hp Hv]. split; [done|]. intros x Hx. apply Hsub. by apply Hv. Qed.

Lemma entry_head_visited v e : entry_ok v e -> e.1 ∈ v.
Proof.
  intros [(_ & Hl & _) Hv]. apply Hv.
  apply last_Some in Hl as [l' ->]. apply elem_of_app. right. by left.
Qed.

Lemma entries_visited v q : Forall (entry_ok v) q -> forall c, c ∈ q.*1 -> c ∈ v.
Proof.
  intros H c Hc. apply list_elem_of_fmap in Hc as (e & -> & He).
  rewrite Forall_forall in H. by eapply entry_head_visited, H.
Qed.

Lemma visit_seen path (v : gset string) q nb :
  nb ∈ v -> visit path (v, q) nb = (v, q).
Proof. intros H. unfold visit. simpl. by rewrite bool_decide_eq_true_2. Qed.

Lemma visit_new path (v : gset string) q nb :
  nb ∉ v -> visit path (v, q) nb = ({[nb]} ∪ v, q ++ [(nb, path ++ [nb])]).
Proof. intros H. unfold visit. simpl. by rewrite bool_decide_eq_false_2. Qed.

(** The inner loop over the neighbours of [curr] keeps the queue
    well-formed. *)
Lemma visit_fold_inv curr path nbs v q :
  (forall nb, nb ∈ nbs -> edge adj curr nb) ->
  entry_ok v (curr, path) ->
  Forall (entry_ok v) q -> NoDup q.*1 ->
  Forall (entry_ok (fold_left (visit path) nbs (v, q)).1)
         (fold_left (visit path) nbs (v, q)).2 /\
  NoDup (fold_left (visit path) nbs (v, q)).2.*1 /\
  v ⊆ (fold_left (visit path) nbs (v, q)).1 /\
  (t ∈ v -> t ∉ q.*1 -> t ∉ (fold_left (visit path) nbs (v, q)).2.*1).
Proof.
  revert v q. induction nbs as [|nb nbs IH]; intros v q Hnbs Hcur Hq Hnd;
    cbn [fold_left].
  - done.
  - destruct (decide (nb ∈ v)) as [Hin|Hin];
      [rewrite visit_seen by done|rewrite visit_new by done].
    + apply IH; auto. intros nb' Hnb'. apply Hnbs. by right.
    + assert (Hsub : v ⊆ {[nb]} ∪ v) by set_solver.
      assert (Hnew : entry_ok ({[nb]} ∪ v) (nb, path ++ [nb])).
      { destruct Hcur as [(Hh & Hl & Hn & Hw) Hv]. simpl in *.
        split; [split; [|split; [|split]]|]; simpl.
        - destruct path; [done|]. done.
        - apply last_snoc.
        - apply NoDup_app. split; [done|]. split; [|apply NoDup_singleton].
          intros x Hx Hx'. apply list_elem_of_singleton in Hx'. subst.
          apply Hin. by apply Hv.
        - eapply walk_snoc; eauto. apply Hnbs. by left.
        - intros x Hx. apply elem_of_app in Hx as [Hx|Hx].
          + apply Hsub. by apply Hv.
          + apply list_elem_of_singleton in Hx. set_solver. }
      destruct (IH ({[nb]} ∪ v) (q ++ [(nb, path ++ [nb])])) as (H1 & H2 & H3 & H4).
      * intros nb' Hnb'. apply Hnbs. by right.
      * by eapply entry_ok_mono.
      * apply Forall_app. split; [|by constructor].
        eapply Forall_impl; [exact Hq|]. intros e. by apply entry_ok_mono.
      * rewrite fmap_app. apply NoDup_app. split; [done|].
        split; [|apply NoDup_singleton].
        intros x Hx Hx'. apply list_elem_of_singleton in Hx'. simpl in Hx'. subst.
        apply Hin. by eapply entries_visited.
      * split; [done|]. split; [done|]. split; [set_solver|].
        intros Ht Htq. apply H4; [set_solver|].
        rewrite fmap_app. intros Hx. apply elem_of_app in Hx as [Hx|Hx]; [done|].
        apply list_elem_of_singleton in Hx. simpl in Hx. subst. done.
Qed.

(** Whatever the loop returns, it is at most one path, and that path is a
    simple path from the origin to [t] of at most [max_hops] nodes. *)
Lemma bfs_loop_inv fuel q visited found res :
  inv q visited found ->
  bfs_loop fuel adj max_hops t q visited found = Some res ->
  Forall found_ok res /\ (length res <= 1)%nat.
Proof.
  revert q visited found.
  induction fuel as [|fuel IH]; intros q visited found Hinv; simpl.
  - destruct q as [|[curr path] q]; [|done]. intros [= <-].
    destruct Hinv as [_ _ Hf Ho]. split; [done|].
    destruct Ho as [->|[-> _]]; simpl; lia.
  - destruct q as [|[curr path] q].
    { intros [= <-]. destruct Hinv as [_ _ Hf Ho]. split; [done|].
      destruct Ho as [->|[-> _]]; simpl; lia. }
    destruct Hinv as [He Hnd Hf Ho].
    apply Forall_cons in He as [Hcur He].
    rewrite fmap_cons in Hnd. apply NoDup_cons in Hnd as [Hcq Hnd]. simpl in Hcq.
    destruct (Z.gtb_spec (Z.of_nat (length path)) max_hops) as [Hlong|Hshort].
    { apply IH. split; [done|done|done|].
      destruct Ho as [->|(Hl & Ht & Htq)]; [by left|right].
      split; [done|]. split; [done|].
      intros Hx. apply Htq. rewrite fmap_cons. by right. }
    destruct (String.eqb_spec curr t) as [->|Hne].
    { apply IH. split; [done|done| |].
      - apply Forall_app. split; [done|]. constructor; [|done].
        split; [apply Hcur|lia].
      - right. destruct Ho as [->|(Hl & Ht & Htq)].
        + split; [done|]. split; [by apply (entry_head_visited _ _ Hcur)|done].
        + exfalso. apply Htq. rewrite fmap_cons. by left. }
    destruct (visit_fold_inv curr path (default [] (adj !! curr)) visited q)
      as (H1 & H2 & H3 & H4); [|done|done|done|].
    { intros nb Hnb. destruct (adj !! curr) as [l|] eqn:El; simpl in Hnb.
      - by exists l.
      - by apply elem_of_nil in Hnb. }
    apply IH. split; [done|done|done|].
    destruct Ho as [->|(Hl & Ht & Htq)]; [by left|right].
    split; [done|]. split; [by apply H3|].
    apply H4; [done|]. intros Hx. apply Htq. rewrite fmap_cons. by right.
Qed.

Lemma search_pair_inv fuel res :
  search_pair fuel adj max_hops s t = Some res ->
  Forall found_ok res /\ (length res <= 1)%nat.
Proof.
  apply bfs_loop_inv. split.
  - constructor; [|done]. split; simpl.
    + split; [done|]. split; [done|]. split; [apply NoDup_singleton|done].
    + intros x Hx. apply list_elem_of_singleton in Hx. set_solver.
  - simpl. apply NoDup_singleton.
  - done.
  - by left.
Qed.

(** *** Termination of the search *)

Variable U : gset string.
Hypothesis adj_within : lists_within U adj.

Lemma size_unvisited_insert nb (v : gset string) :
  nb ∈ U -> nb ∉ v -> S (size (U ∖ ({[nb]} ∪ v))) = size (U ∖ v).
Proof.
  intros HU Hv.
  assert (E : U ∖ v = {[nb]} ∪ U ∖ ({[nb]} ∪ v)).
  { apply set_eq. intros x. destruct (decide (x = nb)); set_solver. }
  rewrite E.
  rewrite (size_union (C:=gset string) {[nb]} (U ∖ ({[nb]} ∪ v))) by set_solver.
  by rewrite size_singleton.
Qed.

Lemma visit_fold_measure path nbs v q :
  (forall nb, nb ∈ nbs -> nb ∈ U) ->
  (length (fold_left (visit path) nbs (v, q)).2
   + size (U ∖ (fold_left (visit path) nbs (v, q)).1)
   = length q + size (U ∖ v))%nat.
Proof.
  revert v q. induction nbs as [|nb nbs IH]; intros v q Hnbs; cbn [fold_left];
    [done|].
  destruct (decide (nb ∈ v)) as [Hin|Hin];
    [rewrite visit_seen by done|rewrite visit_new by done].
  - apply IH. intros nb' Hnb'. apply Hnbs. by right.
  - rewrite IH by (intros nb' Hnb'; apply Hnbs; by right).
    rewrite length_app. simpl.
    rewrite <- (size_unvisited_insert nb v); [lia| |done].
    apply Hnbs. by left.
Qed.

Lemma bfs_loop_terminates fuel q visited found :
  (length q + size (U ∖ visited) <= fuel)%nat ->
  is_Some (bfs_loop fuel adj max_hops t q visited found).
Proof.
  revert q visited found.
  induction fuel as [|fuel IH]; intros q visited found Hm.
  - destruct q; simpl in *; [by eexists|lia].
  - destruct q as [|[curr path] q]; simpl in *; [by eexists|].
    destruct (_ >? _)%Z; [apply IH; lia|].
    destruct (String.eqb curr t); [apply IH; lia|].
    apply IH.
    rewrite visit_fold_measure; [lia|].
    intros nb Hnb. destruct (adj !! curr) as [l|] eqn:El; simpl in Hnb.
    + by eapply adj_within.
    + by apply elem_of_nil in Hnb.
Qed.

Lemma search_pair_terminates_within :
  is_Some (search_pair (S (size U)) adj max_hops s t).
Proof.
  apply bfs_loop_terminates. simpl.
  assert (size (U ∖ {[s]}) <= size U)%nat; [|lia].
  apply subseteq_size. set_solver.
Qed.

End Search.

(** The iteration bound of [pair_paths] is never reached. *)
Lemma search_pair_terminates graph max_hops s t :
  is_Some (search_pair (iterations graph) (_build_adjacency graph) max_hops s t).
Proof.
  apply search_pair_terminates_within, build_adjacency_within.
Qed.

(** *** What one pair adds to the pool *)

Lemma pair_paths_ok graph max_hops s t :
  Forall (found_ok (_build_adjacency graph) max_hops s t) (pair_paths graph max_hops s t)
  /\ (length (pair_paths graph max_hops s t) <= 1)%nat.
Proof.
  unfold pair_paths. destruct (String.eqb s t); [split; [done|simpl; lia]|].
  destruct (search_pair _ _ _ _ _) as [res|] eqn:E; simpl.
  - by eapply search_pair_inv.
  - split; [done|lia].
Qed.

Lemma pair_paths_distinct graph max_hops s t p :
  p ∈ pair_paths graph max_hops s t -> s <> t.
Proof.
  unfold pair_paths. destruct (String.eqb_spec s t) as [->|Hne]; [|done].
  intros H. by apply elem_of_nil in H.
Qed.

Lemma elem_of_concat {A : Type} (x : A) (ls : list (list A)) :
  x ∈ concat ls <-> exists l, l ∈ ls /\ x ∈ l.
Proof.
  rewrite list_elem_of_In, in_concat. split; intros (l & H1 & H2); exists l.
  - by rewrite !list_elem_of_In.
  - by rewrite <- !list_elem_of_In.
Qed.

(** The pool holds exactly the paths of the pairs. *)
Lemma elem_of_pool graph max_hops sources targets p :
  p ∈ pool graph max_hops sources targets <->
  exists s t, s ∈ sources /\ t ∈ targets /\ p ∈ pair_paths graph max_hops s t.
Proof.
  unfold pool. rewrite elem_of_concat. split.
  - intros (l & Hl & Hp). apply list_elem_of_fmap in Hl as (s & -> & Hs).
    apply elem_of_concat in Hp as (l & Hl & Hp).
    apply list_elem_of_fmap in Hl as (t & -> & Ht). eauto.
  - intros (s & t & Hs & Ht & Hp). eexists. split.
    + apply list_elem_of_fmap. exists s. split; [reflexivity|done].
    + apply elem_of_concat. eexists. split; [|exact Hp].
      apply list_elem_of_fmap. by exists t.
Qed.

(** *** Ranking and truncation keep only pooled paths *)

Lemma elem_of_insert_by_len p p' l : p' ∈ insert_by_len p l <-> p' = p \/ p' ∈ l.
Proof.
  induction l as [|a l IH]; simpl.
  - rewrite list_elem_of_singleton. split; [by left|]. intros [?|H]; [done|].
    by apply elem_of_nil in H.
  - destruct (_ <=? _)%nat.
    + by rewrite elem_of_cons.
    + rewrite !elem_of_cons, IH. tauto.
Qed.

Lemma elem_of_sort_by_len p l : p ∈ sort_by_len l <-> p ∈ l.
Proof.
  induction l as [|a l IH]; simpl; [done|].
  by rewrite elem_of_insert_by_len, IH, elem_of_cons.
Qed.

Lemma elem_of_py_slice {A : Type} (x : A) l lo hi :
  x ∈ Chunker.py_slice l lo hi -> x ∈ l.
Proof. unfold Chunker.py_slice. intros H. by apply subseteq_take, subseteq_drop in H. Qed.

(** *** Candidate endpoints are declared nodes *)

Lemma dict_set_keys {V : Type} k (v : V) d x :
  x ∈ (dict_set k v d).*1 -> x = k \/ x ∈ d.*1.
Proof.
  induction d as [|[k' v'] d IH]; simpl.
  - rewrite list_elem_of_singleton. by left.
  - destruct (String.eqb_spec k k') as [->|Hne]; simpl; rewrite !elem_of_cons.
    + tauto.
    + intros [->|H]; [by right; left|]. destruct (IH H); auto.
Qed.

Lemma node_lower_keys graph x : x ∈ (node_lower graph).*1 -> x ∈ node_ids graph.
Proof.
  unfold node_lower, node_ids.
  assert (G : forall ns d, x ∈ (fold_left (fun d n =>
              dict_set (Node.id n) (PyStr.lower (Node.id n)) d) ns d).*1 ->
            x ∈ d.*1 \/ x ∈ map Node.id ns).
  { induction ns as [|n ns IH]; intros d; simpl; [by left|].
    intros H. apply IH in H as [H|H]; [|right; by right].
    apply dict_set_keys in H as [->|H]; [right; by left|by left]. }
  intros H. apply G in H as [H|H]; [by apply elem_of_nil in H|done].
Qed.

Lemma candidates_declared kws graph x :
  x ∈ candidates kws (node_lower graph) -> x ∈ node_ids graph.
Proof.
  unfold candidates. intros H. apply node_lower_keys.
  apply list_elem_of_fmap in H as (e & -> & He).
  apply list_elem_of_filter in He as [_ He].
  apply list_elem_of_fmap. by exists e.
Qed.

Lemma path_discovery_pooled graph max_hops top_k p :
  p ∈ path_discovery graph max_hops top_k ->
  p ∈ pool graph max_hops (candidates source_keywords (node_lower graph))
                          (candidates outcome_keywords (node_lower graph)).
Proof.
  unfold path_discovery. case_bool_decide; [intros Hp; by apply elem_of_nil in Hp|].
  destruct (candidates source_keywords _) as [|s0 ss] eqn:Es;
    [intros Hp; by apply elem_of_nil in Hp|].
  destruct (candidates outcome_keywords _) as [|t0 ts] eqn:Et;
    [intros Hp; by apply elem_of_nil in Hp|].
  destruct (pool _ _ _ _) as [|p0 ps] eqn:Ep; [intros Hp; by apply elem_of_nil in Hp|].
  intros Hp. apply elem_of_py_slice in Hp.
  exact (proj1 (elem_of_sort_by_len _ _) Hp).
Qed.

(** C10: every id on every path that [path_discovery] returns is the id of
    a node declared in the graph's node list. *)
Theorem path_discovery_declared graph max_hops top_k p x :
  p ∈ path_discovery graph max_hops top_k -> x ∈ p -> x ∈ node_ids graph.
Proof.
  intros Hp Hx. apply path_discovery_pooled, elem_of_pool in Hp
    as (s & t & Hs & Ht & Hp).
  destruct (pair_paths_ok graph max_hops s t) as [Hok _].
  rewrite Forall_forall in Hok. destruct (Hok p Hp) as [(Hh & Hl & Hn & Hw) _].
  destruct (decide (x = t)) as [->|Hne].
  - by eapply candidates_declared.
  - assert (Hd : x ∈ dom (_build_adjacency graph)).
    { eapply walk_inner_in_dom; eauto. rewrite Hl. congruence. }
    rewrite dom_build_adjacency in Hd. by apply elem_of_list_to_set in Hd.
Qed.

(** A relationship names an undeclared id, which enters the adjacency list
    of a declared node but no returned path. *)
Definition dangling_graph : KnowledgeGraphResponse :=
  mkGraph [Node.mk "Metal ion" "Material"; Node.mk "Etch" "Process";
           Node.mk "Yield" "Metric"]
          [Relationship.mk "Metal ion" "Ghost" "USED_IN";
           Relationship.mk "Ghost" "Yield" "IMPACTS";
           Relationship.mk "Metal ion" "Etch" "USED_IN";
           Relationship.mk "Yield" "Etch" "MEASURES"].

Example dangling_in_adjacency :
  _build_adjacency dangling_graph !! "Metal ion" = Some ["Ghost"; "Etch"] /\
  _build_adjacency dangling_graph !! "Ghost" = None /\
  path_discovery_default dangling_graph = [["Metal ion"; "Etch"; "Yield"]].
Proof. vm_compute. done. Qed.

Lemma path_discovery_declared_witness :
  "Etch" ∈ node_ids dangling_graph.
Proof.
  apply (path_discovery_declared dangling_graph 4 5 ["Metal ion"; "Etch"; "Yield"]).
  - vm_compute. left.
  - right. left.
Defined.

(** *** The search finds a shortest path within the bound *)

Lemma last_index (P : nat -> Prop) (dec : forall j, Decision (P j)) (n i : nat) :
  (i < n)%nat -> P i ->
  exists i', (i <= i' < n)%nat /\ P i' /\ forall j, (i' < j)%nat -> (j < n)%nat -> ~ P j.
Proof.
  induction n as [|n IH]; intros Hi HP; [lia|].
  destruct (dec n) as [Hn|Hn].
  - exists n. split; [lia|]. split; [done|]. intros j ? ?. lia.
  - assert (i < n)%nat as Hlt.
    { destruct (decide (i = n)) as [->|?]; [done|lia]. }
    destruct (IH Hlt HP) as (i' & Hb & HP' & Hmax).
    exists i'. split; [lia|]. split; [done|].
    intros j Hj1 Hj2. destruct (decide (j = n)) as [->|?]; [done|].
    apply Hmax; lia.
Qed.

Lemma visited_at_dec (w : list string) (V : gset string) (j : nat) :
  Decision (exists x, w !! j = Some x /\ x ∈ V).
Proof.
  destruct (w !! j) as [x|].
  - destruct (decide (x ∈ V)) as [Hin|Hout].
    + left. by exists x.
    + right. by intros (y & [= ->] & Hy).
  - right. by intros (y & [=] & _).
Qed.

Lemma walk_lookup adj w i a b :
  walk adj w -> w !! i = Some a -> w !! S i = Some b -> edge adj a b.
Proof.
  revert i. induction w as [|x [|y w] IH]; intros i Hw Ha Hb.
  - done.
  - by destruct i.
  - destruct Hw as [Hxy Hw]. destruct i as [|i].
    + simpl in *. congruence.
    + by apply (IH i).
Qed.

Definition plen (e : string * list string) : nat := length e.2.

(** The queue holds paths of one length followed by paths one node
    longer. *)
Definition two_level (q : list (string * list string)) : Prop :=
  exists n A B, q = A ++ B /\
    Forall (fun e => plen e = n) A /\ Forall (fun e => plen e = S n) B.

Lemma two_level_head e q b :
  two_level (e :: q) -> b ∈ e :: q -> (plen e <= plen b <= S (plen e))%nat.
Proof.
  intros (n & A & B & E & HA & HB) Hb. rewrite E in Hb.
  rewrite Forall_forall in HA, HB.
  destruct A as [|a A]; simpl in E.
  - subst B. rewrite (HB e) by by left. rewrite (HB b) by done. lia.
  - injection E as -> ->. rewrite (HA a) by by left.
    change (a :: A ++ B) with ((a :: A) ++ B) in Hb.
    apply elem_of_app in Hb as [Hb|Hb]; [rewrite (HA b) by done|rewrite (HB b) by done]; lia.
Qed.

Lemma two_level_tail e q : two_level (e :: q) -> two_level q.
Proof.
  intros (n & A & B & E & HA & HB). destruct A as [|a A]; simpl in E.
  - subst B. apply Forall_cons in HB as [_ HB]. exists (S n), q, [].
    by rewrite app_nil_r.
  - injection E as -> ->. apply Forall_cons in HA as [_ HA]. by exists n, A, B.
Qed.

Lemma two_level_push e q new :
  two_level (e :: q) -> Forall (fun e' => plen e' = S (plen e)) new ->
  two_level (q ++ new).
Proof.
  intros (n & A & B & E & HA & HB) Hnew. destruct A as [|a A]; simpl in E.
  - subst B. apply Forall_cons in HB as [He HB]. rewrite He in Hnew.
    by exists (S n), q, new.
  - injection E as -> ->. apply Forall_cons in HA as [He HA]. rewrite He in Hnew.
    exists n, A, (B ++ new). split; [by rewrite app_assoc|].
    split; [done|]. by apply Forall_app.
Qed.

(** The inner loop appends one entry per neighbour not yet visited and
    marks every neighbour visited. *)
Lemma visit_fold_shape path nbs (v : gset string) q :
  exists new,
    (fold_left (visit path) nbs (v, q)).2 = q ++ new /\
    Forall (fun e => e.2 = path ++ [e.1]) new /\
    (forall x, x ∈ (fold_left (visit path) nbs (v, q)).1 <-> x ∈ v \/ x ∈ new.*1) /\
    (forall nb, nb ∈ nbs -> nb ∈ (fold_left (visit path) nbs (v, q)).1).
Proof.
  revert v q. induction nbs as [|nb nbs IH]; intros v q; cbn [fold_left].
  - exists []. rewrite app_nil_r. split; [done|]. split; [done|].
    split; [|intros nb H; by apply elem_of_nil in H].
    intros x. simpl. split; [by left|]. intros [?|H]; [done|by apply elem_of_nil in H].
  - destruct (decide (nb ∈ v)) as [Hin|Hin];
      [rewrite visit_seen by done|rewrite visit_new by done].
    + destruct (IH v q) as (new & E & Hf & Hv & Hn). exists new.
      split; [done|]. split; [done|]. split; [done|].
      intros nb' Hnb'. apply elem_of_cons in Hnb' as [->|Hnb']; [|by apply Hn].
      apply Hv. by left.
    + destruct (IH ({[nb]} ∪ v) (q ++ [(nb, path ++ [nb])])) as (new & E & Hf & Hv & Hn).
      exists ((nb, path ++ [nb]) :: new).
      split; [by rewrite E, <- app_assoc|]. split; [by constructor|].
      split.
      * intros x. rewrite Hv, fmap_cons, elem_of_cons, elem_of_union, elem_of_singleton.
        simpl. tauto.
      * intros nb' Hnb'. apply elem_of_cons in Hnb' as [->|Hnb']; [|by apply Hn].
        apply Hv. left. set_solver.
Qed.

Section Complete.
Variable adj : gmap string (list string).
Variable max_hops : Z.
Variable s t : string.

(** A walk from the origin to [t] of at most [max_hops] nodes. *)
Variable w : list string.
Hypothesis w_walk : walk adj w.
Hypothesis w_last : last w = Some t.
Hypothesis w_short : (Z.of_nat (length w) <= max_hops)%Z.

(** Either [t] has been reached, or the last node of [w] that is marked
    visited is still waiting in the queue, with a path no longer than the
    part of [w] that leads to it. *)
Definition frontier (q : list (string * list string)) (visited : gset string)
    (found : list (list string)) : Prop :=
  found <> [] \/
  exists i c path, w !! i = Some c /\ (c, path) ∈ q /\ (length path <= S i)%nat /\
    forall j x, (i < j)%nat -> w !! j = Some x -> x ∉ visited.

Definition short_found (found : list (list string)) : Prop :=
  Forall (fun p => (length p <= length w)%nat) found.

Lemma bfs_loop_complete fuel q visited found res :
  inv adj max_hops s t q visited found ->
  two_level q -> frontier q visited found -> short_found found ->
  bfs_loop fuel adj max_hops t q visited found = Some res ->
  res <> [] /\ short_found res.
Proof.
  revert q visited found.
  induction fuel as [|fuel IH]; intros q visited found Hinv Hlv Hfr Hsf; simpl.
  - destruct q as [|[curr path] q]; [|done]. intros [= <-]. split; [|done].
    destruct Hfr as [?|(i & c & pth & _ & Hc & _)]; [done|].
    by apply elem_of_nil in Hc.
  - destruct q as [|[curr path] q].
    { intros [= <-]. split; [|done].
      destruct Hfr as [?|(i & c & pth & _ & Hc & _)]; [done|].
      by apply elem_of_nil in Hc. }
    pose proof Hinv as [He Hnd Hf Ho].
    apply Forall_cons in He as [Hcur He].
    rewrite fmap_cons in Hnd. apply NoDup_cons in Hnd as [Hcq Hnd]. simpl in Hcq.
    assert (Hw_len : forall i c, w !! i = Some c -> (S i <= length w)%nat).
    { intros i c Hi. apply lookup_lt_Some in Hi. lia. }
    assert (Hsame : forall c pth, (c, pth) ∈ (curr, path) :: q -> c = curr ->
              pth = path).
    { intros c pth Hin ->. apply elem_of_cons in Hin as [[= ->]|Hin]; [done|].
      exfalso. apply Hcq. apply list_elem_of_fmap. by exists (curr, pth). }
    destruct (Z.gtb_spec (Z.of_nat (length path)) max_hops) as [Hlong|Hshort].
    { (* pruned: the entry is dropped *)
      apply IH; [| by eapply two_level_tail | | done].
      - split; [done|done|done|].
        destruct Ho as [->|(Hl & Ht & Htq)]; [by left|right].
        split; [done|]. split; [done|].
        intros Hx. apply Htq. rewrite fmap_cons. by right.
      - destruct Hfr as [?|(i & c & pth & Hi & Hc & Hlen & Hmax)]; [by left|right].
        exists i, c, pth. split; [done|]. split; [|done].
        apply elem_of_cons in Hc as [[= -> ->]|Hc]; [|done].
        apply Hw_len in Hi. lia. }
    destruct (String.eqb_spec curr t) as [->|Hne].
    { (* the outcome is reached *)
      assert (Hpl : (length path <= length w)%nat).
      { destruct Hfr as [Hnn|(i & c & pth & Hi & Hc & Hlen & Hmax)].
        - destruct Ho as [->|(_ & _ & Htq)]; [done|].
          exfalso. apply Htq. rewrite fmap_cons. by left.
        - pose proof (two_level_head _ _ _ Hlv Hc) as Hh. unfold plen in Hh.
          simpl in Hh. apply Hw_len in Hi. lia. }
      apply IH; [| by eapply two_level_tail | left; by destruct found
                 | apply Forall_app; by split; [|constructor]].
      split; [done|done| |].
      - apply Forall_app. split; [done|]. constructor; [|done].
        split; [apply Hcur|lia].
      - right. destruct Ho as [->|(Hl & Ht & Htq)].
        + split; [done|]. split; [by apply (entry_head_visited _ _ _ _ Hcur)|done].
        + exfalso. apply Htq. rewrite fmap_cons. by left. }
    (* the entry is expanded *)
    set (nbs := default [] (adj !! curr)).
    assert (Hnbs : forall nb, nb ∈ nbs <-> edge adj curr nb).
    { intros nb. unfold nbs, edge. destruct (adj !! curr) as [l|]; simpl.
      - split; [by exists l|]. by intros (l' & [= ->] & ?).
      - split; [intros H; by apply elem_of_nil in H|]. by intros (l' & [=] & _). }
    destruct (visit_fold_inv adj s t curr path nbs visited q)
      as (H1 & H2 & H3 & H4); [by intros nb; apply Hnbs|done|done|done|].
    destruct (visit_fold_shape path nbs visited q) as (new & Eq & Hnew & Hv & Hall).
    apply IH; [| | |done].
    + split; [done|done|done|].
      destruct Ho as [->|(Hl & Ht & Htq)]; [by left|right].
      split; [done|]. split; [by apply H3|].
      apply H4; [done|]. intros Hx. apply Htq. rewrite fmap_cons. by right.
    + rewrite Eq. eapply two_level_push; [exact Hlv|].
      eapply Forall_impl; [exact Hnew|]. intros e E. unfold plen. rewrite E.
      simpl. rewrite length_app. simpl. lia.
    + destruct Hfr as [?|(i & c & pth & Hi & Hc & Hlen & Hmax)]; [by left|right].
      set (V' := (fold_left (visit path) nbs (visited, q)).1) in *.
      assert (Hci : c ∈ V').
      { apply H3. eapply (entries_visited adj s visited ((curr, path) :: q));
          [by constructor|]. apply list_elem_of_fmap. by exists (c, pth). }
      destruct (last_index (fun j => exists x, w !! j = Some x /\ x ∈ V')
                  (visited_at_dec w V')
                  (length w) i) as (i' & Hb & (c' & Hi' & Hc') & Hlast).
      { apply lookup_lt_Some in Hi. lia. }
      { by exists c. }
      assert (Hmax' : forall j x, (i' < j)%nat -> w !! j = Some x -> x ∉ V').
      { intros j x Hj Hx Hin. apply (Hlast j Hj); [by apply lookup_lt_Some in Hx|].
        by exists x. }
      destruct (decide (i' = i)) as [->|Hgt].
      * (* no later node of [w] became visited *)
        assert (c' = c) as -> by congruence.
        exists i, c, pth. split; [done|]. split; [|done].
        apply elem_of_cons in Hc as [[= -> ->]|Hc]; [|rewrite Eq; apply elem_of_app; by left].
        exfalso.
        assert (exists b, w !! S i = Some b) as [b Hb'].
        { apply lookup_lt_is_Some. rewrite last_lookup in w_last.
          assert (i <> pred (length w)) by (intros ->; congruence).
          apply lookup_lt_Some in Hi. lia. }
        apply (Hmax' (S i) b); [lia|done|].
        apply Hall, Hnbs. by eapply walk_lookup.
      * (* the last visited node of [w] was enqueued by this expansion *)
        assert (Hnv : c' ∉ visited) by (apply (Hmax i'); [lia|done]).
        apply Hv in Hc' as [?|Hc']; [done|].
        apply list_elem_of_fmap in Hc' as ([c'' pth'] & -> & Hin). simpl in *.
        exists i', c'', pth'. split; [done|].
        split; [rewrite Eq; apply elem_of_app; by right|]. split; [|done].
        rewrite Forall_forall in Hnew. pose proof (Hnew _ Hin) as E. simpl in E.
        subst pth'. rewrite length_app. simpl.
        pose proof (two_level_head _ _ _ Hlv Hc) as Hh. unfold plen in Hh.
        simpl in Hh. lia.
Qed.

Hypothesis w_head : head w = Some s.

Lemma search_pair_complete fuel res :
  search_pair fuel adj max_hops s t = Some res ->
  exists p, res = [p] /\ (length p <= length w)%nat.
Proof.
  intros Hres.
  destruct (search_pair_inv adj max_hops s t fuel res Hres) as [_ Hone].
  assert (Hinv0 : inv adj max_hops s t [(s, [s])] {[s]} []).
  { split; [|simpl; apply NoDup_singleton|done|by left].
    constructor; [|done]. split; simpl.
    - split; [done|]. split; [done|]. split; [apply NoDup_singleton|done].
    - intros x Hx. apply list_elem_of_singleton in Hx. set_solver. }
  destruct (bfs_loop_complete fuel [(s, [s])] {[s]} [] res) as [Hne Hsf];
    [done| | |by constructor|done|].
  - exists 1%nat, [(s, [s])], []. by repeat constructor.
  - right. rewrite head_lookup in w_head.
    destruct (last_index (fun j => w !! j = Some s) (fun j => decide _)
                (length w) 0%nat) as (i & Hb & Hi & Hlast);
      [by apply lookup_lt_Some in w_head|done|].
    exists i, s, [s]. split; [done|]. split; [by left|]. split; [simpl; lia|].
    intros j x Hj Hx Hin. apply elem_of_singleton in Hin. subst x.
    apply (Hlast j Hj); [by apply lookup_lt_Some in Hx|done].
  - destruct res as [|p [|p' res]]; [done| |simpl in Hone; lia].
    exists p. split; [done|]. by apply Forall_cons in Hsf as [? _].
Qed.

End Complete.

(** *** The claims about the search *)

(** Two routes lead from the source to the outcome. *)
Definition diamond_graph : KnowledgeGraphResponse :=
  mkGraph [Node.mk "Metal ion" "Material"; Node.mk "Etch" "Process";
           Node.mk "Rinse" "Process"; Node.mk "Yield" "Metric"]
          [Relationship.mk "Metal ion" "Etch" "USED_IN";
           Relationship.mk "Etch" "Yield" "IMPACTS";
           Relationship.mk "Metal ion" "Rinse" "USED_IN";
           Relationship.mk "Rinse" "Yield" "IMPACTS"].

Lemma diamond_second_route :
  simple_path (_build_adjacency diamond_graph) "Metal ion" "Yield"
              ["Metal ion"; "Rinse"; "Yield"].
Proof.
  split; [done|]. split; [done|]. split.
  - apply (bool_decide_unpack _). by vm_compute.
  - simpl. split; [|split; [|done]].
    + exists ["Etch"; "Rinse"]. split; [by vm_compute|]. right. left.
    + exists ["Metal ion"; "Yield"]. split; [by vm_compute|]. right. left.
Qed.

(** C2 as the claim states it fails: in [diamond_graph] the source
    candidate [Metal ion] and the outcome candidate [Yield] are joined by two
    simple paths of two edges, within [max_hops = 4]; the search marks
    [Yield] visited when it is first reached, so the pair contributes one
    path only and the route over [Rinse] is not in the pool. *)
Lemma search_all_paths_counterexample :
  let p := ["Metal ion"; "Rinse"; "Yield"] in
  candidates source_keywords (node_lower diamond_graph) = ["Metal ion"] /\
  candidates outcome_keywords (node_lower diamond_graph) = ["Yield"] /\
  "Metal ion" <> "Yield" /\
  simple_path (_build_adjacency diamond_graph) "Metal ion" "Yield" p /\
  (Z.of_nat (length p) - 1 <= 4)%Z /\
  pair_paths diamond_graph 4 "Metal ion" "Yield" = [["Metal ion"; "Etch"; "Yield"]] /\
  (p ∉ pool diamond_graph 4 ["Metal ion"] ["Yield"]) /\
  (p ∉ path_discovery diamond_graph 4 5).
Proof.
  cbv zeta. split; [by vm_compute|]. split; [by vm_compute|]. split; [done|].
  split; [apply diamond_second_route|]. split; [simpl; lia|].
  split; [by vm_compute|].
  assert (E1 : pool diamond_graph 4 ["Metal ion"] ["Yield"]
               = [["Metal ion"; "Etch"; "Yield"]]) by by vm_compute.
  assert (E2 : path_discovery diamond_graph 4 5
               = [["Metal ion"; "Etch"; "Yield"]]) by by vm_compute.
  rewrite E1, E2. split; intros H%list_elem_of_singleton; discriminate.
Qed.

(** The bound is on the nodes of a path: a route of exactly [max_hops]
    edges is not returned. *)
Example four_edges_not_found :
  let g := mkGraph [Node.mk "Metal ion" "Material"; Node.mk "A" "Process";
                    Node.mk "B" "Process"; Node.mk "C" "Process";
                    Node.mk "Yield" "Metric"]
                   [Relationship.mk "Metal ion" "A" "R"; Relationship.mk "A" "B" "R";
                    Relationship.mk "B" "C" "R"; Relationship.mk "C" "Yield" "R"] in
  path_discovery g 4 5 = [] /\
  path_discovery g 5 5 = [["Metal ion"; "A"; "B"; "C"; "Yield"]].
Proof. by vm_compute. Qed.

(** C2 (amended): for every graph and every pair of distinct nodes the
    bounded breadth-first search contributes at most one path to the pool.
    A contributed path is a simple path between the two nodes in the
    adjacency view with at most [max_hops] edges.  Whenever a simple path of
    fewer than [max_hops] edges joins the pair, the search contributes
    exactly one path, and that path is no longer than the given one.  The
    pool holds the contributions of all pairs. *)
Theorem pair_paths_spec (graph : KnowledgeGraphResponse) (max_hops : Z) (s t : string) :
  (length (pair_paths graph max_hops s t) <= 1)%nat /\
  (forall p, p ∈ pair_paths graph max_hops s t ->
     s <> t /\ simple_path (_build_adjacency graph) s t p /\
     (Z.of_nat (length p) - 1 <= max_hops)%Z) /\
  (forall w, s <> t -> simple_path (_build_adjacency graph) s t w ->
     (Z.of_nat (length w) - 1 < max_hops)%Z ->
     exists p, pair_paths graph max_hops s t = [p] /\ (length p <= length w)%nat) /\
  (forall sources targets p,
     p ∈ pool graph max_hops sources targets <->
     exists s' t', s' ∈ sources /\ t' ∈ targets /\ p ∈ pair_paths graph max_hops s' t').
Proof.
  destruct (pair_paths_ok graph max_hops s t) as [Hok Hone].
  split; [done|]. split; [|split].
  - intros p Hp. split; [by eapply pair_paths_distinct|].
    rewrite Forall_forall in Hok. destruct (Hok p Hp) as [Hsp Hlen].
    split; [done|lia].
  - intros w Hne (Hh & Hl & _ & Hw) Hlen.
    unfold pair_paths. destruct (String.eqb_spec s t) as [?|_]; [done|].
    destruct (search_pair_terminates graph max_hops s t) as [res Hres].
    rewrite Hres. simpl.
    eapply search_pair_complete; eauto. lia.
  - intros sources targets p. apply elem_of_pool.
Qed.

Lemma pair_paths_spec_witness :
  exists p, pair_paths diamond_graph 4 "Metal ion" "Yield" = [p] /\ (length p <= 3)%nat.
Proof.
  apply (pair_paths_spec diamond_graph 4 "Metal ion" "Yield")
    with (w := ["Metal ion"; "Rinse"; "Yield"]).
  - done.
  - apply diamond_second_route.
  - simpl. lia.
Defined.

End PathFinder.

(** ** More string operations *)

Module PyStrOps.
Import PyStr.

(** [s.lstrip()], [s.rstrip()], [s.strip()], generalised over the set of
    characters to remove ([str.strip(chars)]). *)
Fixpoint lstrip_with (p : ascii -> bool) (s : string) : string :=
  match s with
  | EmptyString => EmptyString
  | String c s' => if p c then lstrip_with p s' else s
  end.

Fixpoint rstrip_with (p : ascii -> bool) (s : string) : string :=
  match s with
  | EmptyString => EmptyString
  | String c s' =>
      match rstrip_with p s' with
      | EmptyString => if p c then EmptyString else String c EmptyString
      | r => String c r
      end
  end.

Definition strip_with (p : ascii -> bool) (s : string) : string :=
  rstrip_with p (lstrip_with p s).

Definition strip (s : string) : string := strip_with is_space s.

Definition is_empty (s : string) : bool :=
  match s with EmptyString => true | _ => false end.

(** [s.replace(old, new)] for a non-empty [old]: occurrences are replaced
    from the left and do not overlap.  [skip] counts the characters of an
    occurrence that are still to be dropped. *)
Fixpoint replace_from (old new : string) (skip : nat) (s : string) : string :=
  match s with
  | EmptyString => EmptyString
  | String c s' =>
      match skip with
      | S k => replace_from old new k s'
      | O =>
          if startswith old s then new ++ replace_from old new (String.length old - 1) s'
          else String c (replace_from old new 0 s')
      end
  end.

Definition replace (old new s : string) : string := replace_from old new 0 s.

(** [s.isdigit()] *)
Fixpoint all_digits (s : string) : bool :=
  match s with
  | EmptyString => true
  | String c s' => is_digit c && all_digits s'
  end.

Definition isdigit (s : string) : bool := negb (is_empty s) && all_digits s.

(** The characters that string literals of this file cannot hold. *)
Definition dquote : ascii := ascii_of_nat 34.
Definition newline : string := String (ascii_of_nat 10) EmptyString.

Example strip_example : strip "  find  devices  " = "find  devices".
Proof. reflexivity. Qed.
Example replace_example :
  replace "cypher" EmptyString "cypher MATCH cyphercypher(n)" = " MATCH (n)".
Proof. reflexivity. Qed.

End PyStrOps.

(** ** Regular expressions as [re.search] matches them *)

Module Re.
Import PyStr.

(** The constructs the patterns of [utils.py] use.  Repetition is only
    applied to character classes there. *)
Inductive t : Type :=
| Lit (s : string)
| Cls (c : ascii -> bool)
| Star (c : ascii -> bool)
| Seq (a b : t)
| Alt (a b : t)
| Opt (a : t)
| Group (n : nat) (a : t).

Definition Plus (c : ascii -> bool) : t := Seq (Cls c) (Star c).

(** [r1 r2 ... rn] and [r1|r2|...|rn] *)
Fixpoint seq (rs : list t) : t :=
  match rs with
  | [] => Lit EmptyString
  | [r] => r
  | r :: rs' => Seq r (seq rs')
  end.

Fixpoint alt (rs : list t) : t :=
  match rs with
  | [] => Cls (fun _ => false)
  | [r] => r
  | r :: rs' => Alt r (alt rs')
  end.

(** Captured groups, the most recent binding first. *)
Definition captures : Type := list (nat * string).

Fixpoint drop_chars (n : nat) (s : string) : string :=
  match n, s with
  | S n', String _ s' => drop_chars n' s'
  | _, _ => s
  end.

Fixpoint take_chars (n : nat) (s : string) : string :=
  match n, s with
  | S n', String c s' => String c (take_chars n' s')
  | _, _ => EmptyString
  end.

(** Greedy [c*] with backtracking: the longest run first. *)
Fixpoint star {R : Type} (c : ascii -> bool) (s : string) (k : string -> option R)
  : option R :=
  match s with
  | String x s' =>
      if c x then
        match star c s' k with
        | Some r => Some r
        | None => k s
        end
      else k s
  | EmptyString => k s
  end.

(** Backtracking match of [r] at the start of [s]; [k] continues on the
    rest of the text. *)
Fixpoint exec (r : t) (s : string) (cs : captures)
    (k : string -> captures -> option captures) : option captures :=
  match r with
  | Lit l => if startswith l s then k (drop_chars (String.length l) s) cs else None
  | Cls c =>
      match s with
      | String x s' => if c x then k s' cs else None
      | EmptyString => None
      end
  | Star c => star c s (fun s' => k s' cs)
  | Seq a b => exec a s cs (fun s' cs' => exec b s' cs' k)
  | Alt a b =>
      match exec a s cs k with
      | Some m => Some m
      | None => exec b s cs k
      end
  | Opt a =>
      match exec a s cs k with
      | Some m => Some m
      | None => k s cs
      end
  | Group n a =>
      exec a s cs (fun s' cs' =>
        k s' ((n, take_chars (String.length s - String.length s') s) :: cs'))
  end.

Definition match_at (r : t) (s : string) : option captures :=
  exec r s [] (fun _ cs => Some cs).

(** [re.search(r, s)]: the match at the leftmost position that has one. *)
Fixpoint search (r : t) (s : string) : option captures :=
  match match_at r s with
  | Some m => Some m
  | None =>
      match s with
      | String _ s' => search r s'
      | EmptyString => None
      end
  end.

(** [m.group(n)] *)
Fixpoint group (n : nat) (m : captures) : string :=
  match m with
  | [] => EmptyString
  | (n', s) :: m' => if Nat.eqb n n' then s else group n m'
  end.

(** The classes [\s], [[A-Za-z0-9_]], [['\x22]], [[^'\x22]] and
    [[A-Za-z0-9_'-]], where [\x22] is the double quote. *)
Definition space : ascii -> bool := is_space.
Definition word (c : ascii) : bool :=
  is_upper c || is_lower c || is_digit c || Ascii.eqb c "_".
Definition quote (c : ascii) : bool := Ascii.eqb c "'" || Ascii.eqb c PyStrOps.dquote.
Definition not_quote (c : ascii) : bool := negb (quote c).
Definition word_quote_dash (c : ascii) : bool :=
  word c || Ascii.eqb c "'" || Ascii.eqb c "-".

End Re.

(** ** RuleBasedCypherGenerator: [utils.py] *)

Module Cypher.
Import PyStr PyStrOps Re.

(** The patterns are quoted with [\x22] for the double quote. *)

(** [s.replace] of every single quote by a backslash and a single quote. *)
Definition _escape_cypher_string (s : string) : string := replace "'" "\'" s.

(** [(find|show|get|list)\s+(?:all\s+)?(?:nodes\s+)?(?:of\s+type\s+|label\s+)?([A-Za-z0-9_]+)] *)
Definition rule1 : Re.t :=
  seq [Group 1 (alt [Lit "find"; Lit "show"; Lit "get"; Lit "list"]);
       Plus space;
       Opt (seq [Lit "all"; Plus space]);
       Opt (seq [Lit "nodes"; Plus space]);
       Opt (alt [seq [Lit "of"; Plus space; Lit "type"; Plus space];
                 seq [Lit "label"; Plus space]]);
       Group 2 (Plus word)].

(** [(?:find|show|get)\s+(?:nodes\s+)?(?:where\s+)?([A-Za-z0-9_]+)\s*(?:=|is|:)\s*['\x22]?([^'\x22]+)['\x22]?] *)
Definition rule2 : Re.t :=
  seq [alt [Lit "find"; Lit "show"; Lit "get"];
       Plus space;
       Opt (seq [Lit "nodes"; Plus space]);
       Opt (seq [Lit "where"; Plus space]);
       Group 1 (Plus word);
       Star space;
       alt [Lit "="; Lit "is"; Lit ":"];
       Star space;
       Opt (Cls quote);
       Group 2 (Plus not_quote);
       Opt (Cls quote)].

(** [(?:neighbors|connected to|connections of|show related to)\s+(?:node\s+)?['\x22]?([^'\x22]+)['\x22]?] *)
Definition rule3 : Re.t :=
  seq [alt [Lit "neighbors"; Lit "connected to"; Lit "connections of";
            Lit "show related to"];
       Plus space;
       Opt (seq [Lit "node"; Plus space]);
       Opt (Cls quote);
       Group 1 (Plus not_quote);
       Opt (Cls quote)].

(** [(?:path|relationship)s?\s+between\s+['\x22]?([^'\x22]+)['\x22]?\s+(?:and|&)\s+['\x22]?([^'\x22]+)['\x22]?] *)
Definition rule4 : Re.t :=
  seq [alt [Lit "path"; Lit "relationship"];
       Opt (Lit "s");
       Plus space;
       Lit "between";
       Plus space;
       Opt (Cls quote);
       Group 1 (Plus not_quote);
       Opt (Cls quote);
       Plus space;
       alt [Lit "and"; Lit "&"];
       Plus space;
       Opt (Cls quote);
       Group 2 (Plus not_quote);
       Opt (Cls quote)].

(** [(?:count|how many)\s+(?:nodes\s+)?([A-Za-z0-9_]+)] *)
Definition rule5 : Re.t :=
  seq [alt [Lit "count"; Lit "how many"];
       Plus space;
       Opt (seq [Lit "nodes"; Plus space]);
       Group 1 (Plus word)].

(** [([A-Za-z0-9_]+)\s+(?:is|=|:)\s*([A-Za-z0-9_'-]+)] *)
Definition rule6 : Re.t :=
  seq [Group 1 (Plus word);
       Plus space;
       alt [Lit "is"; Lit "="; Lit ":"];
       Star space;
       Group 2 (Plus word_quote_dash)].

Definition empty_placeholder : string := "-- empty input: no cypher generated".

Definition safe_hint : string :=
  "-- Couldn't map input automatically. Example queries:" ++ newline ++
  "-- 1) find nodes of type Device" ++ newline ++
  "-- 2) show neighbors of 'Pump-123'" ++ newline ++
  "-- 3) path between 'Alice' and 'Bob'" ++ newline ++
  "MATCH (n) RETURN n LIMIT 50".

Definition label_scan (label : string) : string :=
  "MATCH (n:`" ++ label ++ "`) RETURN n LIMIT 200".

Definition count_by_label (label : string) : string :=
  "MATCH (n:`" ++ label ++ "`) RETURN count(n) as count".

Definition property_scan (prop val : string) : string :=
  if isdigit val then
    "MATCH (n) WHERE coalesce(n." ++ prop ++ ", '') = " ++ val
    ++ " OR toString(n." ++ prop ++ ") = '" ++ val ++ "' RETURN n LIMIT 200"
  else
    "MATCH (n) WHERE toLower(coalesce(n." ++ prop ++ ", '')) = '" ++ lower val
    ++ "' RETURN n LIMIT 200".

Definition neighbors_query (name : string) : string :=
  "MATCH (n) WHERE toLower(coalesce(n.name,'')) = '" ++ lower name
  ++ "' OR toLower(coalesce(n.id,'')) = '" ++ lower name ++ "' "
  ++ "MATCH (n)-[r]-(m) RETURN n, r, m LIMIT 300".

Definition path_query (a b : string) : string :=
  "MATCH (a), (b) WHERE (toLower(coalesce(a.name,'')) = '" ++ lower a
  ++ "' OR toLower(coalesce(a.id,'')) = '" ++ lower a ++ "') "
  ++ "AND (toLower(coalesce(b.name,'')) = '" ++ lower b
  ++ "' OR toLower(coalesce(b.id,'')) = '" ++ lower b ++ "') "
  ++ "MATCH p = shortestPath((a)-[*..6]-(b)) RETURN p LIMIT 1".

Definition generic_scan (prop val : string) : string :=
  if isdigit val then
    "MATCH (n) WHERE n." ++ prop ++ " = " ++ val ++ " RETURN n LIMIT 200"
  else
    "MATCH (n) WHERE toLower(coalesce(n." ++ prop ++ ", '')) = '" ++ lower val
    ++ "' RETURN n LIMIT 200".

(** The rules in the order of the source; the first that matches wins. *)
Definition text_to_cypher_simple (nl : string) : string :=
  if is_empty nl || is_empty (strip nl) then empty_placeholder
  else
    let text := lower (strip nl) in
    match search rule1 text with
    | Some m => label_scan (group 2 m)
    | None =>
    match search rule2 text with
    | Some m => property_scan (group 1 m) (_escape_cypher_string (group 2 m))
    | None =>
    match search rule3 text with
    | Some m => neighbors_query (_escape_cypher_string (group 1 m))
    | None =>
    match search rule4 text with
    | Some m =>
        path_query (_escape_cypher_string (group 1 m)) (_escape_cypher_string (group 2 m))
    | None =>
    match search rule5 text with
    | Some m => count_by_label (group 1 m)
    | None =>
    match search rule6 text with
    | Some m => generic_scan (group 1 m) (_escape_cypher_string (group 2 m))
    | None => safe_hint
    end end end end end end.

Example find_devices :
  text_to_cypher_simple "find devices" = "MATCH (n:`devices`) RETURN n LIMIT 200".
Proof. vm_compute. reflexivity. Qed.

Example find_nodes_of_type :
  text_to_cypher_simple "Find all nodes of type Device"
  = "MATCH (n:`device`) RETURN n LIMIT 200".
Proof. vm_compute. reflexivity. Qed.

Example count_materials :
  text_to_cypher_simple "count materials" = "MATCH (n:`materials`) RETURN count(n) as count".
Proof. vm_compute. reflexivity. Qed.

Example empty_input : text_to_cypher_simple EmptyString = empty_placeholder.
Proof. reflexivity. Qed.

Example neighbors_of_pump :
  text_to_cypher_simple "neighbors of 'Pump-123'"
  = "MATCH (n) WHERE toLower(coalesce(n.name,'')) = 'of ' OR toLower(coalesce(n.id,'')) = 'of ' MATCH (n)-[r]-(m) RETURN n, r, m LIMIT 300".
Proof. vm_compute. reflexivity. Qed.

Example path_between :
  text_to_cypher_simple "path between 'Alice' and 'Bob'"
  = "MATCH (a), (b) WHERE (toLower(coalesce(a.name,'')) = 'alice' OR toLower(coalesce(a.id,'')) = 'alice') AND (toLower(coalesce(b.name,'')) = 'bob' OR toLower(coalesce(b.id,'')) = 'bob') MATCH p = shortestPath((a)-[*..6]-(b)) RETURN p LIMIT 1".
Proof. vm_compute. reflexivity. Qed.

Example status_is_active :
  text_to_cypher_simple "status is active"
  = "MATCH (n) WHERE toLower(coalesce(n.status, '')) = 'active' RETURN n LIMIT 200".
Proof. vm_compute. reflexivity. Qed.

Example no_rule_matches : text_to_cypher_simple "hello" = safe_hint.
Proof. vm_compute. reflexivity. Qed.

(** *** Shape of the generated text *)

(** The generator is a total function, and what it returns is never the
    empty string. *)
Lemma text_to_cypher_simple_nonempty (nl : string) :
  text_to_cypher_simple nl <> EmptyString.
Proof.
  unfold text_to_cypher_simple.
  destruct (is_empty nl || is_empty (strip nl)); [done|].
  repeat match goal with
         | |- context [search ?r ?t] => destruct (search r t)
         end;
    unfold label_scan, property_scan, neighbors_query, path_query, count_by_label,
      generic_scan;
    try match goal with |- context [isdigit ?v] => destruct (isdigit v) end;
    done.
Qed.

(** Where the scan of a query text stands: in code, inside a quoted
    literal (possibly right after a backslash), inside a back-quoted name, in
    a comment that runs to the end of the line, or in a block comment (at
    the star of its opening, inside it, or at the slash of its end). *)
Inductive lex_state : Type :=
| Code
| Quoted (q : ascii) (escaped : bool)
| Backquoted
| Comment
| BlockOpen
| Block
| BlockClose.

Definition is_newline (c : ascii) : bool := Ascii.eqb c (ascii_of_nat 10).

Definition lex_step (st : lex_state) (c : ascii) (rest : string) : lex_state :=
  match st with
  | Code =>
      if quote c then Quoted c false
      else if Ascii.eqb c "`" then Backquoted
      else if Ascii.eqb c "/" && startswith "/" rest then Comment
      else if Ascii.eqb c "/" && startswith "*" rest then BlockOpen
      else Code
  | Quoted q true => Quoted q false
  | Quoted q false =>
      if Ascii.eqb c "\" then Quoted q true
      else if Ascii.eqb c q then Code
      else st
  | Backquoted => if Ascii.eqb c "`" then Code else Backquoted
  | Comment => if is_newline c then Code else Comment
  | BlockOpen => Block
  | Block => if Ascii.eqb c "*" && startswith "/" rest then BlockClose else Block
  | BlockClose => Code
  end.

Fixpoint lex_from (st : lex_state) (s : string) : lex_state :=
  match s with
  | EmptyString => st
  | String c rest => lex_from (lex_step st c rest) rest
  end.

(** Every quoted literal, back-quoted name and block comment of the text
    is closed.  The backslash escapes the next character inside a literal,
    which is the convention [_escape_cypher_string] relies on.  The comments
    of Cypher start with two slashes or with a slash and a star; two dashes
    start none, so the dashes of the placeholder texts of the generator are
    read as code. *)
Definition literals_closed (s : string) : bool :=
  match lex_from Code s with
  | Code | Comment => true
  | Quoted _ _ | Backquoted | BlockOpen | Block | BlockClose => false
  end.

Example closed_label_scan : literals_closed (text_to_cypher_simple "find devices") = true.
Proof. vm_compute. reflexivity. Qed.

(** The hint returned when no rule matches holds seven single quotes:
    the last one opens a literal that is never closed. *)
Example open_safe_hint : literals_closed safe_hint = false.
Proof. vm_compute. reflexivity. Qed.

(** An embedded single quote is escaped and the literal stays closed. *)
Example closed_escaped_quote :
  text_to_cypher_simple "status is o'brien"
  = "MATCH (n) WHERE toLower(coalesce(n.status, '')) = 'o\'brien' RETURN n LIMIT 200" /\
  literals_closed (text_to_cypher_simple "status is o'brien") = true.
Proof. vm_compute. done. Qed.

(** C9: the examples of the claim hold, but not every returned text is a
    well-formed query.  A backslash at the end of an extracted literal is
    interpolated as it is and escapes the closing quote: the text returned
    for [neighbors of pump\] leaves a string literal open. *)
Theorem backslash_breaks_literal :
  text_to_cypher_simple "find devices" = "MATCH (n:`devices`) RETURN n LIMIT 200" /\
  text_to_cypher_simple "count materials" = "MATCH (n:`materials`) RETURN count(n) as count" /\
  text_to_cypher_simple EmptyString = "-- empty input: no cypher generated" /\
  text_to_cypher_simple "neighbors of pump\"
  = "MATCH (n) WHERE toLower(coalesce(n.name,'')) = 'of pump\' OR toLower(coalesce(n.id,'')) = 'of pump\' MATCH (n)-[r]-(m) RETURN n, r, m LIMIT 300" /\
  literals_closed (text_to_cypher_simple "neighbors of pump\") = false.
Proof. vm_compute. done. Qed.

End Cypher.

(** ** RetrievalOrchestrator: [chat_agent.py], [database.py], [hybrid_agent.py] *)

Module Orchestrator.
Import PyStr PyStrOps.

Section Orchestrator.

(** A row as the graph database returns it. *)
Context {Row : Type}.

(** The value bound to [results]: a list of rows, the [dict] with the one
    key [error], or [None]. *)
Inductive QueryData : Type :=
| Rows (rows : list Row)
| ErrorDict (msg : string)
| NoData.

(** Truth value of [results] in [if not data]. *)
Definition truthy (d : QueryData) : bool :=
  match d with
  | Rows [] => false
  | Rows (_ :: _) => true
  | ErrorDict _ => true
  | NoData => false
  end.

Record Citation : Type := mkCitation {
  id : string;
  type : string;
  content : string;
  source_file : option string;
  metadata : option QueryData
}.

(** A hit of the vector index: the text, and the file name when the
    metadata has one. *)
Record Doc : Type := mkDoc { text : string; filename : option string }.

(** The collaborators: vector index, language model, graph database, JSON
    serialiser, web search tool, and what the process environment holds. *)
Record env : Type := mkEnv {
  vector_search : string -> nat -> py_result (list Doc);
  groq_api_key : bool;
  llm_translate : string -> py_result string;
  neo4j_driver : bool;
  neo4j_env : bool;
  neo4j_run : string -> py_result (list Row);
  json_dumps : QueryData -> py_result string;
  web_search : string -> py_result string;
  synthesize : string -> string -> string -> string -> py_result string
}.

(** *** Coroutines over the shared [citations_list]

    A coroutine returns, raises, appends to the shared list, or awaits a
    pending future, which gives control back to the event loop. *)
Inductive coro (A : Type) : Type :=
| Ret (a : A)
| Throw (e : PyExc)
| Await (k : coro A)
| Append (c : Citation) (k : coro A).
Arguments Ret {A} a.
Arguments Throw {A} e.
Arguments Await {A} k.
Arguments Append {A} c k.

Fixpoint bind {A B : Type} (c : coro A) (f : A -> coro B) : coro B :=
  match c with
  | Ret a => f a
  | Throw e => Throw e
  | Await k => Await (bind k f)
  | Append x k => Append x (bind k f)
  end.

(** [try: c except Exception as e: h e] *)
Fixpoint catch {A : Type} (c : coro A) (h : PyExc -> coro A) : coro A :=
  match c with
  | Ret a => Ret a
  | Throw e => h e
  | Await k => Await (catch k h)
  | Append x k => Append x (catch k h)
  end.

(** [await] of an operation that suspends and then gives [r]. *)
Definition await {A : Type} (r : py_result A) : coro A :=
  Await (match r with Ok a => Ret a | Raise e => Throw e end).

(** A call that does not suspend. *)
Definition call {A : Type} (r : py_result A) : coro A :=
  match r with Ok a => Ret a | Raise e => Throw e end.

(** *** [database.py] *)

Definition run_query_if_neo4j (E : env) (cypher : string) : py_result QueryData :=
  if negb (neo4j_driver E) then Ok (ErrorDict "Neo4j driver not available.")
  else
    match neo4j_run E cypher with
    | Ok rows => Ok (Rows rows)
    | Raise e => Ok (ErrorDict (exc_str e))
    end.

(** *** [chat_agent.py] *)

Record Response : Type := mkResponse {
  cypher : string;
  results : QueryData;
  note : string
}.

(** [raw_cypher.strip().strip('`').replace('cypher', '').strip()] *)
Definition clean_llm_cypher (raw : string) : string :=
  strip (replace "cypher" EmptyString
           (strip_with (fun c => Ascii.eqb c "`") (strip raw))).

(** [llm_translate] stands for everything inside the [try] of step 1: building
    the chain and awaiting [rag_chain.ainvoke]; whatever it raises is caught
    there and the rule-based generator takes over. *)
Definition text_to_cypher_and_run (E : env) (natural_text : string)
    (run_query_fn : option (string -> py_result QueryData)) (use_llm : bool)
  : coro Response :=
  bind
    (if use_llm && groq_api_key E then
       catch
         (bind (await (llm_translate E natural_text)) (fun raw_cypher =>
            Ret (Some (clean_llm_cypher raw_cypher), "generated_via_llm")))
         (fun e =>
            Ret (Some (Cypher.text_to_cypher_simple natural_text),
                 ("llm_generation_failed: " ++ exc_str e)%string))
     else Ret (None, EmptyString))
    (fun '(generated, note) =>
       let '(cypher, note) :=
         if match generated with Some c => is_empty c | None => true end then
           (Cypher.text_to_cypher_simple natural_text,
            if is_empty note then "generated_via_rule_based" else note)
         else (default EmptyString generated, note) in
       match run_query_fn with
       | Some run =>
           match run cypher with
           | Ok results => Ret (mkResponse cypher results note)
           | Raise e =>
               Ret (mkResponse cypher (ErrorDict (exc_str e))
                      (note ++ " | run_query_fn_failed")%string)
           end
       | None =>
           if neo4j_env E then
             match neo4j_run E cypher with
             | Ok rows =>
                 Ret (mkResponse cypher (Rows rows) (note ++ " | executed_on_neo4j")%string)
             | Raise e =>
                 Ret (mkResponse cypher
                        (ErrorDict ("neo4j_exec_failed: " ++ exc_str e)%string)
                        (note ++ " | neo4j_exec_failed")%string)
             end
           else Ret (mkResponse cypher NoData note)
       end).

(** [web_search] is [search_tool.run], run in the executor and awaited inside
    the [try]. *)
Definition search_web_only (E : env) (query : string) : coro string :=
  bind
    (catch (await (web_search E ("Entegris products and news: " ++ query)%string))
           (fun _ => Ret EmptyString))
    (fun retrieved_context =>
       if is_empty (strip retrieved_context) then Ret EmptyString
       else Ret retrieved_context).

(** *** [hybrid_agent.py]: the three tasks *)

Definition string_of_nat (n : nat) : string := NilZero.string_of_uint (Nat.to_uint n).

Definition doc_ref (i : nat) : string := ("Doc-" ++ string_of_nat (i + 1))%string.

Definition doc_citation (i : nat) (doc : Doc) : Citation :=
  mkCitation (doc_ref i) "text" (text doc) (Some (default "Unknown" (filename doc))) None.

(** The body of [for i, doc in enumerate(raw_docs)], from index [i] on. *)
Fixpoint vector_loop (raw_docs : list Doc) (i : nat) (context_str : string) : coro string :=
  match raw_docs with
  | [] => Ret context_str
  | doc :: rest =>
      Append (doc_citation i doc)
        (vector_loop rest (S i)
           (context_str ++ "[" ++ doc_ref i ++ "] (File: "
            ++ default "Unknown" (filename doc) ++ "): " ++ text doc
            ++ newline ++ newline)%string)
  end.

Definition task_vector (E : env) (query : string) : coro string :=
  bind (call (vector_search E query 3)) (fun raw_docs =>
    match raw_docs with
    | [] => Ret "No relevant internal documents found."
    | _ => vector_loop raw_docs 0 EmptyString
    end).

Definition graph_citation (cypher : string) (data : QueryData) : Citation :=
  mkCitation "Graph-1" "graph" ("Cypher: " ++ cypher)%string None (Some data).

Definition task_graph (E : env) (query : string) : coro string :=
  catch
    (bind (text_to_cypher_and_run E query (Some (run_query_if_neo4j E)) true)
       (fun response =>
          let data := results response in
          if negb (truthy data) then Ret "No graph data found."
          else
            bind (call (json_dumps E data)) (fun json_str =>
              Append (graph_citation (cypher response) data)
                (Ret ("[Graph-1] Cypher: " ++ cypher response ++ newline
                      ++ "Results: " ++ json_str)%string))))
    (fun e => Ret ("Graph Error: " ++ exc_str e)%string).

Definition web_citation (web_text : string) : Citation :=
  mkCitation "Web-1" "web" web_text (Some "DuckDuckGo") None.

Definition task_web (E : env) (query : string) : coro string :=
  bind (search_web_only E query) (fun web_text =>
    if is_empty web_text then Ret "No web results found."
    else Append (web_citation web_text)
           (Ret ("[Web-1] Live Search Results: " ++ web_text)%string)).

(** *** The event loop under [asyncio.gather] *)

(** A task is waiting on a future, has returned, or has raised. *)
Inductive task (A : Type) : Type :=
| Pending (k : coro A)
| Done (a : A)
| Crashed (e : PyExc).
Arguments Pending {A} k.
Arguments Done {A} a.
Arguments Crashed {A} e.

(** One turn of a task on the loop: it runs until it awaits or ends. *)
Fixpoint run_slice {A : Type} (c : coro A) (cits : list Citation)
  : task A * list Citation :=
  match c with
  | Ret a => (Done a, cits)
  | Throw e => (Crashed e, cits)
  | Await k => (Pending k, cits)
  | Append x k => run_slice k (cits ++ [x])
  end.

(** A task run to its end, one turn after the other. *)
Fixpoint run_all {A : Type} (c : coro A) (cits : list Citation)
  : py_result A * list Citation :=
  match c with
  | Ret a => (Ok a, cits)
  | Throw e => (Raise e, cits)
  | Await k => run_all k cits
  | Append x k => run_all k (cits ++ [x])
  end.

(** What a task appends to the list over its whole run. *)
Definition appended {A : Type} (c : coro A) : list Citation := (run_all c []).2.

Inductive task_id : Type := TaskVector | TaskGraph | TaskWeb.

Record loop_state : Type := mkLoop {
  vector_task : task string;
  graph_task : task string;
  web_task : task string;
  citations_list : list Citation;
  first_error : option PyExc
}.

Definition crash_of {A : Type} (t : task A) : option PyExc :=
  match t with Crashed e => Some e | _ => None end.

Definition note_error (old : option PyExc) {A : Type} (t : task A) : option PyExc :=
  match old with Some e => Some e | None => crash_of t end.

Definition resume {A : Type} (t : task A) (cits : list Citation)
  : task A * list Citation :=
  match t with
  | Pending k => run_slice k cits
  | _ => (t, cits)
  end.

(** The future a task waits on completes and the loop resumes the task. *)
Definition wake (st : loop_state) (i : task_id) : loop_state :=
  match i with
  | TaskVector =>
      let r := resume (vector_task st) (citations_list st) in
      mkLoop r.1 (graph_task st) (web_task st) r.2 (note_error (first_error st) r.1)
  | TaskGraph =>
      let r := resume (graph_task st) (citations_list st) in
      mkLoop (vector_task st) r.1 (web_task st) r.2 (note_error (first_error st) r.1)
  | TaskWeb =>
      let r := resume (web_task st) (citations_list st) in
      mkLoop (vector_task st) (graph_task st) r.1 r.2 (note_error (first_error st) r.1)
  end.

(** The tasks are started in the order of the arguments of [gather]. *)
Definition start (cv cg cw : coro string) : loop_state :=
  let st0 := mkLoop (Pending cv) (Pending cg) (Pending cw) [] None in
  wake (wake (wake st0 TaskVector) TaskGraph) TaskWeb.

Definition finish_task {A : Type} (t : task A) (cits : list Citation)
  : task A * list Citation :=
  match t with
  | Pending k =>
      match run_all k cits with
      | (Ok a, cits') => (Done a, cits')
      | (Raise e, cits') => (Crashed e, cits')
      end
  | _ => (t, cits)
  end.

(** Tasks still pending when the schedule ends complete in the order of
    the arguments. *)
Definition drain (st : loop_state) : loop_state :=
  let rv := finish_task (vector_task st) (citations_list st) in
  let e1 := note_error (first_error st) rv.1 in
  let rg := finish_task (graph_task st) rv.2 in
  let e2 := note_error e1 rg.1 in
  let rw := finish_task (web_task st) rg.2 in
  mkLoop rv.1 rg.1 rw.1 rw.2 (note_error e2 rw.1).

(** [await asyncio.gather(cv, cg, cw)]; [schedule] is the order in which
    the awaited futures complete.  The first exception of a task is raised
    to the caller. *)
Definition gather (cv cg cw : coro string) (schedule : list task_id)
  : py_result (string * string * string) * list Citation :=
  let st := drain (fold_left wake schedule (start cv cg cw)) in
  match first_error st, vector_task st, graph_task st, web_task st with
  | None, Done v, Done g, Done w => (Ok (v, g, w), citations_list st)
  | Some e, _, _, _ => (Raise e, citations_list st)
  | None, _, _, _ => (Raise (RuntimeError "gather"), citations_list st)
  end.

Record ChatResult : Type := mkChat { answer : string; citations : list Citation }.

Definition get_combined_response (E : env) (query : string) (schedule : list task_id)
  : py_result ChatResult :=
  match gather (task_vector E query) (task_graph E query) (task_web E query) schedule with
  | (Raise e, _) => Raise e
  | (Ok (vector_ctx, graph_ctx, web_ctx), citations_list) =>
      match synthesize E vector_ctx graph_ctx web_ctx query with
      | Raise e => Raise e
      | Ok final_answer => Ok (mkChat final_answer citations_list)
      end
  end.

(** *** The shape of the three tasks *)

(** The coroutine that appends [cs] and then goes on as [k]. *)
Definition emit {A : Type} (cs : list Citation) (k : coro A) : coro A :=
  foldr Append k cs.

Lemma run_slice_emit {A : Type} (cs : list Citation) (a : A) cits :
  run_slice (emit cs (Ret a)) cits = (Done a, cits ++ cs).
Proof.
  revert cits. induction cs as [|c cs IH]; intros cits; simpl.
  - by rewrite app_nil_r.
  - by rewrite IH, <- app_assoc.
Qed.

Lemma run_all_emit {A : Type} (cs : list Citation) (a : A) cits :
  run_all (emit cs (Ret a)) cits = (Ok a, cits ++ cs).
Proof.
  revert cits. induction cs as [|c cs IH]; intros cits; simpl.
  - by rewrite app_nil_r.
  - by rewrite IH, <- app_assoc.
Qed.

Lemma appended_emit {A : Type} (cs : list Citation) (a : A) :
  appended (emit cs (Ret a)) = cs.
Proof. unfold appended. by rewrite run_all_emit. Qed.

Lemma appended_await_emit {A : Type} (cs : list Citation) (a : A) :
  appended (Await (emit cs (Ret a))) = cs.
Proof. unfold appended. simpl. by rewrite run_all_emit. Qed.

(** The citations of the vector task: [Doc-1] to [Doc-n], in hit order. *)
Definition vector_citations (raw_docs : list Doc) : list Citation :=
  imap doc_citation raw_docs.

Lemma vector_loop_shape raw_docs i context_str :
  exists s, vector_loop raw_docs i context_str
            = emit (imap (fun j => doc_citation (i + j)) raw_docs) (Ret s).
Proof.
  revert i context_str. induction raw_docs as [|doc rest IH]; intros i ctx; simpl.
  - by exists ctx.
  - destruct (IH (S i) (ctx ++ "[" ++ doc_ref i ++ "] (File: "
                        ++ default "Unknown" (filename doc) ++ "): " ++ text doc
                        ++ newline ++ newline)%string) as [s Hs].
    exists s. rewrite Hs. rewrite Nat.add_0_r. f_equal. f_equal.
    apply imap_ext. intros j d _. simpl. f_equal. lia.
Qed.

Lemma task_vector_shape E query raw_docs :
  vector_search E query 3 = Ok raw_docs ->
  exists s, task_vector E query = emit (vector_citations raw_docs) (Ret s).
Proof.
  intros Hv. unfold task_vector. rewrite Hv. simpl.
  destruct raw_docs as [|doc rest]; [by eexists|].
  apply (vector_loop_shape (doc :: rest) 0).
Qed.

(** The graph task appends nothing or the one citation [Graph-1]; it
    awaits the language model when the API key is set and does not suspend
    otherwise.  It never raises. *)
Definition graph_shaped (cs : list Citation) : Prop :=
  cs = [] \/ exists cypher data, cs = [graph_citation cypher data].

Lemma task_graph_shape E query :
  exists s cs, graph_shaped cs /\
    if groq_api_key E then task_graph E query = Await (emit cs (Ret s))
    else task_graph E query = emit cs (Ret s).
Proof.
  unfold task_graph, text_to_cypher_and_run, run_query_if_neo4j, await, call.
  destruct (groq_api_key E); simpl;
    repeat (case_match; simpl; simplify_eq);
    try (by eexists _, []; split; [left|]);
    by eexists _, [_]; split; [right; eauto|].
Qed.

Definition web_shaped (cs : list Citation) : Prop :=
  cs = [] \/ exists web_text, cs = [web_citation web_text].

(** The web task awaits the search and then appends nothing or the one
    citation [Web-1].  It never raises. *)
Lemma task_web_shape E query :
  exists s cs, web_shaped cs /\ task_web E query = Await (emit cs (Ret s)).
Proof.
  unfold task_web, search_web_only, await.
  destruct (web_search E _) as [r|e]; simpl;
    repeat (case_match; simpl; simplify_eq);
    try (by eexists _, []; split; [left|]);
    by eexists _, [_]; split; [right; eauto|].
Qed.

(** When the search raises, the web task appends nothing. *)
Lemma task_web_search_failed E query e :
  web_search E ("Entegris products and news: " ++ query)%string = Raise e ->
  task_web E query = Await (Ret "No web results found.").
Proof. intros H. unfold task_web, search_web_only, await. by rewrite H. Qed.

(** *** Every schedule of the loop *)

(** Of the graph task and the web task, the web task is the first whose
    awaited future completes.  Resuming the vector task, which never
    awaits, changes nothing. *)
Fixpoint web_before_graph (schedule : list task_id) : bool :=
  match schedule with
  | [] => false
  | TaskVector :: schedule' => web_before_graph schedule'
  | TaskGraph :: _ => false
  | TaskWeb :: _ => true
  end.

(** What a task returns when it is run alone. *)
Definition returned {A : Type} (c : coro A) : py_result A := (run_all c []).1.

Section Schedule.
(** What the three tasks append and return. *)
Variables (V G W : list Citation) (v g w : string).

(** The states of the loop once the three tasks have had their first
    turn, when the graph task awaits the language model. *)
Inductive phase : loop_state -> Prop :=
| both_pending :
    phase (mkLoop (Done v) (Pending (emit G (Ret g))) (Pending (emit W (Ret w))) V None)
| web_pending :
    phase (mkLoop (Done v) (Done g) (Pending (emit W (Ret w))) (V ++ G) None)
| graph_pending :
    phase (mkLoop (Done v) (Pending (emit G (Ret g))) (Done w) (V ++ W) None)
| graph_first : phase (mkLoop (Done v) (Done g) (Done w) (V ++ G ++ W) None)
| web_first : phase (mkLoop (Done v) (Done g) (Done w) (V ++ W ++ G) None).

(** The states when the graph task has ended in its first turn. *)
Inductive phase_direct : loop_state -> Prop :=
| direct_web_pending :
    phase_direct (mkLoop (Done v) (Done g) (Pending (emit W (Ret w))) (V ++ G) None)
| direct_done : phase_direct (mkLoop (Done v) (Done g) (Done w) (V ++ G ++ W) None).

Lemma phase_wake st i : phase st -> phase (wake st i).
Proof.
  intros []; destruct i; unfold wake; simpl; rewrite ?run_slice_emit; simpl;
    rewrite <- ?app_assoc; constructor.
Qed.

Lemma phase_direct_wake st i : phase_direct st -> phase_direct (wake st i).
Proof.
  intros []; destruct i; unfold wake; simpl; rewrite ?run_slice_emit; simpl;
    rewrite <- ?app_assoc; constructor.
Qed.

Lemma phase_schedule schedule st : phase st -> phase (fold_left wake schedule st).
Proof.
  revert st. induction schedule as [|i schedule IH]; intros st H; simpl; [done|].
  by apply IH, phase_wake.
Qed.

Lemma phase_direct_schedule schedule st :
  phase_direct st -> phase_direct (fold_left wake schedule st).
Proof.
  revert st. induction schedule as [|i schedule IH]; intros st H; simpl; [done|].
  by apply IH, phase_direct_wake.
Qed.

Lemma phase_drain st :
  phase st ->
  drain st = mkLoop (Done v) (Done g) (Done w) (V ++ G ++ W) None \/
  drain st = mkLoop (Done v) (Done g) (Done w) (V ++ W ++ G) None.
Proof.
  intros []; unfold drain; simpl; rewrite ?run_all_emit; simpl;
    rewrite ?run_all_emit; simpl; rewrite <- ?app_assoc; auto.
Qed.

Lemma phase_direct_drain st :
  phase_direct st ->
  drain st = mkLoop (Done v) (Done g) (Done w) (V ++ G ++ W) None.
Proof.
  intros []; unfold drain; simpl; rewrite ?run_all_emit; simpl;
    rewrite <- ?app_assoc; auto.
Qed.

Lemma start_awaiting :
  phase (start (emit V (Ret v)) (Await (emit G (Ret g))) (Await (emit W (Ret w)))).
Proof. unfold start, wake. simpl. rewrite run_slice_emit. simpl. constructor. Qed.

Lemma start_direct :
  phase_direct (start (emit V (Ret v)) (emit G (Ret g)) (Await (emit W (Ret w)))).
Proof.
  unfold start, wake. simpl. rewrite run_slice_emit. simpl.
  rewrite run_slice_emit. simpl. constructor.
Qed.

(** With the graph task awaiting, [gather] returns the three contexts
    and the list holds the vector citations first and then those of the
    graph and of the web task in the order in which the two were
    resumed. *)
Lemma gather_awaiting schedule :
  gather (emit V (Ret v)) (Await (emit G (Ret g))) (Await (emit W (Ret w))) schedule
  = (Ok (v, g, w), V ++ G ++ W) \/
  gather (emit V (Ret v)) (Await (emit G (Ret g))) (Await (emit W (Ret w))) schedule
  = (Ok (v, g, w), V ++ W ++ G).
Proof.
  unfold gather.
  destruct (phase_drain _ (phase_schedule schedule _ start_awaiting)) as [-> | ->];
    simpl; auto.
Qed.

Lemma gather_direct schedule :
  gather (emit V (Ret v)) (emit G (Ret g)) (Await (emit W (Ret w))) schedule
  = (Ok (v, g, w), V ++ G ++ W).
Proof.
  unfold gather.
  by rewrite (phase_direct_drain _ (phase_direct_schedule schedule _ start_direct)).
Qed.

(** The loop once the graph task has been resumed before the web task,
    and once the web task has been resumed before the graph task. *)
Definition graph_led (st : loop_state) : Prop :=
  st = mkLoop (Done v) (Done g) (Pending (emit W (Ret w))) (V ++ G) None \/
  st = mkLoop (Done v) (Done g) (Done w) (V ++ G ++ W) None.

Definition web_led (st : loop_state) : Prop :=
  st = mkLoop (Done v) (Pending (emit G (Ret g))) (Done w) (V ++ W) None \/
  st = mkLoop (Done v) (Done g) (Done w) (V ++ W ++ G) None.

Lemma graph_led_wake st i : graph_led st -> graph_led (wake st i).
Proof.
  intros [-> | ->]; destruct i; unfold wake, graph_led; simpl;
    rewrite ?run_slice_emit; simpl; rewrite <- ?app_assoc; auto.
Qed.

Lemma web_led_wake st i : web_led st -> web_led (wake st i).
Proof.
  intros [-> | ->]; destruct i; unfold wake, web_led; simpl;
    rewrite ?run_slice_emit; simpl; rewrite <- ?app_assoc; auto.
Qed.

Lemma graph_led_drain schedule st :
  graph_led st ->
  drain (fold_left wake schedule st)
  = mkLoop (Done v) (Done g) (Done w) (V ++ G ++ W) None.
Proof.
  revert st. induction schedule as [|i schedule IH]; intros st H; simpl.
  - destruct H as [-> | ->]; unfold drain; simpl; rewrite ?run_all_emit; simpl;
      by rewrite <- ?app_assoc.
  - by apply IH, graph_led_wake.
Qed.

Lemma web_led_drain schedule st :
  web_led st ->
  drain (fold_left wake schedule st)
  = mkLoop (Done v) (Done g) (Done w) (V ++ W ++ G) None.
Proof.
  revert st. induction schedule as [|i schedule IH]; intros st H; simpl.
  - destruct H as [-> | ->]; unfold drain; simpl; rewrite ?run_all_emit; simpl;
      by rewrite <- ?app_assoc.
  - by apply IH, web_led_wake.
Qed.

(** From the state in which both tasks await, the first of the two to be
    resumed decides the order of their citations. *)
Lemma both_pending_drain schedule :
  drain (fold_left wake schedule
           (mkLoop (Done v) (Pending (emit G (Ret g))) (Pending (emit W (Ret w))) V None))
  = mkLoop (Done v) (Done g) (Done w)
      (V ++ (if web_before_graph schedule then W ++ G else G ++ W)) None.
Proof.
  induction schedule as [|i schedule IH].
  - unfold drain. simpl. rewrite run_all_emit. simpl. rewrite run_all_emit. simpl.
    by rewrite <- app_assoc.
  - destruct i; cbn [fold_left web_before_graph].
    + exact IH.
    + apply graph_led_drain. left. unfold wake. simpl. by rewrite run_slice_emit.
    + apply web_led_drain. left. unfold wake. simpl. by rewrite run_slice_emit.
Qed.

Lemma start_awaiting_state :
  start (emit V (Ret v)) (Await (emit G (Ret g))) (Await (emit W (Ret w)))
  = mkLoop (Done v) (Pending (emit G (Ret g))) (Pending (emit W (Ret w))) V None.
Proof. unfold start, wake. simpl. by rewrite run_slice_emit. Qed.

(** With the graph task awaiting, the list holds the citations of the
    graph and of the web task in the order in which the two were resumed. *)
Lemma gather_awaiting_order schedule :
  gather (emit V (Ret v)) (Await (emit G (Ret g))) (Await (emit W (Ret w))) schedule
  = (Ok (v, g, w), V ++ (if web_before_graph schedule then W ++ G else G ++ W)).
Proof. unfold gather. by rewrite start_awaiting_state, both_pending_drain. Qed.

End Schedule.

(** The response of the orchestrator when the vector index answers: the
    three contexts are what the three tasks return, whatever the completion
    order, and the answer is what the synthesis model makes of them. *)
Lemma combined_response E query raw_docs :
  vector_search E query 3 = Ok raw_docs ->
  exists v g w,
    returned (task_vector E query) = Ok v /\
    returned (task_graph E query) = Ok g /\
    returned (task_web E query) = Ok w /\
    forall schedule,
      get_combined_response E query schedule
      = match synthesize E v g w query with
        | Raise e => Raise e
        | Ok final_answer =>
            Ok (mkChat final_answer
                  (vector_citations raw_docs
                   ++ (if groq_api_key E && web_before_graph schedule
                       then appended (task_web E query) ++ appended (task_graph E query)
                       else appended (task_graph E query) ++ appended (task_web E query))))
        end.
Proof.
  intros Hv. unfold get_combined_response, returned.
  destruct (task_vector_shape E query raw_docs Hv) as (v & ->).
  destruct (task_graph_shape E query) as (g & G & _ & HG).
  destruct (task_web_shape E query) as (w & W & _ & ->).
  rewrite appended_await_emit.
  exists v, g, w. rewrite run_all_emit. simpl. rewrite run_all_emit.
  destruct (groq_api_key E).
  - rewrite HG, appended_await_emit. simpl. rewrite run_all_emit.
    repeat split. intros schedule. by rewrite gather_awaiting_order.
  - rewrite HG, appended_emit, run_all_emit.
    repeat split. intros schedule. by rewrite gather_direct.
Qed.

Lemma vector_citation_ids_from raw_docs i :
  map id (imap (fun j => doc_citation (i + j)) raw_docs)
  = map doc_ref (seq i (length raw_docs)).
Proof.
  revert i. induction raw_docs as [|doc rest IH]; intros i; simpl; [done|].
  rewrite Nat.add_0_r. f_equal. rewrite <- IH. f_equal.
  apply imap_ext. intros j d _. simpl. f_equal. lia.
Qed.

Lemma vector_citation_ids raw_docs :
  map id (vector_citations raw_docs) = map doc_ref (seq 0 (length raw_docs)).
Proof. apply (vector_citation_ids_from raw_docs 0). Qed.

Lemma graph_citations_shaped E query : graph_shaped (appended (task_graph E query)).
Proof.
  destruct (task_graph_shape E query) as (s & cs & Hcs & H).
  destruct (groq_api_key E); rewrite H; by rewrite ?appended_await_emit, ?appended_emit.
Qed.

Lemma web_citations_shaped E query : web_shaped (appended (task_web E query)).
Proof.
  destruct (task_web_shape E query) as (s & cs & Hcs & ->).
  by rewrite appended_await_emit.
Qed.

(** C1 (amended): when the vector index and the synthesis model answer,
    the orchestrator returns for every completion order, and the citations
    list holds the vector citations first, [Doc-1] to [Doc-n] in hit order,
    followed by the graph citation [Graph-1] and the web citation [Web-1]
    in the order in which the graph task and the web task were resumed: the
    web citation comes first exactly when the graph task awaits the language
    model and the web search completes before the translation.  With two
    vector hits, a graph hit and a web hit the ids are
    [Doc-1, Doc-2, Graph-1, Web-1], or [Doc-1, Doc-2, Web-1, Graph-1] when
    the web search completes first. *)
Theorem citations_order E query schedule raw_docs :
  vector_search E query 3 = Ok raw_docs ->
  (forall v g w, exists a, synthesize E v g w query = Ok a) ->
  exists r, get_combined_response E query schedule = Ok r /\
    let V := vector_citations raw_docs in
    let G := appended (task_graph E query) in
    let W := appended (task_web E query) in
    map id V = map doc_ref (seq 0 (length raw_docs)) /\
    (G = [] \/ exists c, G = [c] /\ id c = "Graph-1") /\
    (W = [] \/ exists c, W = [c] /\ id c = "Web-1") /\
    citations r
    = V ++ (if groq_api_key E && web_before_graph schedule then W ++ G else G ++ W) /\
    (length raw_docs = 2%nat -> G <> [] -> W <> [] ->
     map id (citations r)
     = if groq_api_key E && web_before_graph schedule
       then ["Doc-1"; "Doc-2"; "Web-1"; "Graph-1"]
       else ["Doc-1"; "Doc-2"; "Graph-1"; "Web-1"]).
Proof.
  intros Hv Hsyn.
  destruct (combined_response E query raw_docs Hv) as (v & g & w & _ & _ & _ & Hr).
  specialize (Hr schedule). destruct (Hsyn v g w) as [a Ha]. rewrite Ha in Hr.
  eexists. split; [exact Hr|]. cbv zeta. simpl citations.
  assert (HG : appended (task_graph E query) = [] \/
               exists c, appended (task_graph E query) = [c] /\ id c = "Graph-1").
  { destruct (graph_citations_shaped E query) as [->|(cy & d & ->)]; [by left|right].
    by eexists. }
  assert (HW : appended (task_web E query) = [] \/
               exists c, appended (task_web E query) = [c] /\ id c = "Web-1").
  { destruct (web_citations_shaped E query) as [->|(t & ->)]; [by left|right].
    by eexists. }
  split; [apply vector_citation_ids|].
  split; [exact HG|]. split; [exact HW|]. split; [done|].
  intros Hlen HGne HWne.
  destruct HG as [HG|(cg & HG & Hcg)]; [done|].
  destruct HW as [HW|(cw & HW & Hcw)]; [done|].
  rewrite map_app, vector_citation_ids, Hlen, HG, HW.
  destruct (groq_api_key E && web_before_graph schedule); simpl; by rewrite Hcg, Hcw.
Qed.

(** C7: when the search call of the web task raises, and the vector index
    and the synthesis model answer, the orchestrator returns for every
    completion order.  Its answer is what the synthesis model makes of the
    context of the vector task, the context of the graph task and the
    placeholder [No web results found.]; its citations are those of the
    vector and of the graph task, and none of them has an id that starts
    with [Web-]. *)
Theorem web_failure_isolated E query schedule raw_docs e :
  web_search E ("Entegris products and news: " ++ query)%string = Raise e ->
  vector_search E query 3 = Ok raw_docs ->
  (forall v g w, exists a, synthesize E v g w query = Ok a) ->
  exists r, get_combined_response E query schedule = Ok r /\
    (exists v g,
       returned (task_vector E query) = Ok v /\
       returned (task_graph E query) = Ok g /\
       returned (task_web E query) = Ok "No web results found."%string /\
       synthesize E v g "No web results found." query = Ok (answer r)) /\
    citations r = vector_citations raw_docs ++ appended (task_graph E query) /\
    forall c, c ∈ citations r -> startswith "Web-" (id c) = false.
Proof.
  intros Hweb Hv Hsyn.
  destruct (combined_response E query raw_docs Hv) as (v & g & w & Rv & Rg & Rw & Hr).
  specialize (Hr schedule).
  assert (Hw : w = "No web results found."%string).
  { rewrite (task_web_search_failed E query e Hweb) in Rw. by inversion Rw. }
  subst w.
  assert (HW : appended (task_web E query) = []).
  { by rewrite (task_web_search_failed E query e Hweb). }
  rewrite HW, app_nil_r in Hr. simpl in Hr.
  assert (E0 : (if groq_api_key E && web_before_graph schedule
                then appended (task_graph E query) else appended (task_graph E query))
               = appended (task_graph E query)) by (by destruct (_ && _)).
  rewrite E0 in Hr. clear E0.
  destruct (Hsyn v g "No web results found."%string) as [a Ha]. rewrite Ha in Hr.
  eexists. split; [exact Hr|]. simpl.
  split; [by exists v, g|]. split; [done|].
  intros c Hin. apply elem_of_app in Hin as [Hin|Hin].
  - assert (Hid : id c ∈ map id (vector_citations raw_docs))
      by (apply list_elem_of_fmap; eauto).
    rewrite vector_citation_ids in Hid.
    apply list_elem_of_fmap in Hid as (i & -> & _). reflexivity.
  - destruct (graph_citations_shaped E query) as [HG|(cy & d & HG)];
      rewrite HG in Hin.
    + by apply elem_of_nil in Hin.
    + apply list_elem_of_singleton in Hin. by subst.
Qed.

End Orchestrator.

(** *** The orchestrator on concrete collaborators *)

(** The ids of the citations of a response. *)
Definition citation_ids {Row : Type} (r : py_result (ChatResult (Row:=Row))) : list string :=
  match r with
  | Ok chat => map id (citations chat)
  | Raise _ => []
  end.

(** Two vector hits, a translated query that returns one row, and a web
    result. *)
Definition demo_env : env (Row:=string) :=
  mkEnv (fun _ _ => Ok [mkDoc "Pump manual" (Some "manual.pdf");
                        mkDoc "Filter notes" None])
        true
        (fun _ => Ok "MATCH (n:Pump) RETURN n LIMIT 5")
        true false
        (fun _ => Ok ["pump-1"])
        (fun _ => Ok "[pump-1]")
        (fun _ => Ok "Entegris news")
        (fun _ _ _ _ => Ok "answer").

(** C1 as the claim states it fails: with two vector hits, one graph hit
    and one web hit, the list is [Doc-1, Doc-2, Graph-1, Web-1] when the
    translation of the query completes before the web search, and
    [Doc-1, Doc-2, Web-1, Graph-1] when the web search completes first. *)
Lemma citation_order_counterexample :
  citation_ids (get_combined_response demo_env "pumps" [TaskGraph; TaskWeb])
  = ["Doc-1"; "Doc-2"; "Graph-1"; "Web-1"] /\
  citation_ids (get_combined_response demo_env "pumps" [TaskWeb; TaskGraph])
  = ["Doc-1"; "Doc-2"; "Web-1"; "Graph-1"] /\
  citation_ids (get_combined_response demo_env "pumps" [TaskWeb; TaskGraph])
  <> ["Doc-1"; "Doc-2"; "Graph-1"; "Web-1"].
Proof. by vm_compute. Qed.

Lemma citations_order_witness :
  (exists r, get_combined_response demo_env "pumps" [TaskWeb; TaskGraph] = Ok r /\
     map id (citations r) = ["Doc-1"; "Doc-2"; "Web-1"; "Graph-1"]) /\
  (exists r, get_combined_response demo_env "pumps" [TaskGraph; TaskWeb] = Ok r /\
     map id (citations r) = ["Doc-1"; "Doc-2"; "Graph-1"; "Web-1"]).
Proof.
  split.
  - destruct (citations_order demo_env "pumps" [TaskWeb; TaskGraph]
                [mkDoc "Pump manual" (Some "manual.pdf"); mkDoc "Filter notes" None])
      as (r & Hr & _ & _ & _ & _ & Hids).
    + reflexivity.
    + intros v g w. by exists "answer".
    + exists r. split; [exact Hr|]. apply Hids; [reflexivity|by vm_compute|by vm_compute].
  - destruct (citations_order demo_env "pumps" [TaskGraph; TaskWeb]
                [mkDoc "Pump manual" (Some "manual.pdf"); mkDoc "Filter notes" None])
      as (r & Hr & _ & _ & _ & _ & Hids).
    + reflexivity.
    + intros v g w. by exists "answer".
    + exists r. split; [exact Hr|]. apply Hids; [reflexivity|by vm_compute|by vm_compute].
Defined.

(** The web search tool raises, and the synthesis model answers with the
    start of the vector context, the start of the graph context and the web
    context; everything else as in [demo_env]. *)
Definition web_down_env : env (Row:=string) :=
  mkEnv (vector_search demo_env) true (llm_translate demo_env) true false
        (neo4j_run demo_env) (json_dumps demo_env)
        (fun _ => Raise (Exception "DuckDuckGo rate limit"))
        (fun v g w _ =>
           Ok (Re.take_chars 7 v ++ " | " ++ Re.take_chars 9 g ++ " | " ++ w)%string).

Example web_down_response :
  citation_ids (get_combined_response web_down_env "pumps" [TaskWeb; TaskGraph])
  = ["Doc-1"; "Doc-2"; "Graph-1"].
Proof. by vm_compute. Qed.

Lemma web_failure_isolated_witness :
  exists r, get_combined_response web_down_env "pumps" [TaskWeb; TaskGraph] = Ok r /\
    answer r = "[Doc-1] | [Graph-1] | No web results found."%string /\
    citations r
    = vector_citations [mkDoc "Pump manual" (Some "manual.pdf"); mkDoc "Filter notes" None]
      ++ appended (task_graph web_down_env "pumps") /\
    forall c, c ∈ citations r -> startswith "Web-" (id c) = false.
Proof.
  destruct (web_failure_isolated web_down_env "pumps" [TaskWeb; TaskGraph]
              [mkDoc "Pump manual" (Some "manual.pdf"); mkDoc "Filter notes" None]
              (Exception "DuckDuckGo rate limit"))
    as (r & Hr & (v & g & Rv & Rg & _ & Ha) & Hcits & Hc).
  - reflexivity.
  - reflexivity.
  - intros v g w. by eexists.
  - exists r. split; [exact Hr|]. split; [|by split].
    vm_compute in Rv, Rg. inversion Rv. inversion Rg. subst v g.
    vm_compute in Ha. by inversion Ha.
Defined.

(** The graph database rejects the query. *)
Definition graph_down_env : env (Row:=string) :=
  mkEnv (fun _ _ => Ok []) false (fun _ => Raise (Exception "no model")) true false
        (fun _ => Raise (Exception "Invalid input"))
        (fun _ => Ok "{error: Invalid input}")
        (fun _ => Ok EmptyString)
        (fun _ _ _ _ => Ok "answer").

(** C5: the claim fails on the code when the execution of the query
    throws.  [run_query_if_neo4j] turns the exception into the dictionary
    [{error: message}], which is not empty, so the graph task takes it for
    data: it appends the citation [Graph-1] with the error as its data and
    returns the [Graph-1] context block. *)
Theorem graph_error_is_cited :
  run_query_if_neo4j graph_down_env "MATCH (n:`devices`) RETURN n LIMIT 200"
  = Ok (ErrorDict "Invalid input") /\
  run_all (task_graph graph_down_env "find devices") []
  = (Ok ("[Graph-1] Cypher: MATCH (n:`devices`) RETURN n LIMIT 200" ++ newline
         ++ "Results: {error: Invalid input}")%string,
     [graph_citation "MATCH (n:`devices`) RETURN n LIMIT 200"
        (ErrorDict "Invalid input")]) /\
  citation_ids (get_combined_response graph_down_env "find devices" []) = ["Graph-1"].
Proof. by vm_compute. Qed.

(** With a database that answers, [Graph-1] is assigned exactly when
    there is a row. *)
Example graph_rows_cited :
  let some_rows := mkEnv (vector_search graph_down_env) false (llm_translate graph_down_env)
                     true false (fun _ => Ok ["device-7"]) (fun _ => Ok "[device-7]")
                     (web_search graph_down_env) (synthesize graph_down_env) in
  let no_rows := mkEnv (vector_search graph_down_env) false (llm_translate graph_down_env)
                   true false (fun _ => Ok ([] : list string)) (fun _ => Ok "[]")
                   (web_search graph_down_env) (synthesize graph_down_env) in
  citation_ids (get_combined_response some_rows "find devices" []) = ["Graph-1"] /\
  citation_ids (get_combined_response no_rows "find devices" []) = [] /\
  (run_all (task_graph no_rows "find devices") []).1 = Ok "No graph data found.".
Proof. by vm_compute. Qed.

End Orchestrator.

(** * Further properties of the modelled code *)

(** ** Chunker: shape of the chunks *)

Module ChunkerFacts.
Import Chunker.
Section ChunkerFacts.
Local Open Scope Z_scope.
Context {char : Type}.

Lemma range_from_lookup (k : nat) (a st : Z) (j : nat) :
  (j < k)%nat -> range_from k a st !! j = Some (a + Z.of_nat j * st).
Proof.
  revert a j. induction k as [|k IH]; intros a j Hj; [lia|].
  destruct j as [|j]; simpl.
  - f_equal. lia.
  - rewrite IH by lia. f_equal. lia.
Qed.

(** The [j]-th chunk of a text longer than one chunk starts at
    [j * (chunk_size - overlap)], inside the text. *)
Lemma chunk_text_lookup (text : list char) (chunk_size overlap : Z)
    (chunks : list (list char)) (j : nat) (c : list char) :
  overlap < chunk_size -> chunk_size < len text ->
  _chunk_text text chunk_size overlap = Ok chunks ->
  chunks !! j = Some c ->
  Z.of_nat j * (chunk_size - overlap) < len text /\
  c = py_slice text (Z.of_nat j * (chunk_size - overlap))
                    (Z.of_nat j * (chunk_size - overlap) + chunk_size).
Proof.
  intros Ho Hl Hc Hj. rewrite chunk_text_long in Hc by done.
  inversion Hc as [E]. clear Hc. subst chunks.
  set (step := chunk_size - overlap) in *.
  pose proof (ceil_div_bounds (len text) step ltac:(unfold step; lia)) as [Hlo Hhi].
  rewrite list_lookup_fmap in Hj.
  destruct (range_from _ _ _ !! j) as [i|] eqn:Ei; [|done].
  simpl in Hj. inversion Hj. clear Hj. subst c.
  assert (Hjk : (j < Z.to_nat (ceil_div (len text) step))%nat).
  { apply lookup_lt_Some in Ei. by rewrite range_from_length in Ei. }
  rewrite range_from_lookup in Ei by done. inversion Ei. clear Ei. subst i.
  rewrite Z.add_0_l. split; [|done]. nia.
Qed.

(** Windows that reach the end of the text give it back. *)
Lemma reconstruct_windows (text : list char) (chunk_size overlap : Z) (k : nat) :
  0 <= overlap < chunk_size -> (1 <= k)%nat ->
  len text <= chunk_size + (Z.of_nat k - 1) * (chunk_size - overlap) ->
  reconstruct overlap
    (map (fun i => py_slice text i (i + chunk_size))
         (range_from k 0 (chunk_size - overlap)))
  = text.
Proof.
  intros [Ho Hs] Hk Hl.
  set (step := (chunk_size - overlap)%Z) in *.
  destruct k as [|k]; [lia|].
  cbn [range_from map reconstruct].
  assert (Hcs : chunk_size = Z.of_nat (Z.to_nat step + Z.to_nat overlap))
    by (unfold step; lia).
  assert (Hst : step = Z.of_nat (Z.to_nat step)) by (unfold step; lia).
  pose proof (stripped_windows text (Z.to_nat overlap) (Z.to_nat step) k
                (Z.to_nat step)) as W.
  rewrite <- Hst, <- Hcs in W.
  rewrite (py_slice_window text 0 chunk_size) by lia.
  rewrite map_map, Z.add_0_l, W. change (Z.to_nat 0) with 0%nat.
  rewrite drop_0.
  replace (Z.to_nat chunk_size) with (Z.to_nat step + Z.to_nat overlap)%nat by lia.
  rewrite take_take_drop. apply take_ge. unfold len in *. nia.
Qed.

Lemma reconstruct_long (text : list char) (chunk_size overlap : Z) :
  0 <= overlap < chunk_size -> chunk_size < len text ->
  reconstruct overlap
    (map (fun i => py_slice text i (i + chunk_size))
         (range_from (Z.to_nat (ceil_div (len text) (chunk_size - overlap)))
                     0 (chunk_size - overlap)))
  = text.
Proof.
  intros Ho Hl.
  pose proof (ceil_div_bounds (len text) (chunk_size - overlap) ltac:(lia)) as [Hlo Hhi].
  apply reconstruct_windows; [done|unfold len in *; nia|].
  rewrite Z2Nat.id by (unfold len in *; nia). nia.
Qed.

Lemma chunks_long_bounded (text : list char) (chunk_size overlap : Z)
    (chunks : list (list char)) :
  0 < chunk_size -> overlap < chunk_size -> chunk_size < len text ->
  _chunk_text text chunk_size overlap = Ok chunks ->
  Forall (fun c => len c <= chunk_size /\ c <> []) chunks.
Proof.
  intros Hcs Ho Hlong Hc. apply Forall_lookup. intros j c Hj.
  destruct (chunk_text_lookup text chunk_size overlap chunks j c) as [Hlt ->];
    [lia|lia|done|done|].
  rewrite py_slice_window by nia.
  assert (E : len (take (Z.to_nat chunk_size)
                     (drop (Z.to_nat (Z.of_nat j * (chunk_size - overlap))) text))
              = Z.min chunk_size (len text - Z.of_nat j * (chunk_size - overlap))).
  { unfold len in *. rewrite length_take, length_drop. nia. }
  split; [lia|]. intros Hnil. rewrite Hnil in E. unfold len in *. simpl in E. lia.
Qed.

(** With the defaults a text of at most 6000 characters is one chunk, and
    a longer one is cut every 5700 characters. *)
Lemma chunk_text_default_cases (text : list char) :
  (len text <= 6000 /\ _chunk_text_default text = Ok [text]) \/
  (6000 < len text /\
   _chunk_text_default text
   = Ok (map (fun i => py_slice text i (i + 6000))
             (range_from (Z.to_nat (ceil_div (len text) (6000 - 300))) 0 (6000 - 300)))).
Proof.
  unfold _chunk_text_default.
  destruct (Z_le_gt_dec (len text) 6000) as [Hshort|Hlong].
  - left. split; [done|]. by apply chunk_text_short.
  - right. split; [lia|]. apply chunk_text_long; lia.
Qed.

(** X1: for a positive [chunk_size], whatever the overlap, every chunk
    returned has at most [chunk_size] characters, and no chunk of a
    non-empty text is empty. *)
Theorem chunks_bounded (text : list char) (chunk_size overlap : Z)
    (chunks : list (list char)) :
  0 < chunk_size ->
  _chunk_text text chunk_size overlap = Ok chunks ->
  Forall (fun c => len c <= chunk_size /\ (text <> [] -> c <> [])) chunks.
Proof.
  intros Hcs Hc.
  destruct (Z_le_gt_dec (len text) chunk_size) as [Hshort|Hlong].
  { rewrite chunk_text_short in Hc by done. inversion Hc. by repeat constructor. }
  destruct (Z_lt_le_dec overlap chunk_size) as [Ho|Ho].
  - eapply Forall_impl; [by apply (chunks_long_bounded text chunk_size overlap); try lia|].
    intros c [Hl Hne]. by split.
  - unfold _chunk_text, py_range, range_len in Hc.
    destruct (Z.leb_spec (len text) chunk_size) as [?|_]; [lia|].
    destruct (Z.eqb_spec (chunk_size - overlap) 0) as [?|_]; [done|].
    destruct (Z.ltb_spec 0 (chunk_size - overlap)) as [?|_]; [lia|].
    destruct (Z.ltb_spec (len text) 0) as [?|_]; [unfold len in *; lia|].
    inversion Hc. constructor.
Qed.

(** X2: for [0 <= overlap < chunk_size], consecutive chunks share
    exactly the overlap: the first [overlap] characters of a chunk are
    what is left of the chunk before it after its first
    [chunk_size - overlap] characters. *)
Theorem chunks_overlap (text : list char) (chunk_size overlap : Z)
    (chunks : list (list char)) (j : nat) (c c' : list char) :
  0 <= overlap < chunk_size ->
  _chunk_text text chunk_size overlap = Ok chunks ->
  chunks !! j = Some c -> chunks !! S j = Some c' ->
  take (Z.to_nat overlap) c' = drop (Z.to_nat (chunk_size - overlap)) c.
Proof.
  intros [Ho Hs] Hc Hj Hj'.
  destruct (Z_le_gt_dec (len text) chunk_size) as [Hshort|Hlong].
  { rewrite chunk_text_short in Hc by done. inversion Hc. by subst chunks. }
  destruct (chunk_text_lookup text chunk_size overlap chunks j c) as [_ ->];
    [lia|lia|done|done|].
  destruct (chunk_text_lookup text chunk_size overlap chunks (S j) c') as [_ ->];
    [lia|lia|done|done|].
  rewrite !py_slice_window by nia.
  set (step := chunk_size - overlap).
  replace (Z.to_nat (Z.of_nat (S j) * step))
    with (Z.to_nat (Z.of_nat j * step) + Z.to_nat step)%nat by nia.
  rewrite take_take, skipn_firstn_comm, drop_drop.
  f_equal; unfold step; lia.
Qed.

(** X3: with the defaults of the source (6000 and 300) the chunker never
    raises and never returns an empty list, its chunks have at most 6000
    characters, and the text is their concatenation with the overlap
    removed: the pipeline loses no text. *)
Theorem chunk_text_default_total (text : list char) :
  exists chunks,
    _chunk_text_default text = Ok chunks /\
    chunks <> [] /\
    reconstruct 300 chunks = text /\
    Forall (fun c => len c <= 6000) chunks.
Proof.
  destruct (chunk_text_default_cases text) as [[Hshort E]|[Hlong E]]; rewrite E.
  - exists [text]. repeat split; [done|simpl; by rewrite app_nil_r|by repeat constructor].
  - eexists. split; [done|].
    pose proof (reconstruct_long text 6000 300 ltac:(lia) ltac:(lia)) as R.
    split; [|split; [exact R|]].
    + intros E'. rewrite E' in R. simpl in R. unfold len in *. rewrite <- R in Hlong.
      simpl in Hlong. lia.
    + eapply Forall_impl.
      * apply (chunks_long_bounded text 6000 300); [lia|lia|lia|exact E].
      * intros c [Hc _]. exact Hc.
Qed.

End ChunkerFacts.

Lemma chunks_bounded_witness :
  Forall (fun c => (len c <= 4)%Z /\ ([0; 1; 2; 3; 4; 5; 6; 7; 8; 9]%nat <> [] -> c <> []))
    [[0; 1; 2; 3]; [3; 4; 5; 6]; [6; 7; 8; 9]; [9]]%nat.
Proof.
  apply (chunks_bounded [0; 1; 2; 3; 4; 5; 6; 7; 8; 9]%nat 4 1); [lia|reflexivity].
Defined.

Lemma chunks_overlap_witness :
  take (Z.to_nat 1) [3; 4; 5; 6]%nat = drop (Z.to_nat (4 - 1)) [0; 1; 2; 3]%nat.
Proof.
  apply (chunks_overlap [0; 1; 2; 3; 4; 5; 6; 7; 8; 9]%nat 4 1
           [[0; 1; 2; 3]; [3; 4; 5; 6]; [6; 7; 8; 9]; [9]]%nat 0);
    [lia|reflexivity|reflexivity|reflexivity].
Defined.

End ChunkerFacts.


(** ** GraphMerger: what [_merge_graphs] keeps *)

Module MergerFacts.
Import Merger.

(** The first element of [l] for every key, in the order of [l], leaving out
    the keys in [seen]. *)
Fixpoint first_by {K A : Type} `{Countable K} (key : A -> K) (seen : gset K)
    (l : list A) : list A :=
  match l with
  | [] => []
  | x :: l' =>
      if decide (key x ∈ seen) then first_by key seen l'
      else x :: first_by key ({[key x]} ∪ seen) l'
  end.

Section FirstBy.
Context {K A : Type} `{Countable K} (key : A -> K).

Lemma first_by_app (seen : gset K) (l1 l2 : list A) :
  first_by key seen (l1 ++ l2)
  = first_by key seen l1 ++ first_by key (seen ∪ list_to_set (map key l1)) l2.
Proof.
  revert seen. induction l1 as [|x l1 IH]; intros seen; simpl.
  - f_equal. set_solver.
  - destruct (decide (key x ∈ seen)) as [Hin|Hout].
    + rewrite IH. do 2 f_equal. set_solver.
    + simpl. rewrite IH. do 3 f_equal. set_solver.
Qed.

Lemma elem_of_first_by_keys (seen : gset K) (l : list A) (k : K) :
  k ∈ map key (first_by key seen l) <-> k ∈ map key l /\ k ∉ seen.
Proof.
  revert seen. induction l as [|x l IH]; intros seen; simpl.
  - split; [intros Hk; by apply elem_of_nil in Hk|intros [Hk _]; by apply elem_of_nil in Hk].
  - destruct (decide (key x ∈ seen)) as [Hin|Hout]; simpl;
      rewrite ?elem_of_cons, IH, ?elem_of_cons.
    + split; [tauto|]. intros [[->|Hk] Hs]; [done|tauto].
    + split.
      * intros [->|(Hk & Hs)]; [tauto|]. split; [tauto|set_solver].
      * intros [[->|Hk] Hs]; [tauto|].
        destruct (decide (k = key x)) as [->|Hne]; [tauto|]. right. split; [done|set_solver].
Qed.

Lemma first_by_NoDup (seen : gset K) (l : list A) :
  NoDup (map key (first_by key seen l)).
Proof.
  revert seen. induction l as [|x l IH]; intros seen; simpl; [constructor|].
  destruct (decide (key x ∈ seen)) as [Hin|Hout]; [apply IH|].
  simpl. constructor; [|apply IH].
  rewrite elem_of_first_by_keys. set_solver.
Qed.

Lemma first_by_sublist (seen : gset K) (l : list A) : first_by key seen l `sublist_of` l.
Proof.
  revert seen. induction l as [|x l IH]; intros seen; simpl; [constructor|].
  destruct (decide (key x ∈ seen)); [apply sublist_cons, IH|apply sublist_skip, IH].
Qed.

End FirstBy.

(** The nodes and the relationships are merged independently of each
    other. *)
Lemma add_nodes_state ns st :
  fold_left add_node ns st
  = mkState (merged_nodes st
             ++ map (fun n => (Node.id n, n))
                    (first_by Node.id (list_to_set (merged_nodes st).*1) ns))
            (edge_set st) (merged_rels st).
Proof.
  revert st. induction ns as [|n ns IH]; intros st; simpl.
  - rewrite app_nil_r. by destruct st.
  - rewrite IH. unfold add_node, dict_has.
    case_bool_decide as Hb; case_decide as Hd;
      try (exfalso; rewrite elem_of_list_to_set in Hd; tauto).
    + done.
    + simpl. rewrite <- app_assoc. simpl. rewrite fmap_app. simpl.
      assert (E : (list_to_set ((merged_nodes st).*1 ++ [Node.id n]) : gset string)
                  = {[Node.id n]} ∪ list_to_set (merged_nodes st).*1)
        by (rewrite list_to_set_app_L; set_solver).
      by rewrite E.
Qed.

Lemma add_rels_state rs st :
  fold_left add_rel rs st
  = mkState (merged_nodes st)
            (edge_set st ∪ list_to_set (map edge_tuple rs))
            (merged_rels st ++ first_by edge_tuple (edge_set st) rs).
Proof.
  revert st. induction rs as [|r rs IH]; intros st; simpl.
  - rewrite app_nil_r. destruct st as [d e m]. simpl. f_equal. set_solver.
  - rewrite IH. unfold add_rel.
    case_bool_decide as Hb; case_decide as Hd; try tauto.
    + f_equal. set_solver.
    + simpl. rewrite <- app_assoc. simpl. f_equal. set_solver.
Qed.

Lemma first_by_keys_set {K A : Type} `{Countable K} (key : A -> K) (seen : gset K)
    (l : list A) :
  seen ∪ list_to_set (map key (first_by key seen l)) = seen ∪ list_to_set (map key l).
Proof.
  apply set_eq. intros k. rewrite !elem_of_union, !elem_of_list_to_set.
  rewrite elem_of_first_by_keys. destruct (decide (k ∈ seen)); tauto.
Qed.

Lemma add_graph_state g st :
  add_graph st g
  = mkState (merged_nodes st
             ++ map (fun n => (Node.id n, n))
                    (first_by Node.id (list_to_set (merged_nodes st).*1) (nodes g)))
            (edge_set st ∪ list_to_set (map edge_tuple (relationships g)))
            (merged_rels st ++ first_by edge_tuple (edge_set st) (relationships g)).
Proof. unfold add_graph. by rewrite add_rels_state, add_nodes_state. Qed.

Lemma merge_from_state gs st :
  merge_from st gs
  = mkState (merged_nodes st
             ++ map (fun n => (Node.id n, n))
                    (first_by Node.id (list_to_set (merged_nodes st).*1)
                       (concat (map nodes gs))))
            (edge_set st ∪ list_to_set (map edge_tuple (concat (map relationships gs))))
            (merged_rels st
             ++ first_by edge_tuple (edge_set st) (concat (map relationships gs))).
Proof.
  revert st. induction gs as [|g gs IH]; intros st; simpl.
  - rewrite !app_nil_r. destruct st as [d e m]. simpl. f_equal. set_solver.
  - assert (E1 : (list_to_set
                    (merged_nodes st
                     ++ map (fun n => (Node.id n, n))
                          (first_by Node.id (list_to_set (merged_nodes st).*1) (nodes g))).*1
                  : gset string)
                 = list_to_set (merged_nodes st).*1 ∪ list_to_set (map Node.id (nodes g))).
    { rewrite fmap_app, list_to_set_app_L, <- list_fmap_compose.
      apply (first_by_keys_set Node.id). }
    rewrite IH, add_graph_state.
    cbn [merged_nodes edge_set merged_rels].
    rewrite E1, !first_by_app, !map_app, list_to_set_app_L, <- !app_assoc.
    f_equal. set_solver.
Qed.

Definition all_nodes (gs : list KnowledgeGraphResponse) : list Node.t :=
  concat (map nodes gs).
Definition all_relationships (gs : list KnowledgeGraphResponse) : list Relationship.t :=
  concat (map relationships gs).

Lemma merge_graphs_first_by gs :
  _merge_graphs gs
  = mkGraph (first_by Node.id ∅ (all_nodes gs))
            (first_by edge_tuple ∅ (all_relationships gs)).
Proof.
  unfold _merge_graphs, finish. rewrite merge_from_state. simpl.
  rewrite <- list_fmap_compose, list_fmap_id.
  replace (list_to_set [] : gset string) with (∅ : gset string) by done.
  done.
Qed.

Section FirstByMore.
Context {K A : Type} `{Countable K} (key : A -> K).

Lemma first_by_find (seen : gset K) (l : list A) (k : K) :
  k ∉ seen ->
  find (fun x => bool_decide (key x = k)) (first_by key seen l)
  = find (fun x => bool_decide (key x = k)) l.
Proof.
  revert seen. induction l as [|x l IH]; intros seen Hk; simpl; [done|].
  destruct (decide (key x ∈ seen)) as [Hin|Hout]; simpl.
  - case_bool_decide as E; [by subst|by apply IH].
  - case_bool_decide as E; [done|]. apply IH. set_solver.
Qed.

Lemma first_by_fixed (seen : gset K) (l : list A) :
  NoDup (map key l) -> (forall x, x ∈ l -> key x ∉ seen) -> first_by key seen l = l.
Proof.
  revert seen. induction l as [|x l IH]; intros seen Hnd Hs; simpl; [done|].
  apply NoDup_cons in Hnd as [Hx Hnd].
  destruct (decide (key x ∈ seen)) as [Hin|Hout].
  - exfalso. apply (Hs x); [left|done].
  - f_equal. apply IH; [done|]. intros y Hy.
    rewrite elem_of_union, elem_of_singleton. intros [E|Hin].
    + apply Hx. rewrite <- E. apply (list_elem_of_fmap_2 key l y Hy).
    + apply (Hs y); [by right|done].
Qed.

Lemma first_by_first_by (s1 s2 : gset K) (l : list A) :
  first_by key s1 (first_by key s2 l) = first_by key (s1 ∪ s2) l.
Proof.
  revert s1 s2. induction l as [|x l IH]; intros s1 s2; simpl; [done|].
  destruct (decide (key x ∈ s2)) as [H2|H2]; simpl.
  - rewrite IH. destruct (decide (key x ∈ s1 ∪ s2)) as [_|H12]; [done|set_solver].
  - destruct (decide (key x ∈ s1)) as [H1|H1].
    + rewrite IH. destruct (decide (key x ∈ s1 ∪ s2)) as [_|H12]; [|set_solver].
      f_equal. set_solver.
    + rewrite IH. destruct (decide (key x ∈ s1 ∪ s2)) as [H12|_]; [set_solver|].
      do 2 f_equal. set_solver.
Qed.

End FirstByMore.

(** X4: in the merged graph no two nodes share an id and no two
    relationships share their (source, target, type) triple, whatever the
    chunk graphs are. *)
Theorem merged_graph_unique (gs : list KnowledgeGraphResponse) :
  NoDup (map Node.id (nodes (_merge_graphs gs))) /\
  NoDup (map edge_tuple (relationships (_merge_graphs gs))).
Proof.
  rewrite merge_graphs_first_by. simpl. split; apply first_by_NoDup.
Qed.

(** X5: first writer wins.  For every id, the node the merged graph has
    for it is the first node with that id in reading order over all chunk
    graphs (none if no chunk has it); likewise a triple is represented by its
    first relationship. *)
Theorem merged_graph_first_wins (gs : list KnowledgeGraphResponse)
    (k : string) (e : string * string * string) :
  find (fun n => bool_decide (Node.id n = k)) (nodes (_merge_graphs gs))
  = find (fun n => bool_decide (Node.id n = k)) (all_nodes gs) /\
  find (fun r => bool_decide (edge_tuple r = e)) (relationships (_merge_graphs gs))
  = find (fun r => bool_decide (edge_tuple r = e)) (all_relationships gs).
Proof.
  rewrite merge_graphs_first_by. simpl.
  split; apply first_by_find; set_solver.
Qed.

(** X6: merging neither invents nor reorders: the merged nodes are a
    subsequence of the chunks' nodes read in order, and so are the merged
    relationships.  In particular an endpoint of a relationship that no
    chunk declares as a node does not become one. *)
Theorem merged_graph_sublist (gs : list KnowledgeGraphResponse) :
  nodes (_merge_graphs gs) `sublist_of` all_nodes gs /\
  relationships (_merge_graphs gs) `sublist_of` all_relationships gs.
Proof.
  rewrite merge_graphs_first_by. simpl. split; apply first_by_sublist.
Qed.

(** X7: merging can be done in stages: merging two batches of chunk
    graphs separately and then merging the two results gives the graph of
    merging all of them at once. *)
Theorem merge_graphs_staged (gs1 gs2 : list KnowledgeGraphResponse) :
  _merge_graphs [_merge_graphs gs1; _merge_graphs gs2] = _merge_graphs (gs1 ++ gs2).
Proof.
  rewrite !merge_graphs_first_by. unfold all_nodes, all_relationships.
  simpl. rewrite !app_nil_r, !map_app, !concat_app, !first_by_app.
  rewrite !first_by_first_by.
  pose proof (first_by_keys_set Node.id ∅ (concat (map nodes gs1))) as En.
  pose proof (first_by_keys_set edge_tuple ∅ (concat (map relationships gs1))) as Er.
  rewrite !(right_id_L ∅ (∪)), !(left_id_L ∅ (∪)) in *.
  by rewrite En, Er.
Qed.

(** X8: a graph whose node ids are pairwise distinct and whose triples
    are pairwise distinct is returned unchanged when merged alone. *)
Theorem merge_graphs_clean (g : KnowledgeGraphResponse) :
  NoDup (map Node.id (nodes g)) ->
  NoDup (map edge_tuple (relationships g)) ->
  _merge_graphs [g] = g.
Proof.
  intros Hn Hr. rewrite merge_graphs_first_by. unfold all_nodes, all_relationships.
  simpl. rewrite !app_nil_r, !first_by_fixed by (done || set_solver).
  by destruct g.
Qed.

Lemma merge_graphs_clean_witness :
  _merge_graphs
    [mkGraph [Node.mk "Cu" "Material"; Node.mk "Yield" "Metric"]
             [Relationship.mk "Cu" "Yield" "IMPACTS"]]
  = mkGraph [Node.mk "Cu" "Material"; Node.mk "Yield" "Metric"]
            [Relationship.mk "Cu" "Yield" "IMPACTS"].
Proof.
  apply (merge_graphs_clean
           (mkGraph [Node.mk "Cu" "Material"; Node.mk "Yield" "Metric"]
                    [Relationship.mk "Cu" "Yield" "IMPACTS"])).
  - simpl. apply NoDup_cons. split; [|apply NoDup_singleton].
    intros Hin. apply list_elem_of_singleton in Hin. discriminate.
  - simpl. apply NoDup_singleton.
Defined.

Lemma all_nodes_perm gs gs' : gs ≡ₚ gs' -> all_nodes gs ≡ₚ all_nodes gs'.
Proof. intros Hp. unfold all_nodes. by rewrite Hp. Qed.

Lemma all_relationships_perm gs gs' :
  gs ≡ₚ gs' -> all_relationships gs ≡ₚ all_relationships gs'.
Proof. intros Hp. unfold all_relationships. by rewrite Hp. Qed.

(** X9: the order of the chunk graphs decides only the order of the
    result and which of two nodes with the same id is kept: the node ids
    of the merged graph and its triples are the same up to order for every
    reordering of the chunk graphs. *)
Theorem merge_graphs_order (gs gs' : list KnowledgeGraphResponse) :
  gs ≡ₚ gs' ->
  map Node.id (nodes (_merge_graphs gs)) ≡ₚ map Node.id (nodes (_merge_graphs gs')) /\
  map edge_tuple (relationships (_merge_graphs gs))
    ≡ₚ map edge_tuple (relationships (_merge_graphs gs')).
Proof.
  intros Hp. rewrite !merge_graphs_first_by. simpl.
  split; apply NoDup_Permutation; try apply first_by_NoDup; intros k;
    rewrite !elem_of_first_by_keys.
  - by rewrite (all_nodes_perm _ _ Hp).
  - by rewrite (all_relationships_perm _ _ Hp).
Qed.

Lemma merge_graphs_order_witness :
  map Node.id (nodes (_merge_graphs
     [mkGraph [Node.mk "Cu" "Material"] []; mkGraph [Node.mk "Cu" "Metal"; Node.mk "Yield" "Metric"] []]))
  ≡ₚ map Node.id (nodes (_merge_graphs
     [mkGraph [Node.mk "Cu" "Metal"; Node.mk "Yield" "Metric"] []; mkGraph [Node.mk "Cu" "Material"] []])).
Proof.
  apply (merge_graphs_order
    [mkGraph [Node.mk "Cu" "Material"] []; mkGraph [Node.mk "Cu" "Metal"; Node.mk "Yield" "Metric"] []]
    [mkGraph [Node.mk "Cu" "Metal"; Node.mk "Yield" "Metric"] []; mkGraph [Node.mk "Cu" "Material"] []]).
  apply Permutation_swap.
Defined.

(** *** [process_text_in_chunks] as a whole *)

Lemma elem_of_successful_graphs results g :
  g ∈ successful_graphs results <-> Ok g ∈ results.
Proof.
  unfold successful_graphs. rewrite list_elem_of_omap. split.
  - intros (r & Hr & E). destruct r; [|done]. by inversion E; subst.
  - intros Hr. by exists (Ok g).
Qed.

Lemma chunk_text_default_nonempty {char : Type} (text : list char) :
  exists c chunks, Chunker._chunk_text_default text = Ok (c :: chunks).
Proof.
  destruct (ChunkerFacts.chunk_text_default_cases text) as [[_ E]|[Hlong E]];
    rewrite E; [by eauto|].
  pose proof (Chunker.ceil_div_bounds (Chunker.len text) (6000 - 300) ltac:(lia)) as [Hlo _].
  destruct (Z.to_nat _) as [|k] eqn:Ek; [lia|]. simpl. eauto.
Qed.

(** X10: whatever the text and whatever the extractor does on each
    chunk, the pipeline ends in one of two ways.  Either every chunk's
    extraction failed and it raises the fixed [RuntimeError] (never an error
    of the chunker), or it returns a graph without duplicate node ids or
    duplicate triples, each of whose nodes was extracted from some chunk of
    the text. *)
Theorem process_text_outcome {char : Type}
    (extract : nat -> list char -> py_result KnowledgeGraphResponse) (text : list char) :
  exists chunks,
    Chunker._chunk_text_default text = Ok chunks /\
    ((Forall failed (imap extract chunks) /\
      (process_text_in_chunks extract text).2 = Raise (RuntimeError no_graph_message)) \/
     (exists g,
        (process_text_in_chunks extract text).2 = Ok g /\
        NoDup (map Node.id (nodes g)) /\
        NoDup (map edge_tuple (relationships g)) /\
        forall n, n ∈ nodes g ->
          exists i c g', chunks !! i = Some c /\ extract i c = Ok g' /\ n ∈ nodes g')).
Proof.
  destruct (chunk_text_default_nonempty text) as (c0 & cs & E).
  exists (c0 :: cs). split; [done|].
  unfold process_text_in_chunks, process_results. rewrite E.
  destruct (successful_graphs (imap extract (c0 :: cs))) as [|g gs] eqn:Es.
  - left. split; [by apply successful_graphs_nil|done].
  - right. eexists. split; [done|]. rewrite merge_graphs_first_by. simpl.
    split; [apply first_by_NoDup|]. split; [apply first_by_NoDup|].
    intros n Hn.
    apply (fun H => elem_of_sublist _ _ _ H (first_by_sublist Node.id ∅ _)) in Hn.
    unfold all_nodes in Hn. apply PathFinder.elem_of_concat in Hn as (ns & Hns & Hn).
    apply list_elem_of_fmap in Hns as (g' & -> & Hg').
    rewrite <- Es in Hg'. apply elem_of_successful_graphs in Hg'.
    apply list_elem_of_lookup in Hg' as (i & Hi).
    rewrite list_lookup_imap in Hi.
    destruct ((c0 :: cs) !! i) as [c|] eqn:Ec; [|done].
    simpl in Hi. inversion Hi as [Hx]. by exists i, c, g'.
Qed.

(** A text of at most 6000 characters, the empty text included,
    is sent to the extractor once and whole.  The graph extracted is still
    deduplicated; an exception of the extractor is printed and replaced by the
    fixed [RuntimeError]. *)
Lemma process_short_text {char : Type}
    (extract : nat -> list char -> py_result KnowledgeGraphResponse) (text : list char) :
  (Chunker.len text <= 6000)%Z ->
  process_text_in_chunks extract text
  = match extract 0%nat text with
    | Ok g => ([], Ok (_merge_graphs [g]))
    | Raise e => ([AllChunksFailed [exc_str e]], Raise (RuntimeError no_graph_message))
    end.
Proof.
  intros Hl. unfold process_text_in_chunks, Chunker._chunk_text_default.
  rewrite Chunker.chunk_text_short by done.
  unfold process_results. simpl. by destruct (extract 0%nat text).
Qed.

End MergerFacts.

(** ** PathFinder: the adjacency view and the ranking *)

Module PathFinderFacts.
Import PathFinder.

(** *** Which pairs are adjacent *)

(** [r] joins [a] and [b], in either direction. *)
Definition joins (r : Relationship.t) (a b : string) : Prop :=
  (Relationship.source r = a /\ Relationship.target r = b) \/
  (Relationship.target r = a /\ Relationship.source r = b).

Lemma edge_append_to k v (adj : gmap string (list string)) a b :
  edge (append_to k v adj) a b <-> edge adj a b \/ (a ∈ dom adj /\ a = k /\ b = v).
Proof.
  unfold append_to, edge. destruct (adj !! k) as [l|] eqn:El.
  - destruct (decide (a = k)) as [->|Hne].
    + rewrite lookup_insert_eq. split.
      * intros (l' & [= <-] & Hb). apply elem_of_app in Hb as [Hb|Hb]; [left; eauto|].
        apply list_elem_of_singleton in Hb. right. split; [by eapply elem_of_dom_2|done].
      * intros [(l' & Hl' & Hb)|(_ & _ & ->)]; eexists; (split; [done|]);
          rewrite elem_of_app; [left; congruence|right; by left].
    + rewrite lookup_insert_ne by done. split; [by left|]. intros [?|(_ & ? & _)]; done.
  - split; [by left|]. intros [?|(Hd & -> & _)]; [done|].
    apply elem_of_dom in Hd as [l Hl]. congruence.
Qed.

Lemma edge_add_edge (adj : gmap string (list string)) r a b :
  edge (add_edge adj r) a b <-> edge adj a b \/ (a ∈ dom adj /\ joins r a b).
Proof.
  unfold add_edge, joins. rewrite !edge_append_to, dom_append_to.
  split; [intros [[?|(? & <- & <-)]|(? & <- & <-)]|intros [?|(? & [[<- <-]|[<- <-]])]]; tauto.
Qed.

Lemma edge_fold_add_edge rs (adj : gmap string (list string)) a b :
  edge (fold_left add_edge rs adj) a b <->
  edge adj a b \/ (a ∈ dom adj /\ exists r, r ∈ rs /\ joins r a b).
Proof.
  revert adj. induction rs as [|r rs IH]; intros adj; simpl.
  - split; [by left|]. intros [?|(_ & r & Hr & _)]; [done|]. by apply elem_of_nil in Hr.
  - rewrite IH, edge_add_edge, dom_add_edge. split.
    + intros [[?|(? & ?)]|(? & r' & ? & ?)]; [by left|right..].
      * split; [done|]. exists r. split; [left|done].
      * split; [done|]. exists r'. split; [by right|done].
    + intros [?|(Hd & r' & [->|Hr']%elem_of_cons & Hj)]; [by left; left|left; by right|].
      right. eauto.
Qed.

Lemma empty_adjacency_no_edge ns a b : ~ edge (empty_adjacency ns) a b.
Proof.
  intros (l & Hl & Hb).
  assert (W : lists_within ∅ (empty_adjacency ns)).
  { apply empty_adjacency_within. intros k l' x Hk. by rewrite lookup_empty in Hk. }
  specialize (W a l b Hl Hb). set_solver.
Qed.

(** X11: the adjacency view holds exactly the relationships whose
    near end is a declared node, in both directions: [b] is in the list of
    [a] iff [a] is declared and some relationship joins [a] and [b].  In
    particular the view is symmetric between declared nodes, and an
    undeclared id has no list of its own. *)
Theorem build_adjacency_edges (graph : KnowledgeGraphResponse) (a b : string) :
  edge (_build_adjacency graph) a b <->
  a ∈ node_ids graph /\ exists r, r ∈ relationships graph /\ joins r a b.
Proof.
  unfold _build_adjacency. rewrite edge_fold_add_edge.
  change (dom (empty_adjacency (nodes graph)))
    with (dom (fold_left add_edge [] (empty_adjacency (nodes graph)))).
  change (fold_left add_edge [] (empty_adjacency (nodes graph)))
    with (_build_adjacency (mkGraph (nodes graph) [])).
  rewrite dom_build_adjacency, elem_of_list_to_set. unfold node_ids. simpl.
  split; [|by right]. intros [He|?]; [|done]. by apply empty_adjacency_no_edge in He.
Qed.

(** *** Candidates *)

Lemma dict_set_entries {V : Type} k (v : V) d e :
  e ∈ dict_set k v d -> e = (k, v) \/ e ∈ d.
Proof.
  induction d as [|[k' v'] d IH]; simpl.
  - rewrite list_elem_of_singleton. by left.
  - destruct (String.eqb k k'); rewrite !elem_of_cons; [tauto|].
    intros [->|H]; [by right; left|]. destruct (IH H); auto.
Qed.

Lemma node_lower_entries graph e : e ∈ node_lower graph -> e.2 = PyStr.lower e.1.
Proof.
  unfold node_lower.
  assert (G : forall ns d, Forall (fun e => e.2 = PyStr.lower e.1) d ->
            Forall (fun e => e.2 = PyStr.lower e.1)
              (fold_left (fun d n => dict_set (Node.id n) (PyStr.lower (Node.id n)) d) ns d)).
  { induction ns as [|n ns IH]; intros d Hd; simpl; [done|].
    apply IH. apply Forall_forall. intros e' He'.
    apply dict_set_entries in He' as [->|He']; [done|].
    rewrite Forall_forall in Hd. by apply Hd. }
  intros He. specialize (G (nodes graph) [] (Forall_nil_2 _)).
  rewrite Forall_forall in G. by apply G.
Qed.

Lemma candidates_keyword kws graph x :
  x ∈ candidates kws (node_lower graph) ->
  exists k, k ∈ kws /\ PyStr.contains k (PyStr.lower x) = true.
Proof.
  unfold candidates. intros H.
  apply list_elem_of_fmap in H as (e & -> & He).
  apply list_elem_of_filter in He as [Hk He].
  apply node_lower_entries in He. rewrite <- He.
  apply existsb_exists in Hk as (k & Hin & Hk).
  exists k. split; [by apply list_elem_of_In|done].
Qed.

(** *** The early returns *)

Lemma py_slice_nil {A : Type} lo hi : Chunker.py_slice (@nil A) lo hi = [].
Proof. unfold Chunker.py_slice. by rewrite drop_nil, take_nil. Qed.

Lemma pool_no_targets graph max_hops sources : pool graph max_hops sources [] = [].
Proof. unfold pool. induction sources as [|s ss IH]; simpl; [done|exact IH]. Qed.

Definition sources_of (graph : KnowledgeGraphResponse) : list string :=
  candidates source_keywords (node_lower graph).
Definition targets_of (graph : KnowledgeGraphResponse) : list string :=
  candidates outcome_keywords (node_lower graph).
Definition all_paths (graph : KnowledgeGraphResponse) (max_hops : Z) : list (list string) :=
  pool graph max_hops (sources_of graph) (targets_of graph).

(** The early returns of [path_discovery] are shortcuts: all of them
    return what the last line would. *)
Lemma path_discovery_unfold graph max_hops top_k :
  path_discovery graph max_hops top_k
  = Chunker.py_slice (sort_by_len (all_paths graph max_hops)) 0 top_k.
Proof.
  unfold path_discovery, all_paths, sources_of, targets_of.
  destruct (candidates source_keywords _) as [|s0 ss] eqn:Es.
  { simpl. rewrite py_slice_nil. by case_bool_decide. }
  case_bool_decide as Hadj.
  { exfalso. assert (Hs : s0 ∈ node_ids graph).
    { apply (candidates_declared source_keywords). rewrite Es. left. }
    apply (proj2 (elem_of_list_to_set (C:=gset string) _ _)) in Hs.
    rewrite <- dom_build_adjacency, Hadj, dom_empty_L in Hs. set_solver. }
  destruct (candidates outcome_keywords _) as [|t0 ts] eqn:Et.
  { rewrite pool_no_targets. simpl. by rewrite py_slice_nil. }
  destruct (pool _ _ _ _) as [|p0 ps] eqn:Ep; [simpl; by rewrite py_slice_nil|done].
Qed.

(** *** The ranking *)

Definition by_len (p q : list string) : Prop := (length p <= length q)%nat.

Lemma insert_by_len_sorted p l :
  StronglySorted by_len l -> StronglySorted by_len (insert_by_len p l).
Proof.
  induction l as [|a l IH]; simpl; intros Hl.
  - repeat constructor.
  - apply StronglySorted_cons in Hl as [Ha Hl].
    destruct (Nat.leb_spec (length p) (length a)) as [Hle|Hgt].
    + apply StronglySorted_cons. split; [|by apply StronglySorted_cons].
      constructor; [done|]. eapply Forall_impl; [exact Ha|].
      unfold by_len. intros q Hq. lia.
    + apply StronglySorted_cons. split; [|by apply IH].
      apply Forall_forall. intros q Hq.
      apply elem_of_insert_by_len in Hq as [->|Hq]; [unfold by_len; lia|].
      rewrite Forall_forall in Ha. by apply Ha.
Qed.

Lemma sort_by_len_sorted l : StronglySorted by_len (sort_by_len l).
Proof.
  induction l as [|a l IH]; simpl; [constructor|by apply insert_by_len_sorted].
Qed.

Lemma insert_by_len_perm p l : insert_by_len p l ≡ₚ p :: l.
Proof.
  induction l as [|a l IH]; simpl; [done|].
  destruct (_ <=? _)%nat; [done|]. rewrite IH. apply Permutation_swap.
Qed.

Lemma sort_by_len_perm l : sort_by_len l ≡ₚ l.
Proof.
  induction l as [|a l IH]; simpl; [done|]. by rewrite insert_by_len_perm, IH.
Qed.

(** Paths of the same length keep their order. *)
Lemma insert_by_len_stable n p l :
  filter (fun q => length q = n) (insert_by_len p l)
  = filter (fun q => length q = n) (p :: l).
Proof.
  induction l as [|a l IH]; simpl; [done|].
  destruct (Nat.leb_spec (length p) (length a)) as [Hle|Hgt]; [done|].
  rewrite (filter_cons _ a), IH, !filter_cons.
  repeat case_decide; try done; lia.
Qed.

Lemma sort_by_len_stable n l :
  filter (fun q => length q = n) (sort_by_len l) = filter (fun q => length q = n) l.
Proof.
  induction l as [|a l IH]; simpl; [done|].
  by rewrite insert_by_len_stable, !filter_cons, IH.
Qed.

Lemma py_slice_prefix {A : Type} (l : list A) (k : Z) :
  exists n, Chunker.py_slice l 0 k = take n l /\ ((0 <= k)%Z -> (Z.of_nat n <= k)%Z).
Proof.
  unfold Chunker.py_slice, Chunker.py_index, Chunker.len.
  change (0 <? 0)%Z with false. cbv iota.
  rewrite (Z.min_l 0) by lia. change (Z.to_nat 0) with 0%nat. rewrite drop_0.
  eexists. split; [done|]. intros Hk.
  destruct (Z.ltb_spec k 0); lia.
Qed.

(** X12: the paths are returned shortest first, and for a non-negative
    [top_k] there are at most [top_k] of them. *)
Theorem path_discovery_ranked (graph : KnowledgeGraphResponse) (max_hops top_k : Z) :
  StronglySorted by_len (path_discovery graph max_hops top_k) /\
  ((0 <= top_k)%Z ->
   (Z.of_nat (length (path_discovery graph max_hops top_k)) <= top_k)%Z).
Proof.
  rewrite path_discovery_unfold.
  destruct (py_slice_prefix (sort_by_len (all_paths graph max_hops)) top_k)
    as (n & -> & Hn).
  split.
  - pose proof (sort_by_len_sorted (all_paths graph max_hops)) as Hs.
    rewrite <- (take_drop n (sort_by_len _)) in Hs.
    by apply StronglySorted_app_1_l in Hs.
  - intros Hk. rewrite length_take. specialize (Hn Hk). lia.
Qed.

(** X13: what is returned is the pool sorted by length, paths of equal
    length in the order they were found, and then cut to its first [top_k]
    paths: the sorted list has the paths of the pool with their
    multiplicities, is ordered by length and agrees with the pool on the
    paths of every given length. *)
Theorem path_discovery_stable (graph : KnowledgeGraphResponse) (max_hops top_k : Z) :
  exists sorted,
    path_discovery graph max_hops top_k = Chunker.py_slice sorted 0 top_k /\
    sorted ≡ₚ all_paths graph max_hops /\
    StronglySorted by_len sorted /\
    forall n, filter (fun p => length p = n) sorted
              = filter (fun p => length p = n) (all_paths graph max_hops).
Proof.
  exists (sort_by_len (all_paths graph max_hops)).
  split; [apply path_discovery_unfold|].
  split; [apply sort_by_len_perm|].
  split; [apply sort_by_len_sorted|].
  intros n. apply sort_by_len_stable.
Qed.

Lemma simple_path_two adj s t p :
  s <> t -> simple_path adj s t p -> (2 <= length p)%nat.
Proof.
  intros Hne (Hh & Hl & _ & _). destruct p as [|a [|b p]]; simpl in *; [done| |lia].
  congruence.
Qed.

Lemma path_discovery_found graph max_hops top_k p :
  p ∈ path_discovery graph max_hops top_k ->
  exists s t,
    s ∈ sources_of graph /\ t ∈ targets_of graph /\ s <> t /\
    found_ok (_build_adjacency graph) max_hops s t p.
Proof.
  intros Hp. apply path_discovery_pooled, elem_of_pool in Hp
    as (s & t & Hs & Ht & Hp).
  exists s, t. split; [done|]. split; [done|].
  split; [by eapply pair_paths_distinct|].
  destruct (pair_paths_ok graph max_hops s t) as [Hok _].
  rewrite Forall_forall in Hok. by apply Hok.
Qed.

(** X14: every returned path starts at a node whose lower-cased id
    contains a source keyword and ends at a different node whose lower-cased
    id contains an outcome keyword; it repeats no node, follows the
    adjacency view, and has at least two and at most [max_hops] nodes. *)
Theorem path_discovery_endpoints (graph : KnowledgeGraphResponse) (max_hops top_k : Z)
    (p : list string) :
  p ∈ path_discovery graph max_hops top_k ->
  exists s t,
    head p = Some s /\ last p = Some t /\ s <> t /\
    (exists k, k ∈ source_keywords /\ PyStr.contains k (PyStr.lower s) = true) /\
    (exists k, k ∈ outcome_keywords /\ PyStr.contains k (PyStr.lower t) = true) /\
    NoDup p /\ walk (_build_adjacency graph) p /\
    (2 <= Z.of_nat (length p) <= max_hops)%Z.
Proof.
  intros Hp. apply path_discovery_found in Hp as (s & t & Hs & Ht & Hne & Hsp & Hlen).
  pose proof (simple_path_two _ _ _ _ Hne Hsp) as H2.
  destruct Hsp as (Hh & Hl & Hnd & Hw).
  exists s, t. repeat (split; [done|]).
  split; [by eapply candidates_keyword|].
  split; [by eapply candidates_keyword|].
  repeat (split; [done|]). lia.
Qed.

(** X15: [max_hops] bounds the nodes of a path, not its edges: below 2
    nothing is returned, not even for two candidates joined by a
    relationship. *)
Theorem path_discovery_few_hops (graph : KnowledgeGraphResponse) (max_hops top_k : Z) :
  (max_hops < 2)%Z -> path_discovery graph max_hops top_k = [].
Proof.
  intros Hm. destruct (path_discovery graph max_hops top_k) as [|p ps] eqn:E; [done|].
  assert (Hp : p ∈ path_discovery graph max_hops top_k) by (rewrite E; left).
  apply path_discovery_found in Hp as (s & t & _ & _ & Hne & Hsp & Hlen).
  pose proof (simple_path_two _ _ _ _ Hne Hsp). lia.
Qed.

Definition direct_graph : KnowledgeGraphResponse :=
  mkGraph [Node.mk "Metal ion" "Material"; Node.mk "Yield" "Metric"]
          [Relationship.mk "Metal ion" "Yield" "IMPACTS"].

(** Two source-like nodes and two outcome-like nodes: the search finds four
    paths, one of them a direct edge found last. *)
Definition ranked_graph : KnowledgeGraphResponse :=
  mkGraph [Node.mk "Metal ion" "Material"; Node.mk "Particle" "Material";
           Node.mk "Etch" "Process"; Node.mk "Yield" "Metric";
           Node.mk "Defect" "Metric"]
          [Relationship.mk "Metal ion" "Etch" "USED_IN";
           Relationship.mk "Etch" "Yield" "IMPACTS";
           Relationship.mk "Particle" "Etch" "ENTERS";
           Relationship.mk "Etch" "Defect" "CAUSES";
           Relationship.mk "Particle" "Defect" "CAUSES"].

Example ranked_graph_pool :
  all_paths ranked_graph 4
  = [["Metal ion"; "Etch"; "Yield"]; ["Metal ion"; "Etch"; "Defect"];
     ["Particle"; "Etch"; "Yield"]; ["Particle"; "Defect"]].
Proof. by vm_compute. Qed.

Lemma path_discovery_ranked_witness :
  length (all_paths ranked_graph 4) = 4%nat /\
  path_discovery ranked_graph 4 2
  = [["Particle"; "Defect"]; ["Metal ion"; "Etch"; "Yield"]] /\
  StronglySorted by_len (path_discovery ranked_graph 4 2) /\
  (Z.of_nat (length (path_discovery ranked_graph 4 2)) <= 2)%Z.
Proof.
  destruct (path_discovery_ranked ranked_graph 4 2) as [Hsorted Hlen].
  split; [by vm_compute|]. split; [by vm_compute|].
  split; [exact Hsorted|]. apply Hlen. lia.
Defined.

Lemma path_discovery_endpoints_witness :
  exists s t,
    head ["Metal ion"; "Etch"; "Yield"] = Some s /\
    last ["Metal ion"; "Etch"; "Yield"] = Some t /\ s <> t /\
    (exists k, k ∈ source_keywords /\ PyStr.contains k (PyStr.lower s) = true) /\
    (exists k, k ∈ outcome_keywords /\ PyStr.contains k (PyStr.lower t) = true) /\
    NoDup ["Metal ion"; "Etch"; "Yield"] /\
    walk (_build_adjacency line_graph) ["Metal ion"; "Etch"; "Yield"] /\
    (2 <= Z.of_nat (length ["Metal ion"; "Etch"; "Yield"]) <= 4)%Z.
Proof.
  apply (path_discovery_endpoints line_graph 4 5 ["Metal ion"; "Etch"; "Yield"]).
  vm_compute. left.
Defined.

Lemma path_discovery_few_hops_witness :
  path_discovery direct_graph 1 5 = [] /\
  path_discovery direct_graph 2 5 = [["Metal ion"; "Yield"]].
Proof.
  split; [apply (path_discovery_few_hops direct_graph 1 5); lia|by vm_compute].
Defined.

End PathFinderFacts.

(** ** The regular-expression matcher: what a match means *)

Module ReFacts.
Import PyStr PyStrOps Re.
Local Open Scope string_scope.

(** Every character of [s] is in the class [c]. *)
Fixpoint all_in (c : ascii -> bool) (s : string) : bool :=
  match s with
  | EmptyString => true
  | String x s' => c x && all_in c s'
  end.

(** [run r s s' new]: [r] can consume a prefix of [s] leaving [s'], binding
    the groups [new], the most recent first. *)
Fixpoint run (r : Re.t) (s s' : string) (new : captures) : Prop :=
  match r with
  | Lit l => s = l ++ s' /\ new = []
  | Cls c => (exists x, s = String x s' /\ c x = true) /\ new = []
  | Star c => (exists pre, s = pre ++ s' /\ all_in c pre = true) /\ new = []
  | Seq a b =>
      exists s1 n1 n2, run a s s1 n1 /\ run b s1 s' n2 /\ new = (n2 ++ n1)%list
  | Alt a b => run a s s' new \/ run b s s' new
  | Opt a => run a s s' new \/ (s' = s /\ new = [])
  | Group n a => exists pre n1, run a s s' n1 /\ s = pre ++ s' /\ new = (n, pre) :: n1
  end.

Lemma append_cons x (a b : string) : String x a ++ b = String x (a ++ b).
Proof. reflexivity. Qed.

Lemma append_nil_l (b : string) : EmptyString ++ b = b.
Proof. reflexivity. Qed.

(** [simpl] leaves [++] on strings alone. *)
Ltac str_simpl := simpl; rewrite ?append_cons, ?append_nil_l; simpl.

Lemma append_assoc (a b c : string) : (a ++ b) ++ c = a ++ (b ++ c).
Proof. induction a as [|x a IH]; str_simpl; [done|]. by rewrite IH. Qed.

Lemma append_nil_r (a : string) : a ++ EmptyString = a.
Proof. induction a as [|x a IH]; str_simpl; [done|]. by rewrite IH. Qed.

Lemma length_append (a b : string) :
  String.length (a ++ b) = (String.length a + String.length b)%nat.
Proof. induction a as [|x a IH]; str_simpl; [done|]. by rewrite IH. Qed.

Lemma startswith_append l s' : startswith l (l ++ s') = true.
Proof. induction l as [|x l IH]; str_simpl; [done|]. by rewrite Ascii.eqb_refl. Qed.

Lemma startswith_split l s :
  startswith l s = true -> s = l ++ drop_chars (String.length l) s.
Proof.
  revert s. induction l as [|x l IH]; intros s; str_simpl; [by destruct s|].
  destruct s as [|y s]; [done|]. destruct (Ascii.eqb_spec x y) as [->|]; [|done].
  intros H. f_equal. by apply IH.
Qed.

Lemma drop_chars_append l s' : drop_chars (String.length l) (l ++ s') = s'.
Proof. induction l as [|x l IH]; str_simpl; [by destruct s'|done]. Qed.

Lemma take_chars_append pre s' :
  take_chars (String.length (pre ++ s') - String.length s') (pre ++ s') = pre.
Proof.
  rewrite length_append.
  replace (String.length pre + String.length s' - String.length s')%nat
    with (String.length pre) by lia.
  induction pre as [|x pre IH]; str_simpl; [by destruct s'|]. by rewrite IH.
Qed.

(** What a match leaves is a suffix of the text. *)
Lemma run_suffix r : forall s s' new, run r s s' new -> exists pre, s = pre ++ s'.
Proof.
  induction r as [l|c|c|a IHa b IHb|a IHa b IHb|a IHa|n a IHa]; intros s s' new; simpl.
  - intros [-> _]. by exists l.
  - intros [(x & -> & _) _]. by exists (String x EmptyString).
  - intros [(pre & -> & _) _]. by exists pre.
  - intros (s1 & n1 & n2 & Ha & Hb & _).
    apply IHa in Ha as (p1 & ->). apply IHb in Hb as (p2 & ->).
    exists (p1 ++ p2). by rewrite append_assoc.
  - intros [H|H]; eauto.
  - intros [H|[-> _]]; [eauto|by exists EmptyString].
  - intros (pre & _ & _ & -> & _). by exists pre.
Qed.

Lemma star_sound {R : Type} c s (k : string -> option R) m :
  star c s k = Some m ->
  exists pre s', s = pre ++ s' /\ all_in c pre = true /\ k s' = Some m.
Proof.
  induction s as [|x s IH]; simpl.
  - intros H. by exists EmptyString, EmptyString.
  - destruct (c x) eqn:Ec; [|intros H; by exists EmptyString, (String x s)].
    destruct (star c s k) as [m'|] eqn:Es.
    + intros [= <-]. destruct (IH eq_refl) as (pre & s' & -> & Hp & Hk).
      exists (String x pre), s'. simpl. by rewrite Ec, Hp.
    + intros H. by exists EmptyString, (String x s).
Qed.

Lemma star_complete {R : Type} c pre s' (k : string -> option R) :
  all_in c pre = true -> k s' <> None -> star c (pre ++ s') k <> None.
Proof.
  intros Hp Hk. induction pre as [|x pre IH]; simpl in Hp; rewrite ?append_cons, ?append_nil_l.
  - destruct s' as [|y s']; simpl; [done|].
    destruct (c y); [|done]. by destruct (star c s' k).
  - apply andb_true_iff in Hp as [Hx Hp]. simpl. rewrite Hx.
    destruct (star c (pre ++ s') k) eqn:E; [done|]. by apply IH in Hp.
Qed.

(** The matcher finds only matches... *)
Lemma exec_sound r : forall s cs k m,
  exec r s cs k = Some m ->
  exists s' new, run r s s' new /\ k s' (new ++ cs)%list = Some m.
Proof.
  induction r as [l|c|c|a IHa b IHb|a IHa b IHb|a IHa|n a IHa]; intros s cs k m; simpl.
  - destruct (startswith l s) eqn:E; [|done]. intros H.
    exists (drop_chars (String.length l) s), []. split; [|done].
    split; [by apply startswith_split|done].
  - destruct s as [|x s]; [done|]. destruct (c x) eqn:E; [|done]. intros H.
    exists s, []. split; [|done]. split; [by exists x|done].
  - intros H. apply star_sound in H as (pre & s' & -> & Hp & Hk).
    exists s', []. split; [|done]. split; [by exists pre|done].
  - intros H. apply IHa in H as (s1 & n1 & Ha & H).
    apply IHb in H as (s' & n2 & Hb & H).
    exists s', (n2 ++ n1)%list. split; [by exists s1, n1, n2|].
    by rewrite <- app_assoc.
  - destruct (exec a s cs k) as [m'|] eqn:E.
    + intros [= <-]. apply IHa in E as (s' & new & Ha & H). exists s', new. by split; [left|].
    + intros H. apply IHb in H as (s' & new & Hb & H). exists s', new. by split; [right|].
  - destruct (exec a s cs k) as [m'|] eqn:E.
    + intros [= <-]. apply IHa in E as (s' & new & Ha & H). exists s', new. by split; [left|].
    + intros H. exists s, []. by split; [right|].
  - intros H. apply IHa in H as (s' & n1 & Ha & H).
    destruct (run_suffix _ _ _ _ Ha) as (pre & ->).
    rewrite take_chars_append in H.
    exists s', ((n, pre) :: n1). split; [by exists pre, n1|done].
Qed.

(** ... and misses none: it fails only if every way of matching does. *)
Lemma exec_complete r : forall s s' new k,
  run r s s' new -> (forall cs', k s' cs' <> None) ->
  forall cs, exec r s cs k <> None.
Proof.
  induction r as [l|c|c|a IHa b IHb|a IHa b IHb|a IHa|n a IHa];
    intros s s' new k; simpl.
  - intros [-> _] Hk cs. by rewrite startswith_append, drop_chars_append.
  - intros [(x & -> & ->) _] Hk cs. apply Hk.
  - intros [(pre & -> & Hp) _] Hk cs. by apply star_complete.
  - intros (s1 & n1 & n2 & Ha & Hb & _) Hk cs.
    eapply IHa; [exact Ha|]. intros cs'. by eapply IHb.
  - intros [Ha|Hb] Hk cs.
    + destruct (exec a s cs k) eqn:E; [done|]. by eapply IHa in E.
    + destruct (exec a s cs k) eqn:E; [done|]. by eapply IHb.
  - intros [Ha|[-> _]] Hk cs.
    + destruct (exec a s cs k) eqn:E; [done|]. by eapply IHa in E.
    + by destruct (exec a s cs k).
  - intros (pre & n1 & Ha & _ & _) Hk cs.
    eapply IHa; [exact Ha|]. intros cs'. apply Hk.
Qed.

Lemma match_at_sound r s m : match_at r s = Some m -> exists s', run r s s' m.
Proof.
  unfold match_at. intros H. apply exec_sound in H as (s' & new & Hr & [= <-]).
  rewrite app_nil_r. by exists s'.
Qed.

Lemma match_at_complete r s s' new : run r s s' new -> match_at r s <> None.
Proof. intros H. unfold match_at. by eapply exec_complete. Qed.

Lemma search_sound r t m :
  search r t = Some m -> exists pre s, t = pre ++ s /\ match_at r s = Some m.
Proof.
  induction t as [|x t IH]; simpl.
  - destruct (match_at r EmptyString) eqn:E; [|done].
    intros [= <-]. by exists EmptyString, EmptyString.
  - destruct (match_at r (String x t)) eqn:E.
    + intros [= <-]. by exists EmptyString, (String x t).
    + intros H. destruct (IH H) as (pre & s & -> & Hm). by exists (String x pre), s.
Qed.

Lemma search_complete r pre s : match_at r s <> None -> search r (pre ++ s) <> None.
Proof.
  intros Hm. induction pre as [|x pre IH]; simpl.
  - destruct s; simpl; by destruct (match_at r _).
  - by destruct (match_at r (String x (pre ++ s))).
Qed.

Lemma all_in_append p a b : all_in p (a ++ b) = all_in p a && all_in p b.
Proof.
  induction a as [|x a IH]; str_simpl; [done|]. by rewrite IH, andb_assoc.
Qed.

Lemma append_inv_r (a b s : string) : a ++ s = b ++ s -> a = b.
Proof.
  intros E. assert (L : String.length a = String.length b).
  { apply (f_equal String.length) in E. rewrite !length_append in E. lia. }
  revert b E L. induction a as [|x a IH]; intros [|y b]; str_simpl; try done.
  intros [= -> E] [= L]. f_equal. by apply IH.
Qed.

(** A group around [c+] captures characters of [c]. *)
Lemma run_plus_prefix c s s' new pre :
  run (Plus c) s s' new -> s = pre ++ s' -> all_in c pre = true.
Proof.
  unfold Plus. cbn [run].
  intros (s1 & n1 & n2 & [(x & -> & Hx) _] & [(p0 & -> & Hp) _] & _) E.
  change (String x (p0 ++ s')) with (String x p0 ++ s') in E.
  apply append_inv_r in E as <-. simpl. by rewrite Hx, Hp.
Qed.

(** Every group of [r] captures only strings with [P]. *)
Fixpoint groups_in (P : nat -> string -> Prop) (r : Re.t) : Prop :=
  match r with
  | Group n a =>
      (forall s s' new pre, run a s s' new -> s = pre ++ s' -> P n pre) /\ groups_in P a
  | Seq a b | Alt a b => groups_in P a /\ groups_in P b
  | Opt a => groups_in P a
  | Lit _ | Cls _ | Star _ => True
  end.

Lemma run_groups P r : forall s s' new,
  groups_in P r -> run r s s' new -> Forall (fun b => P b.1 b.2) new.
Proof.
  induction r as [l|c|c|a IHa b IHb|a IHa b IHb|a IHa|n a IHa]; intros s s' new; simpl.
  - intros _ [_ ->]. constructor.
  - intros _ [_ ->]. constructor.
  - intros _ [_ ->]. constructor.
  - intros [Ha Hb] (s1 & n1 & n2 & Ra & Rb & ->). apply Forall_app. split; eauto.
  - intros [Ha Hb] [R|R]; eauto.
  - intros Ha [R|[_ ->]]; [eauto|constructor].
  - intros [Hn Ha] (pre & n1 & R & E & ->). constructor; [simpl; eauto|eauto].
Qed.

(** What is captured from a text over the class [p] is over [p]. *)
Lemma run_all_in p r : forall s s' new,
  run r s s' new -> all_in p s = true ->
  all_in p s' = true /\ Forall (fun b => all_in p b.2 = true) new.
Proof.
  induction r as [l|c|c|a IHa b IHb|a IHa b IHb|a IHa|n a IHa]; intros s s' new; simpl.
  - intros [-> ->]. rewrite all_in_append. intros [_ H]%andb_true_iff. by split.
  - intros [(x & -> & _) ->]. simpl. intros [_ H]%andb_true_iff. by split.
  - intros [(pre & -> & _) ->]. rewrite all_in_append. intros [_ H]%andb_true_iff. by split.
  - intros (s1 & n1 & n2 & Ra & Rb & ->) H.
    destruct (IHa _ _ _ Ra H) as [H1 F1]. destruct (IHb _ _ _ Rb H1) as [H2 F2].
    split; [done|]. apply Forall_app. by split.
  - intros [R|R]; eauto.
  - intros [R|[-> ->]]; [eauto|]. by split.
  - intros (pre & n1 & R & -> & ->) H. destruct (IHa _ _ _ R H) as [H1 F1].
    split; [done|]. constructor; [|done]. simpl.
    rewrite all_in_append in H. by apply andb_true_iff in H as [H _].
Qed.

Lemma search_captures P p r text m :
  groups_in P r -> all_in p text = true -> search r text = Some m ->
  Forall (fun b => P b.1 b.2 /\ all_in p b.2 = true) m.
Proof.
  intros Hg Hp H. apply search_sound in H as (pre & s & -> & H).
  apply match_at_sound in H as (s' & H).
  rewrite all_in_append in Hp. apply andb_true_iff in Hp as [_ Hp].
  pose proof (run_groups P r _ _ _ Hg H) as F1.
  destruct (run_all_in p r _ _ _ H Hp) as [_ F2].
  rewrite Forall_forall in F1, F2. apply Forall_forall. intros b Hb. split; eauto.
Qed.

Lemma group_Forall (Q : nat -> string -> Prop) m n :
  Forall (fun b => Q b.1 b.2) m -> Q n EmptyString -> Q n (group n m).
Proof.
  intros F H0. induction F as [|[n' v] m Hb F IH]; simpl; [done|].
  destruct (Nat.eqb_spec n n') as [->|_]; [exact Hb|exact IH].
Qed.

End ReFacts.

Module CypherFacts.
Import PyStr PyStrOps Re ReFacts Cypher.
Local Open Scope string_scope.

Lemma rule2_head s s' m :
  run rule2 s s' m ->
  exists verb sp x rest,
    (verb = "find" \/ verb = "show" \/ verb = "get") /\
    s = verb ++ sp ++ String x rest /\
    sp <> EmptyString /\ all_in space sp = true /\ word x = true.
Proof.
  unfold rule2. cbn [run seq alt Plus].
  intros (s1 & n1 & n2 & Hverb & (s2 & n3 & n4 & Hsp &
            (s3 & n5 & n6 & Hnodes & (s4 & n7 & n8 & Hwhere &
               (s5 & n9 & n10 & Hg1 & _) & _) & _) & _) & _).
  destruct Hsp as (t1 & ? & ? & [(y & -> & Hy) _] & [(sp & -> & Hsp) _] & _).
  destruct Hg1 as (g1 & ? & (t2 & ? & ? & [(c1 & Hc1 & Hw) _] & _) & _).
  assert (Hs2 : exists x' rest, s2 = String x' rest /\ word x' = true).
  { destruct Hnodes as [(? & ? & ? & [-> _] & _)|[-> _]]; [by eexists _, _|].
    destruct Hwhere as [(? & ? & ? & [-> _] & _)|[-> _]]; [by eexists _, _|].
    by exists c1, t2. }
  destruct Hs2 as (x' & rest & -> & Hx').
  assert (Hv : exists verb, (verb = "find" \/ verb = "show" \/ verb = "get") /\
                s = verb ++ String y (sp ++ String x' rest)).
  { destruct Hverb as [[-> _]|[[-> _]|[-> _]]]; eexists; (split; [|reflexivity]); tauto. }
  destruct Hv as (verb & Hv & ->).
  exists verb, (String y sp), x', rest. repeat split; try done.
  simpl. by rewrite Hy, Hsp.
Qed.

Lemma rule1_of_head verb sp x rest :
  (verb = "find" \/ verb = "show" \/ verb = "get") ->
  sp <> EmptyString -> all_in space sp = true -> word x = true ->
  exists s' new, run rule1 (verb ++ sp ++ String x rest) s' new.
Proof.
  intros Hv Hne Hsp Hx. destruct sp as [|y sp]; [done|].
  simpl in Hsp. apply andb_true_iff in Hsp as [Hy Hsp].
  exists rest, [(2, String x EmptyString); (1, verb)].
  unfold rule1. cbn [run seq alt Plus].
  exists (String y sp ++ String x rest), [(1, verb)], [(2, String x EmptyString)].
  split; [|split; [|done]].
  { exists verb, []. split; [|done]. destruct Hv as [ -> | [ -> | -> ] ]; tauto. }
  exists (String x rest), [], [(2, String x EmptyString)].
  split; [|split; [|done]].
  { exists (sp ++ String x rest), [], []. split; [|split; [|done]].
    - split; [|done]. by exists y.
    - split; [|done]. by exists sp. }
  exists (String x rest), [], [(2, String x EmptyString)].
  split; [by right|]. split; [|done].
  exists (String x rest), [], [(2, String x EmptyString)].
  split; [by right|]. split; [|done].
  exists (String x rest), [], [(2, String x EmptyString)].
  split; [by right|]. split; [|done].
  exists (String x EmptyString), []. split; [|done].
  exists rest, [], []. split; [|split; [|done]].
  - split; [|done]. by exists x.
  - split; [|done]. by exists EmptyString.
Qed.

(** X16: rule 2 of the generator (property equals value after a verb) is
    never applied: whenever its pattern is found in a text, the pattern of
    rule 1 is found as well, and rule 1 is tried first. *)
Theorem rule2_shadowed (text : string) (m : captures) :
  search rule2 text = Some m -> exists m1, search rule1 text = Some m1.
Proof.
  intros H. apply search_sound in H as (pre & s & -> & H).
  apply match_at_sound in H as (s' & H).
  apply rule2_head in H as (verb & sp & x & rest & Hv & -> & Hne & Hsp & Hx).
  destruct (rule1_of_head verb sp x rest Hv Hne Hsp Hx) as (s1 & new & Hr).
  apply match_at_complete in Hr. apply (search_complete _ pre) in Hr.
  destruct (search rule1 _) as [m1|]; [by exists m1|done].
Qed.

Lemma rule2_shadowed_witness :
  exists m1, search rule1 "find where name = pump" = Some m1.
Proof.
  apply (rule2_shadowed "find where name = pump" [(2, "pump"); (1, "name")]).
  vm_compute. reflexivity.
Defined.

Example rule2_text_takes_rule1 :
  text_to_cypher_simple "find where name = pump" = "MATCH (n:`where`) RETURN n LIMIT 200".
Proof. vm_compute. reflexivity. Qed.

(** *** Texts without a backslash give closed literals *)

Definition not_backslash (c : ascii) : bool := negb (Ascii.eqb c "\").

(** The scan may be cut after [a] when the last character of [a] is
    neither a slash nor a star, the two characters for which the scan looks
    at the next one. *)
Fixpoint safe_end (a : string) : bool :=
  match a with
  | EmptyString => true
  | String c EmptyString => negb (Ascii.eqb c "/" || Ascii.eqb c "*")
  | String _ a' => safe_end a'
  end.

Lemma lex_app st a b :
  safe_end a = true -> lex_from st (a ++ b) = lex_from (lex_from st a) b.
Proof.
  revert st. induction a as [|c a IH]; intros st Ha; [done|].
  rewrite append_cons. cbn [lex_from].
  assert (E : lex_step st c (a ++ b) = lex_step st c a).
  { destruct a as [|d a]; [|done].
    simpl in Ha. apply negb_true_iff, orb_false_iff in Ha as [H1 H2].
    destruct st as [|q [|]| | | | |]; simpl; by rewrite ?H1, ?H2. }
  rewrite E. apply IH. destruct a; [done|exact Ha].
Qed.

Lemma word_inert c :
  word c = true ->
  quote c = false /\ Ascii.eqb c "`" = false /\
  Ascii.eqb c "/" = false /\ Ascii.eqb c "\" = false.
Proof. destruct c as [[] [] [] [] [] [] [] []]; vm_compute; intuition congruence. Qed.

Lemma lex_code_word w rest :
  all_in word w = true -> lex_from Code (w ++ rest) = lex_from Code rest.
Proof.
  induction w as [|c w IH]; [done|]. intros H. simpl in H. apply andb_true_iff in H as [Hc Hw].
  rewrite append_cons. cbn [lex_from lex_step].
  destruct (word_inert c Hc) as (-> & -> & -> & _). simpl. by apply IH.
Qed.

Lemma lex_backquoted_word w rest :
  all_in word w = true -> lex_from Backquoted (w ++ rest) = lex_from Backquoted rest.
Proof.
  induction w as [|c w IH]; [done|]. intros H. simpl in H. apply andb_true_iff in H as [Hc Hw].
  rewrite append_cons. cbn [lex_from lex_step].
  destruct (word_inert c Hc) as (_ & -> & _). by apply IH.
Qed.

Lemma lex_quoted_word w rest :
  all_in word w = true ->
  lex_from (Quoted "'" false) (w ++ rest) = lex_from (Quoted "'" false) rest.
Proof.
  induction w as [|c w IH]; [done|]. intros H. simpl in H. apply andb_true_iff in H as [Hc Hw].
  rewrite append_cons. cbn [lex_from lex_step].
  destruct (word_inert c Hc) as (Hq & _ & _ & ->).
  unfold quote in Hq. apply orb_false_iff in Hq as [-> _]. by apply IH.
Qed.

Lemma escape_cons c v :
  _escape_cypher_string (String c v)
  = if Ascii.eqb c "'" then String "\" (String "'" (_escape_cypher_string v))
    else String c (_escape_cypher_string v).
Proof.
  unfold _escape_cypher_string, replace.
  destruct c as [[] [] [] [] [] [] [] []]; reflexivity.
Qed.

Lemma lower_char_inert c :
  Ascii.eqb c "'" = false -> Ascii.eqb c "\" = false ->
  Ascii.eqb (lower_char c) "'" = false /\ Ascii.eqb (lower_char c) "\" = false.
Proof. destruct c as [[] [] [] [] [] [] [] []]; vm_compute; intuition congruence. Qed.

(** An escaped value without a backslash of its own does not end the
    literal it is put in. *)
Lemma lex_quoted_escaped v rest :
  all_in not_backslash v = true ->
  lex_from (Quoted "'" false) (lower (_escape_cypher_string v) ++ rest)
  = lex_from (Quoted "'" false) rest.
Proof.
  induction v as [|c v IH]; [done|]. intros H. simpl in H.
  apply andb_true_iff in H as [Hc Hv]. rewrite escape_cons. destruct (Ascii.eqb c "'") eqn:Eq.
  - cbn [lower]. rewrite !append_cons. cbn [lex_from].
    change (lower_char "\") with "\"%char. change (lower_char "'") with "'"%char.
    cbn [lex_step]. simpl. by apply IH.
  - cbn [lower]. rewrite append_cons. cbn [lex_from lex_step].
    apply negb_true_iff in Hc.
    destruct (lower_char_inert c Eq Hc) as [-> ->]. by apply IH.
Qed.

Lemma all_digits_word v : all_digits v = true -> all_in word v = true.
Proof.
  induction v as [|c v IH]; [done|]. simpl. intros [Hc Hv]%andb_true_iff.
  rewrite IH by done. unfold word. rewrite Hc. by rewrite !orb_true_r.
Qed.

Lemma isdigit_word v : isdigit v = true -> all_in word v = true.
Proof. unfold isdigit. intros [_ H]%andb_true_iff. by apply all_digits_word. Qed.

Ltac lex_lit st lit :=
  rewrite (lex_app st lit) by reflexivity;
  let v := eval vm_compute in (lex_from st lit) in
  change (lex_from st lit) with v.

Lemma label_scan_closed l : all_in word l = true -> literals_closed (label_scan l) = true.
Proof.
  intros Hl. unfold literals_closed, label_scan.
  lex_lit Code "MATCH (n:`". by rewrite lex_backquoted_word.
Qed.

Lemma count_by_label_closed l :
  all_in word l = true -> literals_closed (count_by_label l) = true.
Proof.
  intros Hl. unfold literals_closed, count_by_label.
  lex_lit Code "MATCH (n:`". by rewrite lex_backquoted_word.
Qed.

Lemma property_scan_closed prop g :
  all_in word prop = true -> all_in not_backslash g = true ->
  literals_closed (property_scan prop (_escape_cypher_string g)) = true.
Proof.
  intros Hp Hg. unfold literals_closed, property_scan.
  destruct (isdigit (_escape_cypher_string g)) eqn:Ed.
  - apply isdigit_word in Ed.
    lex_lit Code "MATCH (n) WHERE coalesce(n.". rewrite lex_code_word by done.
    lex_lit Code ", '') = ". rewrite lex_code_word by done.
    lex_lit Code " OR toString(n.". rewrite lex_code_word by done.
    lex_lit Code ") = '". by rewrite lex_quoted_word.
  - lex_lit Code "MATCH (n) WHERE toLower(coalesce(n.". rewrite lex_code_word by done.
    lex_lit Code ", '')) = '". by rewrite lex_quoted_escaped.
Qed.

Lemma generic_scan_closed prop g :
  all_in word prop = true -> all_in not_backslash g = true ->
  literals_closed (generic_scan prop (_escape_cypher_string g)) = true.
Proof.
  intros Hp Hg. unfold literals_closed, generic_scan.
  destruct (isdigit (_escape_cypher_string g)) eqn:Ed.
  - apply isdigit_word in Ed.
    lex_lit Code "MATCH (n) WHERE n.". rewrite lex_code_word by done.
    lex_lit Code " = ". by rewrite lex_code_word.
  - lex_lit Code "MATCH (n) WHERE toLower(coalesce(n.". rewrite lex_code_word by done.
    lex_lit Code ", '')) = '". by rewrite lex_quoted_escaped.
Qed.

Lemma neighbors_query_closed g :
  all_in not_backslash g = true ->
  literals_closed (neighbors_query (_escape_cypher_string g)) = true.
Proof.
  intros Hg. unfold literals_closed, neighbors_query.
  lex_lit Code "MATCH (n) WHERE toLower(coalesce(n.name,'')) = '".
  rewrite lex_quoted_escaped by done.
  lex_lit (Quoted "'" false) "' OR toLower(coalesce(n.id,'')) = '".
  rewrite lex_quoted_escaped by done.
  lex_lit (Quoted "'" false) "' ". reflexivity.
Qed.

Lemma path_query_closed ga gb :
  all_in not_backslash ga = true -> all_in not_backslash gb = true ->
  literals_closed (path_query (_escape_cypher_string ga) (_escape_cypher_string gb)) = true.
Proof.
  intros Ha Hb. unfold literals_closed, path_query.
  lex_lit Code "MATCH (a), (b) WHERE (toLower(coalesce(a.name,'')) = '".
  rewrite lex_quoted_escaped by done.
  lex_lit (Quoted "'" false) "' OR toLower(coalesce(a.id,'')) = '".
  rewrite lex_quoted_escaped by done.
  lex_lit (Quoted "'" false) "') ".
  lex_lit Code "AND (toLower(coalesce(b.name,'')) = '".
  rewrite lex_quoted_escaped by done.
  lex_lit (Quoted "'" false) "' OR toLower(coalesce(b.id,'')) = '".
  rewrite lex_quoted_escaped by done.
  lex_lit (Quoted "'" false) "') ". reflexivity.
Qed.

Lemma all_in_lstrip p q s : all_in p s = true -> all_in p (lstrip_with q s) = true.
Proof.
  induction s as [|c s IH]; [done|]. intros H. simpl.
  destruct (q c); [|done]. simpl in H. apply andb_true_iff in H as [_ H]. by apply IH.
Qed.

Lemma all_in_rstrip p q s : all_in p s = true -> all_in p (rstrip_with q s) = true.
Proof.
  induction s as [|c s IH]; [done|]. intros H. simpl in H.
  apply andb_true_iff in H as [Hc H]. specialize (IH H). simpl.
  destruct (rstrip_with q s) as [|d r].
  - destruct (q c); [done|]. simpl. by rewrite Hc.
  - simpl in *. by rewrite Hc.
Qed.

Lemma not_backslash_lower_char c :
  not_backslash c = true -> not_backslash (lower_char c) = true.
Proof. destruct c as [[] [] [] [] [] [] [] []]; vm_compute; congruence. Qed.

Lemma not_backslash_lower s :
  all_in not_backslash s = true -> all_in not_backslash (lower s) = true.
Proof.
  induction s as [|c s IH]; [done|]. intros H. simpl in H.
  apply andb_true_iff in H as [Hc H]. cbn [lower all_in].
  by rewrite not_backslash_lower_char, IH.
Qed.

(** What the groups of each rule hold. *)
Definition word_group (k : nat) (n : nat) (v : string) : Prop :=
  n = k -> all_in word v = true.

Ltac groups_tac :=
  cbn [groups_in seq alt]; unfold Plus; cbn [groups_in]; repeat split;
  unfold word_group; intros; try done; try discriminate;
  try (eapply run_plus_prefix; eauto).

Lemma rule1_groups : groups_in (word_group 2) rule1.
Proof. unfold rule1. groups_tac. Qed.
Lemma rule2_groups : groups_in (word_group 1) rule2.
Proof. unfold rule2. groups_tac. Qed.
Lemma rule5_groups : groups_in (word_group 1) rule5.
Proof. unfold rule5. groups_tac. Qed.
Lemma rule6_groups : groups_in (word_group 1) rule6.
Proof. unfold rule6. groups_tac. Qed.
Lemma any_groups r : groups_in (fun _ _ => True) r.
Proof. induction r; simpl; auto. Qed.

Lemma search_group P r text m n :
  groups_in P r -> all_in not_backslash text = true -> search r text = Some m ->
  P n EmptyString ->
  P n (group n m) /\ all_in not_backslash (group n m) = true.
Proof.
  intros Hg Ht Hs H0.
  pose proof (search_captures P not_backslash r text m Hg Ht Hs) as F.
  by apply (group_Forall (fun n v => P n v /\ all_in not_backslash v = true)).
Qed.

Lemma closed_is_not_hint (out : string) :
  literals_closed out = true ->
  (literals_closed out = true <-> out <> safe_hint).
Proof.
  intros H. split; [|done]. intros _ E. rewrite E in H. by vm_compute in H.
Qed.

(** X17: for a text without a backslash, the query text returned has all
    its string literals and back-quoted names closed exactly when it is not
    the hint returned when no rule matches.  In the texts of the rules the
    captured words hold nothing that ends a name or starts a literal, and an
    embedded single quote is escaped; the hint itself holds an odd number of
    single quotes outside any comment and so leaves a literal open. *)
Theorem no_backslash_closed (nl : string) :
  all_in not_backslash nl = true ->
  (literals_closed (text_to_cypher_simple nl) = true
   <-> text_to_cypher_simple nl <> safe_hint).
Proof.
  intros Hnl. unfold text_to_cypher_simple.
  destruct (is_empty nl || is_empty (strip nl)); [by apply closed_is_not_hint|].
  assert (Ht : all_in not_backslash (lower (strip nl)) = true).
  { apply not_backslash_lower. unfold strip, strip_with.
    by apply all_in_rstrip, all_in_lstrip. }
  set (text := lower (strip nl)) in *.
  destruct (search rule1 text) as [m|] eqn:E1.
  { destruct (search_group _ _ _ _ 2 rule1_groups Ht E1) as [Hw _]; [done|].
    apply closed_is_not_hint, label_scan_closed. by apply Hw. }
  destruct (search rule2 text) as [m|] eqn:E2.
  { destruct (search_group _ _ _ _ 1 rule2_groups Ht E2) as [Hw _]; [done|].
    destruct (search_group _ _ _ _ 2 rule2_groups Ht E2) as [_ Hb]; [done|].
    apply closed_is_not_hint, property_scan_closed; [by apply Hw|done]. }
  destruct (search rule3 text) as [m|] eqn:E3.
  { destruct (search_group _ _ _ _ 1 (any_groups rule3) Ht E3) as [_ Hb]; [done|].
    by apply closed_is_not_hint, neighbors_query_closed. }
  destruct (search rule4 text) as [m|] eqn:E4.
  { destruct (search_group _ _ _ _ 1 (any_groups rule4) Ht E4) as [_ Ha]; [done|].
    destruct (search_group _ _ _ _ 2 (any_groups rule4) Ht E4) as [_ Hb]; [done|].
    by apply closed_is_not_hint, path_query_closed. }
  destruct (search rule5 text) as [m|] eqn:E5.
  { destruct (search_group _ _ _ _ 1 rule5_groups Ht E5) as [Hw _]; [done|].
    apply closed_is_not_hint, count_by_label_closed. by apply Hw. }
  destruct (search rule6 text) as [m|] eqn:E6.
  { destruct (search_group _ _ _ _ 1 rule6_groups Ht E6) as [Hw _]; [done|].
    destruct (search_group _ _ _ _ 2 rule6_groups Ht E6) as [_ Hb]; [done|].
    apply closed_is_not_hint, generic_scan_closed; [by apply Hw|done]. }
  split; [by vm_compute|done].
Qed.

(** A quote in the value is escaped and the literal is closed; a text that
    no rule matches gets the hint, which leaves a literal open. *)
Lemma no_backslash_closed_witness :
  literals_closed (text_to_cypher_simple "status is o'brien") = true /\
  text_to_cypher_simple "hello" = safe_hint /\
  literals_closed (text_to_cypher_simple "hello") <> true.
Proof.
  split; [|split].
  - apply (no_backslash_closed "status is o'brien"); [reflexivity|by vm_compute].
  - by vm_compute.
  - intros H. apply (no_backslash_closed "hello") in H; [|reflexivity].
    apply H. by vm_compute.
Defined.

(** The inverse of the escape: a backslash right before a single quote is
    taken out. *)
Fixpoint unescape (s : string) : string :=
  match s with
  | EmptyString => EmptyString
  | String c s' =>
      match s' with
      | String d s'' =>
          if Ascii.eqb c "\" && Ascii.eqb d "'" then String d (unescape s'')
          else String c (unescape s')
      | EmptyString => String c EmptyString
      end
  end.

(** The number of single quotes of a text. *)
Fixpoint quotes (s : string) : nat :=
  match s with
  | EmptyString => 0
  | String c s' => (if Ascii.eqb c "'" then 1 else 0) + quotes s'
  end.

Lemma escape_head s d e :
  _escape_cypher_string s = String d e -> Ascii.eqb d "'" = false.
Proof.
  destruct s as [|c s]; [done|]. rewrite escape_cons.
  destruct c as [[] [] [] [] [] [] [] []]; by intros [= <- _].
Qed.

(** X18: [_escape_cypher_string] puts one backslash before every single
    quote and changes nothing else.  In its result every single quote comes
    right after a backslash; taking out the backslash before each single
    quote gives the text back, so no character is lost or changed; the
    result is longer than the text by the number of its single quotes, so a
    text without a single quote is returned as it is. *)
Theorem escape_cypher_string_spec (s : string) :
  (forall i, String.get i (_escape_cypher_string s) = Some "'"%char ->
     exists j, i = S j /\ String.get j (_escape_cypher_string s) = Some "\"%char) /\
  unescape (_escape_cypher_string s) = s /\
  String.length (_escape_cypher_string s) = (String.length s + quotes s)%nat /\
  (quotes s = 0%nat -> _escape_cypher_string s = s).
Proof.
  split; [|split; [|split]].
  - induction s as [|c s IH]; intros i; [by destruct i|].
    rewrite escape_cons. destruct (Ascii.eqb_spec c "'") as [->|Hc].
    + destruct i as [|[|i]]; simpl; [done|by exists 0%nat|].
      intros H. destruct (IH i H) as (j & -> & Hj). by exists (S (S j)).
    + destruct i as [|i]; simpl; [congruence|].
      intros H. destruct (IH i H) as (j & -> & Hj). by exists (S j).
  - induction s as [|c s IH]; [done|].
    rewrite escape_cons. destruct (Ascii.eqb_spec c "'") as [->|Hc].
    + cbn [unescape]. simpl. by rewrite IH.
    + cbn [unescape]. destruct (_escape_cypher_string s) as [|d e] eqn:Ee.
      * destruct s as [|c' s]; [done|]. rewrite escape_cons in Ee.
        by destruct (Ascii.eqb c' "'").
      * rewrite <- IH. by rewrite (escape_head s d e Ee), andb_false_r.
  - induction s as [|c s IH]; [done|].
    rewrite escape_cons. simpl. destruct (Ascii.eqb c "'"); simpl; rewrite IH; lia.
  - induction s as [|c s IH]; [done|]. simpl.
    rewrite escape_cons. destruct (Ascii.eqb c "'"); [done|].
    intros H. f_equal. by apply IH.
Qed.

Lemma escape_cypher_string_spec_witness :
  _escape_cypher_string "o'brien's" = "o\'brien\'s" /\
  unescape (_escape_cypher_string "o'brien's") = "o'brien's" /\
  String.length (_escape_cypher_string "o'brien's") = 11%nat /\
  _escape_cypher_string "pump-123" = "pump-123".
Proof.
  split; [reflexivity|]. split; [|split].
  - apply (escape_cypher_string_spec "o'brien's").
  - apply (escape_cypher_string_spec "o'brien's").
  - apply (escape_cypher_string_spec "pump-123"). reflexivity.
Defined.

End CypherFacts.

(** ** RetrievalOrchestrator: failures, order and ids *)

From Stdlib Require DecimalNat.

Module OrchestratorFacts.
Import PyStr PyStrOps Orchestrator.

#[local] Arguments Ret {Row A} a.
#[local] Arguments Throw {Row A} e.
#[local] Arguments Await {Row A} k.
#[local] Arguments Append {Row A} c k.
#[local] Arguments Pending {Row A} k.
#[local] Arguments Done {Row A} a.
#[local] Arguments Crashed {Row A} e.

Section OrchestratorFacts.
Context {Row : Type}.
Implicit Types (E : env (Row:=Row)) (st : loop_state (Row:=Row)).

(** *** [text_to_cypher_and_run] *)

(** What step 3 or step 4 binds to [results] for the query [cy]. *)
Definition run_result E (run_query_fn : option (string -> py_result (QueryData (Row:=Row))))
    (cy : string) : QueryData (Row:=Row) :=
  match run_query_fn with
  | Some run =>
      match run cy with
      | Ok d => d
      | Raise e => ErrorDict (exc_str e)
      end
  | None =>
      if neo4j_env E then
        match neo4j_run E cy with
        | Ok rows => Rows rows
        | Raise e => ErrorDict ("neo4j_exec_failed: " ++ exc_str e)%string
        end
      else NoData
  end.

Lemma is_empty_false s : is_empty s = false -> s <> EmptyString.
Proof. by destruct s. Qed.

(** The note once the query has been run. *)
Definition final_note E (run_query_fn : option (string -> py_result (QueryData (Row:=Row))))
    (cy note0 : string) : string :=
  match run_query_fn with
  | Some run =>
      match run cy with
      | Ok _ => note0
      | Raise _ => (note0 ++ " | run_query_fn_failed")%string
      end
  | None =>
      if neo4j_env E then
        match neo4j_run E cy with
        | Ok _ => (note0 ++ " | executed_on_neo4j")%string
        | Raise _ => (note0 ++ " | neo4j_exec_failed")%string
        end
      else note0
  end.

Ltac run_cases E fn cy :=
  unfold run_result, final_note;
  destruct fn as [run|];
    [by destruct (run cy)
    |destruct (neo4j_env E); [by destruct (neo4j_run E cy)|done]].

Lemma text_to_cypher_and_run_shape E nt fn use_llm :
  exists cy note,
    cy <> EmptyString /\
    (text_to_cypher_and_run E nt fn use_llm
     = (if use_llm && groq_api_key E
        then Await (Ret (mkResponse cy (run_result E fn cy) note))
        else Ret (mkResponse cy (run_result E fn cy) note))).
Proof.
  assert (Hrule := Cypher.text_to_cypher_simple_nonempty nt).
  unfold text_to_cypher_and_run, await.
  destruct (use_llm && groq_api_key E); simpl.
  - destruct (llm_translate E nt) as [raw|e]; simpl.
    + destruct (is_empty (clean_llm_cypher raw)) eqn:Ec.
      * exists (Cypher.text_to_cypher_simple nt),
          (final_note E fn (Cypher.text_to_cypher_simple nt) "generated_via_llm").
        split; [done|]. run_cases E fn (Cypher.text_to_cypher_simple nt).
      * exists (clean_llm_cypher raw),
          (final_note E fn (clean_llm_cypher raw) "generated_via_llm").
        split; [by apply is_empty_false|]. run_cases E fn (clean_llm_cypher raw).
    + exists (Cypher.text_to_cypher_simple nt),
        (final_note E fn (Cypher.text_to_cypher_simple nt)
           ("llm_generation_failed: " ++ exc_str e)%string).
      split; [done|].
      destruct (is_empty (Cypher.text_to_cypher_simple nt));
        run_cases E fn (Cypher.text_to_cypher_simple nt).
  - exists (Cypher.text_to_cypher_simple nt),
      (final_note E fn (Cypher.text_to_cypher_simple nt) "generated_via_rule_based").
    split; [done|]. run_cases E fn (Cypher.text_to_cypher_simple nt).
Qed.

(** X19: [text_to_cypher_and_run] never raises and appends no citation,
    whatever the language model, the query function or the database do; the
    query it returns is never empty, and the results it returns are those of
    running that very query. *)
Theorem text_to_cypher_and_run_total E (nt : string)
    (fn : option (string -> py_result QueryData)) (use_llm : bool)
    (cits : list Citation) :
  exists r,
    run_all (text_to_cypher_and_run E nt fn use_llm) cits = (Ok r, cits) /\
    cypher r <> EmptyString /\
    results r = run_result E fn (cypher r).
Proof.
  destruct (text_to_cypher_and_run_shape E nt fn use_llm) as (cy & note & Hcy & ->).
  exists (mkResponse cy (run_result E fn cy) note).
  by destruct (use_llm && groq_api_key E).
Qed.

(** X20: when the language model answers with nothing but a code fence
    (its cleaned answer is empty), the query comes from the rule-based
    generator, yet the note still says [generated_via_llm]. *)
Theorem llm_blank_keeps_note E (nt raw : string)
    (fn : option (string -> py_result QueryData)) :
  groq_api_key E = true ->
  llm_translate E nt = Ok raw ->
  clean_llm_cypher raw = EmptyString ->
  exists r,
    run_all (text_to_cypher_and_run E nt fn true) [] = (Ok r, []) /\
    cypher r = Cypher.text_to_cypher_simple nt /\
    startswith "generated_via_llm" (note r) = true.
Proof.
  intros Hk Hl Hc. unfold text_to_cypher_and_run, await. rewrite Hk, Hl. simpl.
  rewrite Hc. simpl.
  destruct fn as [run|].
  - destruct (run _); eexists; by split.
  - destruct (neo4j_env E); [|eexists; by split].
    destruct (neo4j_run E _); eexists; by split.
Qed.

(** *** The graph task and the web task *)

(** X21: when the graph database is not available, or rejects every
    query, the graph task does not report a failure: as long as the result
    can be serialised, it appends the citation [Graph-1] with the error
    dictionary as its data. *)
Theorem graph_down_is_cited E (query : string) :
  (neo4j_driver E = false \/ forall c, exists e, neo4j_run E c = Raise e) ->
  (forall d, exists j, json_dumps E d = Ok j) ->
  exists cy msg, appended (task_graph E query) = [graph_citation cy (ErrorDict msg)].
Proof.
  intros Hdown Hjson. unfold task_graph.
  destruct (text_to_cypher_and_run_shape E query (Some (run_query_if_neo4j E)) true)
    as (cy & note & _ & ->).
  assert (Hr : exists msg, run_result E (Some (run_query_if_neo4j E)) cy = ErrorDict msg).
  { unfold run_result, run_query_if_neo4j. destruct Hdown as [->|Hrun]; [by eexists|].
    destruct (neo4j_driver E); simpl; [|by eexists].
    destruct (Hrun cy) as [e ->]. by eexists. }
  destruct Hr as [msg ->]. destruct (Hjson (ErrorDict msg)) as [j Hj].
  exists cy, msg. unfold appended.
  destruct (true && groq_api_key E); simpl; by rewrite Hj.
Qed.

(** X22: the web task cites [Web-1] exactly when the search returned a
    text that is not blank, and the citation carries that text as
    returned; a search that raises or returns only white space adds no
    citation. *)
Theorem web_cited_iff E (query : string) :
  appended (task_web E query)
  = match web_search E ("Entegris products and news: " ++ query)%string with
    | Ok t => if is_empty (strip t) then [] else [web_citation t]
    | Raise _ => []
    end.
Proof.
  unfold appended, task_web, search_web_only, await.
  destruct (web_search E _) as [t|e]; simpl; [|done].
  destruct (is_empty (strip t)) eqn:Es; simpl; [done|].
  destruct t as [|c t]; [done|]. done.
Qed.

(** *** Failures of the vector index *)

Lemma wake_keeps_error st i e :
  first_error st = Some e -> first_error (wake st i) = Some e.
Proof. intros H. destruct i; simpl; by rewrite H. Qed.

Lemma schedule_keeps_error schedule st e :
  first_error st = Some e -> first_error (fold_left wake schedule st) = Some e.
Proof.
  revert st. induction schedule as [|i schedule IH]; intros st H; simpl; [done|].
  by apply IH, wake_keeps_error.
Qed.

Lemma drain_keeps_error st e :
  first_error st = Some e -> first_error (drain st) = Some e.
Proof. intros H. unfold drain. simpl. by rewrite H. Qed.

Lemma gather_vector_throws e (cg cw : coro (Row:=Row) string) schedule :
  (gather (Throw e) cg cw schedule).1 = Raise e.
Proof.
  unfold gather.
  assert (H : first_error (drain (fold_left wake schedule (start (Throw e) cg cw))) = Some e).
  { apply drain_keeps_error, schedule_keeps_error. unfold start.
    by do 2 apply wake_keeps_error. }
  by rewrite H.
Qed.

Lemma raises_of_gather (E : env (Row:=Row)) query e
    (r : py_result (string * string * string) * list (Citation (Row:=Row))) :
  r.1 = Raise e ->
  match r with
  | (Raise e, _) => Raise e
  | (Ok (vector_ctx, graph_ctx, web_ctx), citations_list) =>
      match synthesize E vector_ctx graph_ctx web_ctx query with
      | Raise e => Raise e
      | Ok final_answer => Ok (mkChat final_answer citations_list)
      end
  end = Raise e.
Proof. destruct r as [[[[v g] w]|e'] cits]; simpl; [done|]. by intros [= ->]. Qed.

(** X23: a failure of the vector index is not isolated: when the vector
    search raises, the whole request raises that exception, for every
    completion order and whatever the graph and the web task do. *)
Theorem vector_failure_fails E (query : string) (schedule : list task_id)
    (e : PyExc) :
  vector_search E query 3 = Raise e ->
  get_combined_response E query schedule = Raise e.
Proof.
  intros Hv. unfold get_combined_response, task_vector. rewrite Hv. simpl.
  apply raises_of_gather, gather_vector_throws.
Qed.

(** *** Every completion order *)

(** The response for a vector index that answers: the three contexts do
    not depend on the completion order, and the list is one of two. *)
Lemma response_shape E query raw_docs :
  vector_search E query 3 = Ok raw_docs ->
  exists v g w, forall schedule,
    exists cits,
      (cits = vector_citations raw_docs ++ appended (task_graph E query)
              ++ appended (task_web E query) \/
       cits = vector_citations raw_docs ++ appended (task_web E query)
              ++ appended (task_graph E query)) /\
      get_combined_response E query schedule
      = match synthesize E v g w query with
        | Raise e => Raise e
        | Ok final_answer => Ok (mkChat final_answer cits)
        end.
Proof.
  intros Hv. unfold get_combined_response.
  destruct (task_vector_shape E query raw_docs Hv) as (v & ->).
  destruct (task_graph_shape E query) as (g & G & _ & HG).
  destruct (task_web_shape E query) as (w & W & _ & ->).
  rewrite appended_await_emit.
  exists v, g, w. intros schedule.
  destruct (groq_api_key E).
  - rewrite HG, appended_await_emit.
    destruct (gather_awaiting (vector_citations raw_docs) G W v g w schedule)
      as [-> | ->]; eexists; split; try reflexivity; auto.
  - rewrite HG, appended_emit, gather_direct.
    eexists; split; [|reflexivity]. auto.
Qed.

(** X24: the completion order decides nothing but the order of the
    citations.  For two completion orders the request either raises the same
    exception in both, or returns in both, with the same answer and the same
    citations up to order. *)
Theorem schedule_independent E (query : string) (s1 s2 : list task_id) :
  match get_combined_response E query s1, get_combined_response E query s2 with
  | Ok r1, Ok r2 => answer r1 = answer r2 /\ citations r1 ≡ₚ citations r2
  | Raise e1, Raise e2 => e1 = e2
  | _, _ => False
  end.
Proof.
  destruct (vector_search E query 3) as [raw_docs|e] eqn:Hv.
  - destruct (response_shape E query raw_docs Hv) as (v & g & w & H).
    destruct (H s1) as (c1 & Hc1 & ->). destruct (H s2) as (c2 & Hc2 & ->).
    destruct (synthesize E v g w query); [|done]. simpl. split; [done|].
    destruct Hc1 as [-> | ->], Hc2 as [-> | ->]; try done;
      apply Permutation_app_head; apply Permutation_app_comm.
  - unfold get_combined_response, task_vector. rewrite Hv. simpl.
    by rewrite !(raises_of_gather E query e) by apply gather_vector_throws.
Qed.

(** *** The ids of the citations *)

Lemma to_uint_not_nil n : Nat.to_uint n <> Decimal.Nil.
Proof.
  intros H. pose proof (DecimalNat.Unsigned.of_to n) as E.
  rewrite H in E. simpl in E. subst n. discriminate H.
Qed.

Lemma string_of_nat_inj a b : string_of_nat a = string_of_nat b -> a = b.
Proof.
  unfold string_of_nat. intros E. apply DecimalNat.Unsigned.to_uint_inj.
  pose proof (NilZero.usu _ (to_uint_not_nil a)) as Ha.
  pose proof (NilZero.usu _ (to_uint_not_nil b)) as Hb.
  rewrite E in Ha. congruence.
Qed.

Lemma doc_ref_inj i j : doc_ref i = doc_ref j -> i = j.
Proof.
  unfold doc_ref. intros H. apply (inj (String.append "Doc-")) in H.
  apply string_of_nat_inj in H. lia.
Qed.

Lemma doc_refs_distinct n : NoDup (map doc_ref (seq 0 n)).
Proof.
  apply NoDup_fmap_2_strong; [|apply NoDup_seq].
  intros i j _ _. apply doc_ref_inj.
Qed.

Lemma doc_ref_not_fixed l x :
  x ∈ map doc_ref l -> x <> "Graph-1"%string /\ x <> "Web-1"%string.
Proof. intros (i & -> & _)%list_elem_of_fmap. by split. Qed.

Lemma ids_distinct (V G W : list (Citation (Row:=Row))) n :
  map id V = map doc_ref (seq 0 n) ->
  graph_shaped G -> web_shaped W ->
  NoDup (map id (V ++ G ++ W)) /\ NoDup (map id (V ++ W ++ G)).
Proof.
  intros HV HG HW. rewrite !map_app, HV.
  pose proof (doc_refs_distinct n) as Hd.
  pose proof (doc_ref_not_fixed (seq 0 n)) as Hf.
  destruct HG as [->|(cy & d & ->)], HW as [->|(t & ->)]; simpl;
    rewrite ?app_nil_r; split; try done;
    repeat (apply NoDup_app; split; [done|split]);
    try (apply NoDup_singleton);
    try (intros x Hx [->|[->|[]%elem_of_nil]%elem_of_cons]%elem_of_cons;
         destruct (Hf _ Hx); done);
    try (intros x Hx ->%list_elem_of_singleton; destruct (Hf _ Hx); done);
    try (apply NoDup_cons; split; [|apply NoDup_singleton];
         intros ?%list_elem_of_singleton; done).
Qed.

(** X25: the ids of the citations of a response are pairwise distinct,
    for every completion order: [Doc-1] to [Doc-n], at most one [Graph-1]
    and at most one [Web-1]. *)
Theorem citation_ids_distinct E (query : string) (schedule : list task_id)
    (r : ChatResult (Row:=Row)) :
  get_combined_response E query schedule = Ok r -> NoDup (map id (citations r)).
Proof.
  intros Hr. destruct (vector_search E query 3) as [raw_docs|e] eqn:Hv.
  - destruct (response_shape E query raw_docs Hv) as (v & g & w & H).
    destruct (H schedule) as (cits & Hc & Hresp). rewrite Hresp in Hr.
    destruct (synthesize E v g w query); [|done]. inversion Hr. simpl.
    destruct (ids_distinct (vector_citations raw_docs) (appended (task_graph E query))
                (appended (task_web E query)) (length raw_docs)) as [Ha Hb].
    + apply vector_citation_ids.
    + apply graph_citations_shaped.
    + apply web_citations_shaped.
    + by destruct Hc as [-> | ->].
  - unfold get_combined_response, task_vector in Hr. rewrite Hv in Hr. simpl in Hr.
    by rewrite (raises_of_gather E query e) in Hr by apply gather_vector_throws.
Qed.

End OrchestratorFacts.
Lemma llm_blank_keeps_note_witness :
  exists r,
    run_all (text_to_cypher_and_run
               (mkEnv (vector_search demo_env) true (fun _ => Ok "```cypher```")
                      true false (neo4j_run demo_env) (json_dumps demo_env)
                      (web_search demo_env) (synthesize demo_env))
               "find devices" None true) []
    = (Ok r, []) /\
    cypher r = Cypher.text_to_cypher_simple "find devices" /\
    startswith "generated_via_llm" (note r) = true.
Proof.
  apply (llm_blank_keeps_note
           (mkEnv (vector_search demo_env) true (fun _ => Ok "```cypher```")
                  true false (neo4j_run demo_env) (json_dumps demo_env)
                  (web_search demo_env) (synthesize demo_env))
           "find devices" "```cypher```" None); reflexivity.
Defined.

Lemma graph_down_is_cited_witness :
  exists cy msg,
    appended (task_graph graph_down_env "find devices")
    = [graph_citation cy (ErrorDict msg)].
Proof.
  apply (graph_down_is_cited graph_down_env "find devices").
  - right. intros c. by eexists.
  - intros d. by eexists.
Defined.

Lemma vector_failure_fails_witness :
  get_combined_response
    (mkEnv (fun _ _ => Raise (Exception "index not loaded")) true
           (llm_translate demo_env) true false (neo4j_run demo_env)
           (json_dumps demo_env) (web_search demo_env) (synthesize demo_env))
    "pumps" [TaskWeb; TaskGraph]
  = Raise (Exception "index not loaded").
Proof.
  apply (vector_failure_fails
           (mkEnv (fun _ _ => Raise (Exception "index not loaded")) true
                  (llm_translate demo_env) true false (neo4j_run demo_env)
                  (json_dumps demo_env) (web_search demo_env) (synthesize demo_env))
           "pumps" [TaskWeb; TaskGraph] (Exception "index not loaded")).
  reflexivity.
Defined.

Lemma citation_ids_distinct_witness :
  NoDup (map id (citations
    (mkChat "answer"
       (vector_citations [mkDoc "Pump manual" (Some "manual.pdf"); mkDoc "Filter notes" None]
        ++ [web_citation "Entegris news";
            graph_citation "MATCH (n:Pump) RETURN n LIMIT 5" (Rows ["pump-1"%string])])))).
Proof.
  apply (citation_ids_distinct demo_env "pumps" [TaskWeb; TaskGraph]).
  vm_compute. reflexivity.
Defined.

End OrchestratorFacts.

(** ** The second chunker: [graph_rag_index.py] *)

Module GraphRagIndex.
Import Chunker.
Section GraphRagIndex.
Local Open Scope Z_scope.
Context {char : Type}.

(** The [while start < n] loop of [chunk_text].  [fuel] bounds the number
    of times the loop condition is tested; [None] means that the bound was
    reached with the loop still running. *)
Fixpoint chunk_loop (fuel : nat) (text : list char) (chunk_size overlap start : Z)
    (out : list (list char)) : option (list (list char)) :=
  match fuel with
  | O => None
  | S fuel' =>
      if start <? len text then
        let end_ := Z.min (len text) (start + chunk_size) in
        let out' := out ++ [py_slice text start end_] in
        if end_ =? len text then Some out'
        else chunk_loop fuel' text chunk_size overlap (Z.max 0 (end_ - overlap)) out'
      else Some out
  end.

Definition chunk_text (fuel : nat) (text : list char) (chunk_size overlap : Z)
  : option (list (list char)) :=
  chunk_loop fuel text chunk_size overlap 0 [].

(** The defaults of the source: [chunk_size = 800], [overlap = 200]. *)
Definition chunk_text_default (fuel : nat) (text : list char) : option (list (list char)) :=
  chunk_text fuel text 800 200.

(** The number of chunks still to come when the loop is at [start]. *)
Definition chunks_left (text : list char) (chunk_size overlap start : Z) : Z :=
  Z.max 1 (ceil_div (len text - start - overlap) (chunk_size - overlap)).

Lemma ceil_div_step (a b : Z) : 0 < b -> ceil_div a b = 1 + ceil_div (a - b) b.
Proof.
  intros Hb. unfold ceil_div.
  replace (- (a - b)) with (- a + 1 * b) by lia.
  rewrite Z.div_add by lia. lia.
Qed.

Lemma ceil_div_pos (a b : Z) : 0 < b -> 0 < a -> 1 <= ceil_div a b.
Proof.
  intros Hb Ha. pose proof (ceil_div_bounds a b Hb). nia.
Qed.

Lemma ceil_div_le_one (a b : Z) : 0 < b -> a <= b -> ceil_div a b <= 1.
Proof.
  intros Hb Ha. pose proof (ceil_div_bounds a b Hb). nia.
Qed.

Lemma py_slice_clamped (text : list char) (i s : Z) :
  0 <= i -> 0 <= s ->
  py_slice text i (Z.min (len text) (i + s)) = py_slice text i (i + s).
Proof.
  intros Hi Hs. unfold py_slice, py_index.
  assert (Hn : 0 <= len text) by (unfold len; lia).
  destruct (Z.ltb_spec i 0) as [?|_]; [lia|].
  destruct (Z.ltb_spec (i + s) 0) as [?|_]; [lia|].
  destruct (Z.ltb_spec (Z.min (len text) (i + s)) 0) as [?|_]; [lia|].
  do 2 f_equal. lia.
Qed.

(** The loop under [0 <= overlap < chunk_size]: it cuts the windows of
    [chunk_size] characters that start every [chunk_size - overlap]
    characters, and stops at the first window that reaches the end. *)
Lemma chunk_loop_windows (text : list char) (chunk_size overlap : Z) (fuel : nat)
    (start : Z) (out : list (list char)) :
  0 <= overlap < chunk_size -> 0 <= start < len text ->
  chunks_left text chunk_size overlap start <= Z.of_nat fuel ->
  chunk_loop fuel text chunk_size overlap start out
  = Some (out ++ map (fun i => py_slice text i (i + chunk_size))
                     (range_from (Z.to_nat (chunks_left text chunk_size overlap start))
                                 start (chunk_size - overlap))).
Proof.
  intros Ho. revert start out.
  induction fuel as [|fuel IH]; intros start out Hs Hf.
  { unfold chunks_left in Hf. lia. }
  cbn [chunk_loop]. destruct (Z.ltb_spec start (len text)) as [_|?]; [|lia].
  rewrite py_slice_clamped by lia.
  destruct (Z.eqb_spec (Z.min (len text) (start + chunk_size)) (len text)) as [He|He].
  - assert (E : chunks_left text chunk_size overlap start = 1).
    { unfold chunks_left.
      pose proof (ceil_div_le_one (len text - start - overlap) (chunk_size - overlap)). lia. }
    by rewrite E.
  - assert (Hlt : start + chunk_size < len text) by lia.
    rewrite Z.min_r by lia.
    replace (Z.max 0 (start + chunk_size - overlap))
      with (start + (chunk_size - overlap)) by lia.
    assert (E : chunks_left text chunk_size overlap start
                = 1 + chunks_left text chunk_size overlap (start + (chunk_size - overlap))).
    { unfold chunks_left.
      rewrite (ceil_div_step (len text - start - overlap) (chunk_size - overlap)) by lia.
      replace (len text - start - overlap - (chunk_size - overlap))
        with (len text - (start + (chunk_size - overlap)) - overlap) by lia.
      pose proof (ceil_div_pos (len text - (start + (chunk_size - overlap)) - overlap)
                    (chunk_size - overlap)). lia. }
    rewrite IH by (unfold chunks_left in *; lia).
    rewrite E. rewrite <- app_assoc. f_equal. f_equal.
    assert (H1 : 1 <= chunks_left text chunk_size overlap (start + (chunk_size - overlap)))
      by (unfold chunks_left; lia).
    replace (Z.to_nat (1 + chunks_left text chunk_size overlap (start + (chunk_size - overlap))))
      with (S (Z.to_nat (chunks_left text chunk_size overlap (start + (chunk_size - overlap)))))
      by lia.
    reflexivity.
Qed.

Lemma chunks_left_fuel (text : list char) (chunk_size overlap : Z) :
  0 <= overlap < chunk_size -> 0 < len text ->
  chunks_left text chunk_size overlap 0 <= len text.
Proof.
  intros Ho Hn. unfold chunks_left.
  pose proof (ceil_div_bounds (len text - 0 - overlap) (chunk_size - overlap) ltac:(lia)).
  nia.
Qed.

(** With [overlap >= chunk_size] the loop is back at [start = 0] after
    one turn, with one more chunk in [out]. *)
Lemma chunk_loop_stuck (text : list char) (chunk_size overlap : Z) (fuel : nat)
    (out : list (list char)) :
  0 < len text -> chunk_size < len text -> chunk_size <= overlap ->
  chunk_loop fuel text chunk_size overlap 0 out = None.
Proof.
  intros Hn Hc Ho. revert out. induction fuel as [|fuel IH]; intros out; [done|].
  cbn [chunk_loop]. destruct (Z.ltb_spec 0 (len text)) as [_|?]; [|lia].
  rewrite Z.add_0_l, Z.min_r by lia.
  destruct (Z.eqb_spec chunk_size (len text)) as [?|_]; [lia|].
  rewrite Z.max_l by lia. apply IH.
Qed.

(** X26: for [0 <= overlap < chunk_size], [chunk_text] of
    [graph_rag_index.py] terminates: every bound on the number of tests of the
    loop condition that exceeds [len(text)] is enough.  Its chunks give the
    text back when every chunk after the first loses its leading [overlap]
    characters; the empty text has no chunk, and any other text has
    [max(1, ceil((len(text) - overlap) / (chunk_size - overlap)))] chunks. *)
Theorem index_chunk_text_spec (text : list char) (chunk_size overlap : Z) :
  0 <= overlap < chunk_size ->
  exists chunks,
    (forall fuel, (length text < fuel)%nat ->
       chunk_text fuel text chunk_size overlap = Some chunks) /\
    reconstruct overlap chunks = text /\
    (text = [] -> chunks = []) /\
    (text <> [] ->
     Z.of_nat (length chunks)
     = Z.max 1 (ceil_div (len text - overlap) (chunk_size - overlap))).
Proof.
  intros Ho. destruct text as [|c text].
  { exists []. repeat split; try done. intros [|fuel] Hf; [simpl in Hf; lia|done]. }
  set (t := c :: text) in *.
  assert (Hn : 0 < len t) by (unfold len, t; simpl; lia).
  pose proof (chunks_left_fuel t chunk_size overlap Ho Hn) as Hk.
  assert (H1 : 1 <= chunks_left t chunk_size overlap 0) by (unfold chunks_left; lia).
  eexists. split; [|split; [|split]].
  - intros fuel Hf. unfold chunk_text.
    rewrite chunk_loop_windows by (unfold len in *; lia). reflexivity.
  - simpl. apply ChunkerFacts.reconstruct_windows; [done|lia|].
    rewrite Z2Nat.id by lia. unfold chunks_left.
    pose proof (ceil_div_bounds (len t - 0 - overlap) (chunk_size - overlap) ltac:(lia)).
    nia.
  - done.
  - intros _. simpl. rewrite length_map, range_from_length.
    rewrite Z2Nat.id by lia. unfold chunks_left. by rewrite Z.sub_0_r.
Qed.

(** X27: for a text longer than [chunk_size] and
    [overlap >= chunk_size], [chunk_text] of [graph_rag_index.py] does not
    terminate: after every turn the loop is at [start = 0] again, having
    appended the same chunk once more. *)
Theorem index_chunk_text_diverges (text : list char) (chunk_size overlap : Z)
    (fuel : nat) :
  0 < len text -> chunk_size < len text -> chunk_size <= overlap ->
  chunk_text fuel text chunk_size overlap = None.
Proof. intros Hn Hc Ho. unfold chunk_text. by apply chunk_loop_stuck. Qed.

End GraphRagIndex.

Lemma index_chunk_text_spec_witness :
  exists chunks,
    chunk_text 11 [0; 1; 2; 3; 4; 5; 6; 7; 8; 9]%nat 4 1 = Some chunks /\
    reconstruct 1 chunks = [0; 1; 2; 3; 4; 5; 6; 7; 8; 9]%nat /\
    Z.of_nat (length chunks) = 3%Z.
Proof.
  destruct (index_chunk_text_spec [0; 1; 2; 3; 4; 5; 6; 7; 8; 9]%nat 4 1)
    as (chunks & Hf & Hr & _ & Hc); [lia|].
  exists chunks. split; [apply Hf; simpl; lia|]. split; [exact Hr|].
  rewrite Hc by done. reflexivity.
Defined.

Lemma index_chunk_text_diverges_witness :
  chunk_text 1000 [0; 1; 2; 3; 4]%nat 2 2 = None.
Proof.
  apply (index_chunk_text_diverges [0; 1; 2; 3; 4]%nat 2 2 1000); reflexivity || lia.
Defined.

End GraphRagIndex.

(** ** The insight: [extract_exceptional_insight] and [call_llm] *)

Module Insight.
Import PyStr PyStrOps PathFinder.

Record InsightResult : Type := mkInsight {
  found : bool;
  explanation : string;
  paths : list string
}.

(** [sep.join(l)] *)
Fixpoint join (sep : string) (l : list string) : string :=
  match l with
  | [] => EmptyString
  | [x] => x
  | x :: l' => (x ++ sep ++ join sep l')%string
  end.

Definition empty_response : string := "[LLM returned an empty response]".

Definition no_paths_explanation : string :=
  "No compelling multi-hop paths were discovered in the document.".

Definition default_explanation (top_path_str : string) : string :=
  ("A key relationship was discovered: " ++ top_path_str
   ++ ". This suggests a potential causal link or area for further investigation.")%string.

Definition insight_prompt (top_path_str context_text : string) : string :=
  ("You are a scientific research analyst. The following path was automatically discovered in a knowledge graph. "
   ++ "In a single, concise sentence, explain why this relationship might be scientifically interesting or important."
   ++ newline ++ newline
   ++ "PATH: " ++ top_path_str ++ newline ++ newline
   ++ "DOCUMENT CONTEXT (for reference):" ++ newline
   ++ Re.take_chars 2500 context_text ++ newline ++ newline
   ++ "CONCISE EXPLANATION:")%string.

Section Insight.

(** The arrow between the ids of a path, as the source file has it. *)
Variable arrow : string.

(** [groq_client.chat.completions.create] on a prompt: the content of the
    first choice, [None] when there is no choice, message or content, or the
    exception of the client. *)
Variable groq : string -> py_result (option string).

(** [llm_wrapper.call_llm]: every exception is caught. *)
Definition call_llm (prompt : string) : string :=
  match groq prompt with
  | Ok (Some content) => if is_empty content then empty_response else strip content
  | Ok None => empty_response
  | Raise e => ("[Groq API Error: " ++ exc_str e ++ "]")%string
  end.

(** [call_llm] does not raise and building the prompt does not either, so
    the [except] branch of the source is never entered. *)
Definition extract_exceptional_insight (graph : KnowledgeGraphResponse)
    (context_text : string) : InsightResult :=
  match path_discovery_default graph with
  | [] => mkInsight false no_paths_explanation []
  | (top_path :: _) as candidate_paths =>
      let path_strings := map (join (" " ++ arrow ++ " ")%string) candidate_paths in
      let top_path_str := join (" " ++ arrow ++ " ")%string top_path in
      let llm_explanation := call_llm (insight_prompt top_path_str context_text) in
      mkInsight true
        (if negb (is_empty llm_explanation)
            && negb (contains "error" (lower llm_explanation))
         then llm_explanation
         else default_explanation top_path_str)
        path_strings
  end.

End Insight.
End Insight.

Module InsightFacts.
Import PyStr PyStrOps PathFinder Insight ReFacts.
Local Open Scope string_scope.

Lemma lower_append a b : lower (a ++ b) = lower a ++ lower b.
Proof. induction a as [|x a IH]; [done|]. rewrite append_cons. simpl. by rewrite IH. Qed.

Lemma startswith_append_l n a b : startswith n a = true -> startswith n (a ++ b) = true.
Proof.
  revert a. induction n as [|x n IH]; intros a; [done|].
  destruct a as [|y a]; [done|]. rewrite append_cons. simpl.
  destruct (Ascii.eqb x y); [apply IH|done].
Qed.

Lemma contains_append_l n a b : contains n a = true -> contains n (a ++ b) = true.
Proof.
  induction a as [|y a IH].
  - simpl. rewrite orb_false_r. destruct n; [|done]. intros _. by destruct b.
  - rewrite append_cons. cbn [contains]. intros [H|H]%orb_true_iff.
    + apply (startswith_append_l _ _ b) in H. rewrite append_cons in H. by rewrite H.
    + by rewrite (IH H), orb_true_r.
Qed.

Section InsightFacts.
Variable arrow : string.
Variable groq : string -> py_result (option string).

(** X28: when the call of the language model raises, the insight still
    comes with an explanation: the default sentence about the first path.
    The message that [call_llm] returns for the exception contains the word
    [Error], which is what makes [extract_exceptional_insight] discard it. *)
Theorem insight_llm_failure (graph : KnowledgeGraphResponse) (context_text : string)
    (top_path : list string) (rest : list (list string)) :
  (forall prompt, exists e, groq prompt = Raise e) ->
  path_discovery_default graph = top_path :: rest ->
  extract_exceptional_insight arrow groq graph context_text
  = mkInsight true
      (default_explanation (join (" " ++ arrow ++ " ") top_path))
      (map (join (" " ++ arrow ++ " ")) (top_path :: rest)).
Proof.
  intros Hg Hp. unfold extract_exceptional_insight. rewrite Hp.
  unfold call_llm. destruct (Hg (insight_prompt (join (" " ++ arrow ++ " ") top_path)
                                   context_text)) as [e ->].
  assert (E : contains "error" (lower ("[Groq API Error: " ++ exc_str e ++ "]")) = true).
  { rewrite lower_append. apply contains_append_l. by vm_compute. }
  rewrite E. cbn [negb]. by rewrite andb_false_r.
Qed.

(** X29: when the language model answers without content, the
    placeholder text of [call_llm] is not recognised as a failure: it is
    returned to the user as the explanation of the insight. *)
Theorem insight_empty_response (graph : KnowledgeGraphResponse) (context_text : string)
    (top_path : list string) (rest : list (list string)) :
  (forall prompt, groq prompt = Ok None) ->
  path_discovery_default graph = top_path :: rest ->
  explanation (extract_exceptional_insight arrow groq graph context_text)
  = "[LLM returned an empty response]".
Proof.
  intros Hg Hp. unfold extract_exceptional_insight. rewrite Hp.
  unfold call_llm. rewrite Hg. reflexivity.
Qed.

End InsightFacts.

Lemma insight_llm_failure_witness :
  extract_exceptional_insight "->" (fun _ => Raise (Exception "rate limit"))
    line_graph "Metal ions reduce yield."
  = mkInsight true (default_explanation "Metal ion -> Etch -> Yield")
      ["Metal ion -> Etch -> Yield"].
Proof.
  apply (insight_llm_failure "->" (fun _ => Raise (Exception "rate limit")) line_graph
           "Metal ions reduce yield." ["Metal ion"; "Etch"; "Yield"] []).
  - intros prompt. by eexists.
  - by vm_compute.
Defined.

Lemma insight_empty_response_witness :
  explanation (extract_exceptional_insight "->" (fun _ => Ok None) line_graph
                 "Metal ions reduce yield.")
  = "[LLM returned an empty response]".
Proof.
  apply (insight_empty_response "->" (fun _ => Ok None) line_graph
           "Metal ions reduce yield." ["Metal ion"; "Etch"; "Yield"] []).
  - done.
  - by vm_compute.
Defined.

End InsightFacts.

(** ** The vector store: [vector_store.py] *)

Module VectorStore.
Import Chunker.
Section VectorStore.
Local Open Scope Z_scope.

(** Characters, metadata dictionaries and embedding vectors are kept
    abstract; [encode] is the sentence-embedding model on one chunk. *)
Context {char Meta Vector : Type}.
Variable encode : list char -> Vector.

(** An entry of [self.documents]. *)
Record Document : Type := mkDocument {
  text : list char;
  metadata : Meta;
  chunk_id : nat
}.

(** The store: the vectors of the FAISS index in the order they were
    added, [self.documents] and [self._count]. *)
Record t : Type := mkStore {
  index : list Vector;
  documents : list Document;
  _count : Z
}.

Definition empty : t := mkStore [] [] 0.

Definition add_document (s : t) (text : list char) (metadata : Meta) : py_result t :=
  let chunk_size := 500 in
  match py_range 0 (len text) (chunk_size - 50) with
  | Raise e => Raise e
  | Ok starts =>
      let chunks := map (fun i => py_slice text i (i + chunk_size)) starts in
      match chunks with
      | [] => Ok s
      | _ =>
          Ok (mkStore (index s ++ map encode chunks)
                (documents s ++ imap (fun i chunk => mkDocument chunk metadata i) chunks)
                (_count s + len chunks))
      end
  end.

(** [_count] is the number of documents, and the index has one vector per
    document. *)
Definition consistent (s : t) : Prop :=
  _count s = len (documents s) /\ length (index s) = length (documents s).

End VectorStore.
End VectorStore.

Module VectorStoreFacts.
Import Chunker VectorStore.
Section VectorStoreFacts.
Local Open Scope Z_scope.
Context {char Meta Vector : Type}.
Variable encode : list char -> Vector.

Lemma imap_chunk_ids (meta : Meta) (chunks : list (list char)) (k : nat) :
  map chunk_id (imap (fun i chunk => mkDocument chunk meta (k + i)) chunks)
  = seq k (length chunks).
Proof.
  revert k. induction chunks as [|c chunks IH]; intros k; simpl; [done|].
  rewrite Nat.add_0_r. f_equal. rewrite <- IH. f_equal.
  apply imap_ext. intros i x _. simpl. f_equal. lia.
Qed.

Lemma imap_texts (meta : Meta) (chunks : list (list char)) (k : nat) :
  map text (imap (fun i chunk => mkDocument chunk meta (k + i)) chunks) = chunks.
Proof.
  revert k. induction chunks as [|c chunks IH]; intros k; simpl; [done|].
  f_equal. rewrite <- (IH (S k)) at 2. f_equal.
  apply imap_ext. intros i x _. simpl. f_equal. lia.
Qed.

Lemma imap_metadata (meta : Meta) (chunks : list (list char)) (k : nat) :
  Forall (fun d => metadata d = meta)
    (imap (fun i chunk => mkDocument chunk meta (k + i)) chunks).
Proof.
  revert k. induction chunks as [|c chunks IH]; intros k; simpl; [constructor|].
  constructor; [done|]. specialize (IH (S k)).
  erewrite imap_ext; [exact IH|]. intros i x _. simpl. f_equal. lia.
Qed.

(** X30: [add_document] never raises and keeps the store consistent
    ([_count] is the number of documents and the index has one vector per
    document).  It only appends: the new documents carry the given metadata
    and the chunk ids 0, 1, 2, ... in order, their texts give the text back
    when every chunk after the first loses its leading 50 characters, and
    for the empty text the store is left as it is. *)
Theorem add_document_spec (s : t) (txt : list char) (meta : Meta) :
  consistent s ->
  exists s' new,
    add_document encode s txt meta = Ok s' /\
    consistent s' /\
    documents s' = documents s ++ new /\
    map chunk_id new = seq 0 (length new) /\
    Forall (fun d => metadata d = meta) new /\
    reconstruct 50 (map text new) = txt /\
    (txt = [] -> s' = s).
Proof.
  intros [Hc Hi]. unfold add_document, py_range. simpl (500 - 50 =? 0).
  cbv iota. rewrite range_len_pos by (unfold len; lia).
  set (k := Z.to_nat (ceil_div (len txt) (500 - 50))).
  set (chunks := map (fun i => py_slice txt i (i + 500)) (range_from k 0 (500 - 50))).
  assert (Hlen : length chunks = k) by (unfold chunks; by rewrite length_map, range_from_length).
  pose proof (ceil_div_bounds (len txt) (500 - 50) ltac:(lia)) as [Hlo Hhi].
  destruct txt as [|c txt].
  { exists s, []. repeat split; try done. by rewrite app_nil_r. }
  assert (Hk : (1 <= k)%nat) by (unfold k, len in *; simpl length in *; lia).
  assert (Hrec : reconstruct 50 chunks = c :: txt).
  { apply (ChunkerFacts.reconstruct_windows (c :: txt) 500 50 k); [lia|done|].
    unfold k. rewrite Z2Nat.id by (unfold len in *; simpl length in *; lia). lia. }
  destruct chunks as [|c0 chunks'] eqn:Ech; [simpl in Hlen; lia|].
  rewrite <- Ech in *.
  exists (mkStore (index s ++ map encode chunks)
            (documents s ++ imap (fun i chunk => mkDocument chunk meta i) chunks)
            (_count s + len chunks)),
         (imap (fun i chunk => mkDocument chunk meta i) chunks).
  split; [by rewrite Ech|]. split.
  { split; simpl.
    - unfold len in *. rewrite length_app, length_imap. lia.
    - rewrite !length_app, length_map, length_imap. lia. }
  split; [done|]. split.
  { rewrite length_imap. apply (imap_chunk_ids meta chunks 0). }
  split; [apply (imap_metadata meta chunks 0)|].
  split; [|done].
  pose proof (imap_texts meta chunks 0) as Ht. cbn [Nat.add] in Ht. by rewrite Ht.
Qed.

End VectorStoreFacts.

(** A store of texts over [nat], with file names as metadata and the
    length of a chunk as its vector.  [demo_store] already holds one
    document; [demo_text] has 1000 characters, so it is cut at 0, 450 and
    900 into chunks of 500, 500 and 100 characters. *)
Definition demo_store : t (char:=nat) (Meta:=string) (Vector:=nat) :=
  mkStore [3%nat] [mkDocument [7; 8; 9]%nat "old.txt"%string 0] 1.

Definition demo_text : list nat := seq 0 1000.

Definition demo_added : t (char:=nat) (Meta:=string) (Vector:=nat) :=
  match add_document (fun c => length c) demo_store demo_text "manual.pdf"%string with
  | Ok s => s
  | Raise _ => demo_store
  end.

Lemma add_document_spec_witness :
  consistent demo_store /\
  exists s' new,
    add_document (fun c => length c) demo_store demo_text "manual.pdf"%string = Ok s' /\
    consistent s' /\
    index s' = [3; 500; 500; 100]%nat /\
    _count s' = 4%Z /\
    documents s' = documents demo_store ++ new /\
    map chunk_id new = [0; 1; 2]%nat /\
    map (fun d => (head (text d), length (text d))) new
    = [(Some 0, 500); (Some 450, 500); (Some 900, 100)]%nat /\
    Forall (fun d => metadata d = "manual.pdf"%string) new /\
    reconstruct 50 (map text new) = demo_text.
Proof.
  assert (Hstore : consistent demo_store) by (by split).
  split; [exact Hstore|].
  destruct (add_document_spec (fun c => length c) demo_store demo_text
              "manual.pdf"%string Hstore)
    as (s' & new & Hadd & Hc & Hd & Hid & Hm & Hr & _).
  exists s', new.
  assert (Hs : s' = demo_added) by (unfold demo_added; by rewrite Hadd).
  assert (Hnew : new = drop 1 (documents demo_added)).
  { rewrite <- Hs, Hd. reflexivity. }
  split; [exact Hadd|]. split; [exact Hc|].
  split; [rewrite Hs; by vm_compute|]. split; [rewrite Hs; by vm_compute|].
  split; [exact Hd|]. split; [rewrite Hnew; by vm_compute|].
  split; [rewrite Hnew; by vm_compute|]. split; [exact Hm|exact Hr].
Defined.

End VectorStoreFacts.

